(** * cf-deploy: ordered, parallel CloudFormation stack deployment

    A shallow embedding of [cf-deploy.py] (the copy at the top of the
    repository and the one under [scripts/]) and the properties of its
    sequence runners, of its thread-per-sequence orchestrator and of the
    functions that build the dictionaries, describe them and ask the user.

    Layout of the file:
    - Python values, dictionaries and the object store;
    - programs as trees of primitive actions, with [bind], [try_except]
      and [for_each], and the functions of the source written as such
      programs;
    - the provider (boto3 client) as an oracle over an abstract world, a
      sequential interpreter ([run]) and an interleaving machine for the
      threads started by [deploy_parallel] and [delete_parallel];
    - [build_template_params], [describe_sequence] and
      [check_user_admission] over the files, the console and the provider's
      template validation;
    - the vocabulary of the properties;
    - the properties.

    The two copies of the script have the same runners and orchestrators up
    to two expressions; the definitions take the copy as a parameter
    ([script]) where they differ. *)

From Stdlib Require Import ZArith.
From stdpp Require Import gmap strings list.

(** ** Python values *)

(** The values stored in a stack-parameter dictionary: strings
    ([StackName], [TemplateBody], [StackId]), the list of capability names,
    and the list of [{"ParameterKey": k, "ParameterValue": v}] entries. *)
Inductive value :=
  | VStr (s : string)
  | VStrList (l : list string)
  | VParameters (l : list (string * string)).

(** A Python [dict] with string keys. *)
Abbreviation pydict := (gmap string value).

(** Dictionaries are objects: a sequence holds references to them and the
    runners mutate them in place. The same dictionary may occur twice in a
    sequence, or in two sequences. A reference always denotes a dictionary:
    the store is read with [!!!], which gives the empty dictionary at an
    address it does not hold. *)
Abbreviation loc := nat.
Abbreviation store := (gmap loc pydict).

(** The function objects that may be passed as [method]. Python compares
    functions by identity, so [method == create_stack] holds for the
    function [create_stack] only. *)
Inductive callable :=
  | create_stack_fn
  | update_stack_fn
  | delete_stack_fn
  | other_fn (id : nat).

(** Exceptions derived from [Exception], the class the runners catch: the
    ones the script raises itself ([KeyError] from a subscript, [ValueError]
    from the dispatch) and the ones raised by the provider client
    ([ClientError], parameter validation) and its waiters ([WaiterError], on
    a timeout or a terminal failure). *)
Inductive exn :=
  | KeyError (key : string)
  | ValueError (arg : callable)
  | ClientError (msg : string)
  | WaiterError (msg : string).

(** ** Log records

    [logger.info(f"{param['StackName']} is being {message}")] is kept as the
    interpolated value and the literal text that follows it. *)
Inductive log_record :=
  | INFO (subject : value) (text : string)
  | ERROR (e : exn).

(** ** Primitive actions

    Each action is one step of a thread; its type index is the type of
    what it yields. Actions that can raise yield [exn + _].
    - [GetItem], [SetItem], [PopItem]: [param[key]], [param[key] = v] and
      [param.pop(key, None)] on a dictionary of the store;
    - [ClientCreateStack], [ClientUpdateStack]: the client call on the
      entries the dictionary has at that moment;
    - [ClientDeleteStack]: [client.delete_stack(StackName=stack_name)];
    - [WaiterWait]: [client.get_waiter(operation)] and its [wait] with
      [WaiterConfig={"Delay": delay, "MaxAttempts": max_attempts}];
    - [LoggerInfo], [LoggerError]: a record for the logger. *)
Inductive action : Type → Type :=
  | GetItem (param : loc) (key : string) : action (exn + value)
  | SetItem (param : loc) (key : string) (v : value) : action unit
  | PopItem (param : loc) (key : string) : action unit
  | ClientCreateStack (stack_param : loc) : action (exn + pydict)
  | ClientUpdateStack (stack_param : loc) : action (exn + pydict)
  | ClientDeleteStack (stack_name : value) : action (exn + unit)
  | WaiterWait (operation : string) (stack_name : value)
               (delay max_attempts : Z) : action (exn + unit)
  | LoggerInfo (subject : value) (text : string) : action unit
  | LoggerError (e : exn) : action unit.

(** ** Programs

    A program returns, raises, or performs an action and goes on with what
    the action yields. *)
Inductive prog (R : Type) : Type :=
  | Ret (r : R)
  | Raise (e : exn)
  | Vis {X : Type} (a : action X) (k : X → prog R).

Arguments Ret {R} r.
Arguments Raise {R} e.
Arguments Vis {R X} a k.

Fixpoint bind {A B : Type} (p : prog A) (f : A → prog B) : prog B :=
  match p with
  | Ret a => f a
  | Raise e => Raise e
  | Vis a k => Vis a (λ x, bind (k x) f)
  end.

(** [try: p except Exception as e: h e] *)
Fixpoint try_except {A : Type} (p : prog A) (h : exn → prog A) : prog A :=
  match p with
  | Ret a => Ret a
  | Raise e => h e
  | Vis a k => Vis a (λ x, try_except (k x) h)
  end.

(** [for x in xs: body x] *)
Fixpoint for_each {A : Type} (xs : list A) (body : A → prog unit) : prog unit :=
  match xs with
  | [] => Ret tt
  | x :: xs' => bind (body x) (λ _, for_each xs' body)
  end.

Declare Scope prog_scope.
Delimit Scope prog_scope with prog.
Notation "'do' x <- p ; q" := (bind p (λ x, q))
  (at level 10, x name, p at level 100, q at level 200,
   format "'[v' 'do'  x  <-  p ; '/' q ']'") : prog_scope.
Notation "'do_' p ; q" := (bind p (λ _, q))
  (at level 10, p at level 100, q at level 200,
   format "'[v' 'do_'  p ; '/' q ']'") : prog_scope.
Local Open Scope prog_scope.

(** An action that may raise, as a program. *)
Definition trigger {X : Type} (a : action (exn + X)) : prog X :=
  Vis a (λ r, match r with inl e => Raise e | inr x => Ret x end).

(** An action that cannot raise, as a program. *)
Definition perform_ {X : Type} (a : action X) : prog X := Vis a Ret.

(** [param[key]] *)
Definition getitem (param : loc) (key : string) : prog value :=
  trigger (GetItem param key).

(** [response[key]], on the dictionary a client call returned. *)
Definition response_getitem (response : pydict) (key : string) : prog value :=
  match response !! key with
  | Some v => Ret v
  | None => Raise (KeyError key)
  end.

(** ** The functions of [cf-deploy.py] *)

Definition create_stack (stack_param : loc) : prog pydict :=
  do response <- trigger (ClientCreateStack stack_param);
  Ret response.

Definition update_stack (stack_param : loc) : prog pydict :=
  do response <- trigger (ClientUpdateStack stack_param);
  Ret response.

Definition delete_stack (stack_name : value) : prog unit :=
  do_ trigger (ClientDeleteStack stack_name);
  Ret tt.

Definition default_delay : Z := 5.
Definition default_max_attempts : Z := 120.

(** [def wait_stack(operation, stack_name, delay=5, max_attempts=120)]:
    an argument left out at the call site is [None] here. *)
Definition wait_stack (operation : string) (stack_name : value)
    (delay max_attempts : option Z) : prog bool :=
  do_ trigger (WaiterWait operation stack_name
                 (default default_delay delay)
                 (default default_max_attempts max_attempts));
  Ret true.

(** The two copies of the script, [cf-deploy.py] and
    [scripts/cf-deploy.py]. Their runners differ in the last log line of
    the forward loop, their orchestrators in the condition of the polling
    loop. *)
Inductive script := TopLevel | Scripts.

(** [if method == create_stack: ... elif method == update_stack: ...]:
    the function to call, the waiter name and the message. *)
Definition dispatch (method : callable)
    : option ((loc → prog pydict) * string * string) :=
  match method with
  | create_stack_fn => Some (create_stack, "stack_create_complete", "created")
  | update_stack_fn => Some (update_stack, "stack_update_complete", "updated")
  | _ => None
  end.

(** The text of the second [logger.info] of the forward loop:
    [" is created"] in the top-level copy, [f" is {message}"] under
    [scripts/]. *)
Definition done_text (which : script) (message : string) : string :=
  match which with
  | TopLevel => " is created"
  | Scripts => " is " +:+ message
  end.

(** The body of the [for] loop of [deploy_in_order]. *)
Definition deploy_body (which : script) (method : loc → prog pydict)
    (wait_operation message : string) (param : loc) : prog unit :=
  do response <- method param;
  do stack_id <- response_getitem response "StackId";
  do_ perform_ (SetItem param "StackId" stack_id);
  do name <- getitem param "StackName";
  do_ perform_ (LoggerInfo name (" is being " +:+ message));
  do name <- getitem param "StackName";
  do_ wait_stack wait_operation name None None;
  do name <- getitem param "StackName";
  perform_ (LoggerInfo name (done_text which message)).

Definition deploy_in_order (which : script) (stack_params : list loc)
    (method : callable) : prog (list loc) :=
  match dispatch method with
  | None => Raise (ValueError method)
  | Some (method, wait_operation, message) =>
      do_ try_except
            (for_each stack_params
               (deploy_body which method wait_operation message))
            (λ e, perform_ (LoggerError e));
      Ret stack_params
  end.

(** The body of the [for] loop of [delete_in_reverse_order]. *)
Definition delete_body (param : loc) : prog unit :=
  do name <- getitem param "StackName";
  do_ delete_stack name;
  do name <- getitem param "StackName";
  do_ perform_ (LoggerInfo name " is being deleted");
  do name <- getitem param "StackName";
  do_ wait_stack "stack_delete_complete" name None None;
  do_ perform_ (PopItem param "StackId");
  do name <- getitem param "StackName";
  perform_ (LoggerInfo name " is deleted").

Definition delete_in_reverse_order (stack_params : list loc) : prog (list loc) :=
  do_ try_except
        (for_each (reverse stack_params) delete_body)
        (λ e, perform_ (LoggerError e));
  Ret stack_params.

(** ** The provider

    The boto3 client and its waiters are outside the script. They are an
    oracle here: [W] is whatever the remote side remembers, and each call
    yields the next [W] and either an exception or a result.
    [client.create_stack] and [client.update_stack] receive the entries of
    the dictionary, unpacked as keyword arguments. *)
Record provider (W : Type) := Provider {
  client_create_stack : pydict → W → W * (exn + pydict);
  client_update_stack : pydict → W → W * (exn + pydict);
  client_delete_stack : value → W → W * (exn + unit);
  waiter_wait : string → value → Z → Z → W → W * (exn + unit);
}.

Arguments Provider {W}.
Arguments client_create_stack {W}.
Arguments client_update_stack {W}.
Arguments client_delete_stack {W}.
Arguments waiter_wait {W}.

(** A completed provider call: what was passed and what came back. *)
Inductive event :=
  | EvCreateStack (kwargs : pydict) (outcome : exn + pydict)
  | EvUpdateStack (kwargs : pydict) (outcome : exn + pydict)
  | EvDeleteStack (stack_name : value) (outcome : exn + unit)
  | EvWait (operation : string) (stack_name : value)
           (delay max_attempts : Z) (outcome : exn + unit).

(** What all threads share: the dictionaries, the remote side, the calls
    made so far (oldest first) and the log (oldest first). *)
Record state (W : Type) := State {
  heap : store;
  world : W;
  trace : list event;
  log : list log_record;
}.

Arguments State {W}.
Arguments heap {W}.
Arguments world {W}.
Arguments trace {W}.
Arguments log {W}.

Section Semantics.
Context {W : Type} (client : provider W).

(** The state with another store, and with one more log record. *)
Definition set_heap (h : store) (st : state W) : state W :=
  State h (world st) (trace st) (log st).

Definition emit (l : log_record) (st : state W) : state W :=
  State (heap st) (world st) (trace st) (log st ++ [l]).

(** A provider call: the remote side moves on and the call is recorded. *)
Definition called (w : W) (ev : event) (st : state W) : state W :=
  State (heap st) w (trace st ++ [ev]) (log st).

(** One action on the shared state. *)
Definition perform {X : Type} (a : action X) (st : state W) : state W * X :=
  match a in action X return state W * X with
  | GetItem param key =>
      (st, match (heap st !!! param) !! key with
           | Some v => inr v
           | None => inl (KeyError key)
           end)
  | SetItem param key v =>
      (set_heap (<[param := <[key := v]> (heap st !!! param)]> (heap st)) st, tt)
  | PopItem param key =>
      (set_heap (<[param := delete key (heap st !!! param)]> (heap st)) st, tt)
  | ClientCreateStack stack_param =>
      let kwargs := heap st !!! stack_param in
      let '(w, r) := client_create_stack client kwargs (world st) in
      (called w (EvCreateStack kwargs r) st, r)
  | ClientUpdateStack stack_param =>
      let kwargs := heap st !!! stack_param in
      let '(w, r) := client_update_stack client kwargs (world st) in
      (called w (EvUpdateStack kwargs r) st, r)
  | ClientDeleteStack stack_name =>
      let '(w, r) := client_delete_stack client stack_name (world st) in
      (called w (EvDeleteStack stack_name r) st, r)
  | WaiterWait operation stack_name delay max_attempts =>
      let '(w, r) :=
        waiter_wait client operation stack_name delay max_attempts (world st) in
      (called w (EvWait operation stack_name delay max_attempts r) st, r)
  | LoggerInfo subject text => (emit (INFO subject text) st, tt)
  | LoggerError e => (emit (ERROR e) st, tt)
  end.

(** Running a program to its end in one thread. *)
Fixpoint run {R : Type} (p : prog R) (st : state W) : state W * (exn + R) :=
  match p with
  | Ret r => (st, inr r)
  | Raise e => (st, inl e)
  | Vis a k => let '(st', x) := perform a st in run (k x) st'
  end.

End Semantics.

(** ** A provider for examples

    It accepts every stack whose name is not in [bad_calls], hands out
    ["arn:" +:+ name] as identifier, and its waiters succeed except for the
    names in [bad_waits]. The remote side counts the calls it has seen. *)
Definition name_in (name : option value) (names : list string) : bool :=
  match name with
  | Some (VStr s) => bool_decide (s ∈ names)
  | _ => true
  end.

Definition arn (name : option value) : value :=
  match name with
  | Some (VStr s) => VStr ("arn:" +:+ s)
  | _ => VStr "arn:"
  end.

Definition scripted_call (bad_calls : list string) (kwargs : pydict) (w : nat)
    : nat * (exn + pydict) :=
  (S w, if name_in (kwargs !! "StackName") bad_calls
        then inl (ClientError "rejected")
        else inr {[ "StackId" := arn (kwargs !! "StackName") ]}).

Definition scripted (bad_calls bad_waits : list string) : provider nat :=
  Provider
    (scripted_call bad_calls)
    (scripted_call bad_calls)
    (λ name w, (S w, if name_in (Some name) bad_calls
                     then inl (ClientError "rejected") else inr tt))
    (λ _ name _ _ w, (S w, if name_in (Some name) bad_waits
                           then inl (WaiterError "Waiter encountered a terminal failure state")
                           else inr tt)).

(** A dictionary of the shape [build_template_params] returns, for a
    template that needs no capabilities. *)
Definition stack (name : string) : pydict :=
  {[ "StackName" := VStr name;
     "TemplateBody" := VStr ("template of " +:+ name);
     "Parameters" := VParameters [("RepositoryName", name)] ]}.

(** The dictionaries [h], nothing called and nothing logged yet. *)
Definition initial (h : store) : state nat := State h 0 [] [].

(** ** The orchestrator's threads

    [deploy_parallel] and [delete_parallel] start one thread per sequence
    and then poll. A thread is its remaining program; it is alive while it
    still has an action to perform, and it ends by returning or by an
    exception nobody caught. Threads take turns in any order, one action at
    a time. *)
Definition is_alive {R : Type} (job : prog R) : bool :=
  match job with
  | Vis _ _ => true
  | _ => false
  end.

(** The condition of the [while] loop.
    - top-level copy: [filter(lambda job: job.is_alive(), jobs)], a filter
      object, which Python takes as true whatever it would yield;
    - [scripts/] copy: [list(filter(...))], true when the list is
      non-empty. *)
Definition loop_condition {R : Type} (which : script) (jobs : list (prog R)) : bool :=
  match which with
  | TopLevel => true
  | Scripts => bool_decide (filter (λ job, is_alive job = true) jobs ≠ [])
  end.

(** Where the calling thread is inside [deploy_parallel] or
    [delete_parallel]. *)
Inductive main_pc :=
  | Spawning (todo : list (list loc))
  | Polling
  | Sleeping
  | Returned (result : list (list loc)).

(** The caller, the threads it has started (in the order of [jobs]) and
    what they share. *)
Record config (W : Type) := Config {
  main : main_pc;
  jobs : list (prog (list loc));
  shared : state W;
}.

Arguments Config {W}.
Arguments main {W}.
Arguments jobs {W}.
Arguments shared {W}.

Section Threads.
Context {W : Type} (client : provider W).
Context (which : script).
(** What each thread runs on its sequence, and the argument of the
    orchestrator, which is also what it returns. *)
Context (target : list loc → prog (list loc)).
Context (stack_sequences : list (list loc)).

(** One step of one thread. The caller starts a thread for the next
    sequence ([step_start]), enters the loop when all are started
    ([step_started]), evaluates the loop condition and sleeps or returns
    ([step_sleep], [step_return]), wakes up ([step_wake]); a live thread
    performs its next action on the shared state ([step_job]). *)
Inductive step : config W → config W → Prop :=
  | step_start stacks todo js sh :
      step (Config (Spawning (stacks :: todo)) js sh)
           (Config (Spawning todo) (js ++ [target stacks]) sh)
  | step_started js sh :
      step (Config (Spawning []) js sh) (Config Polling js sh)
  | step_sleep js sh :
      loop_condition which js = true →
      step (Config Polling js sh) (Config Sleeping js sh)
  | step_return js sh :
      loop_condition which js = false →
      step (Config Polling js sh) (Config (Returned stack_sequences) js sh)
  | step_wake js sh :
      step (Config Sleeping js sh) (Config Polling js sh)
  | step_job pc js sh i X (a : action X) k sh' x :
      js !! i = Some (Vis a k) →
      perform client a sh = (sh', x) →
      step (Config pc js sh) (Config pc (<[i := k x]> js) sh').

(** The call of the orchestrator: no thread yet. *)
Definition start (st : state W) : config W :=
  Config (Spawning stack_sequences) [] st.

(** The configurations an execution can pass through. *)
Definition reachable (st : state W) (c : config W) : Prop :=
  rtc step (start st) c.

End Threads.

(** [deploy_parallel(stack_sequences, method)] called in state [st]: the
    configurations its execution can pass through. It has returned [result]
    in a configuration whose [main] is [Returned result]. *)
Definition deploy_parallel {W : Type} (client : provider W) (which : script)
    (stack_sequences : list (list loc)) (method : callable)
    (st : state W) (c : config W) : Prop :=
  reachable client which (λ stacks, deploy_in_order which stacks method)
    stack_sequences st c.

(** [delete_parallel(stack_sequences)], likewise. *)
Definition delete_parallel {W : Type} (client : provider W) (which : script)
    (stack_sequences : list (list loc)) (st : state W) (c : config W) : Prop :=
  reachable client which delete_in_reverse_order stack_sequences st c.

(** ** The rest of the script: building, describing, asking

    [build_template_params] makes the dictionaries the runners work on,
    [describe_sequence] and [check_user_admission] (under [scripts/] only)
    show them to the user and ask before anything is deployed. They run
    in the main thread before the orchestrator is called, and they raise
    more than the runners do. *)
Inductive exception :=
  | Exn (e : exn)
  | OSError (path : string)
  | ValueErrorOf (message : string)
  | UnicodeDecodeError
  | TypeError
  | EOFError
  | SystemExit (status : Z).

(** What the builder reads. [read_text] is [open(path, "r")] followed by
    [f.read()]: it gives the text of the file or the exception raised on
    the way, [OSError] for a file that cannot be opened or read,
    [ValueError] for a path with a null character, [UnicodeDecodeError]
    for a file that is no text in the default encoding.
    [client_validate_template] is
    [client.validate_template(TemplateBody=template_body)], which gives a
    response or raises. *)
Record environment := Environment {
  read_text : string → exception + string;
  client_validate_template : string → exn + pydict;
}.

(** Whatever reading raises, [get_template_body] lets through. *)
Definition get_template_body (env : environment) (path : string)
    : exception + string :=
  match read_text env path with
  | inr body => inr body
  | inl e => inl e
  end.

(** What [get_capabilities] returns: [response.get("Capabilities")] in the
    top-level copy, which is [None] without the key, and
    [response.get("Capabilities", [])] under [scripts/]. *)
Definition capabilities (which : script) : Type :=
  match which with
  | TopLevel => option value
  | Scripts => value
  end.

Definition get_capabilities (which : script) (env : environment)
    (template_body : string) : exception + capabilities which :=
  match client_validate_template env template_body with
  | inl e => inl (Exn e)
  | inr response =>
      inr (match which return capabilities which with
           | TopLevel => response !! "Capabilities"
           | Scripts => default (VStrList []) (response !! "Capabilities")
           end)
  end.

(** The truth value Python gives a value: an empty string or list is
    false. *)
Definition truthy (v : value) : bool :=
  match v with
  | VStr s => bool_decide (s ≠ "")
  | VStrList l => bool_decide (l ≠ [])
  | VParameters l => bool_decide (l ≠ [])
  end.

(** [parameters] is a dictionary of strings, read in the order of
    [parameters.items()]. The top-level copy sets ["Capabilities"] under
    [if capabilities := get_capabilities(template_body)], the copy under
    [scripts/] sets it always. *)
Definition build_template_params (which : script) (env : environment)
    (stack_name template_path : string) (parameters : list (string * string))
    : exception + pydict :=
  match get_template_body env template_path with
  | inl e => inl e
  | inr template_body =>
      let param : pydict :=
        {[ "StackName" := VStr stack_name;
           "TemplateBody" := VStr template_body;
           "Parameters" := VParameters parameters ]} in
      match get_capabilities which env template_body with
      | inl e => inl e
      | inr got =>
          inr (match which return capabilities which → pydict with
               | TopLevel => λ got,
                   match got with
                   | Some capabilities =>
                       if truthy capabilities
                       then <["Capabilities" := capabilities]> param
                       else param
                   | None => param
                   end
               | Scripts => λ capabilities,
                   <["Capabilities" := capabilities]> param
               end got)
      end
  end.

(** *** The console *)

(** The attributes of [colorama.Fore] and [colorama.Style] the script
    uses. *)
Inductive colorama :=
  | Fore_WHITE
  | Fore_LIGHTGREEN_EX
  | Fore_LIGHTBLACK_EX
  | Fore_RESET
  | Style_BRIGHT
  | Style_RESET_ALL.

(** The pieces of a formatted string: a colour code, literal text, a number
    and a value as [str] renders it. *)
Inductive piece :=
  | Code (c : colorama)
  | Text (s : string)
  | Num (n : nat)
  | Shown (v : value).

(** What goes to standard output: what one call of [print] writes (a
    newline follows it; the text itself may hold more), or the prompt of
    [input]. *)
Inductive output :=
  | Printed (line : list piece)
  | Prompted (prompt : string).

Definition tab : string := String (Ascii.ascii_of_nat 9) "".
Definition newline_tab : string := String (Ascii.ascii_of_nat 10) tab.

(** [stack[key]] in [describe_sequence]. *)
Definition subscript (stack : pydict) (key : string) : exception + value :=
  match stack !! key with
  | Some v => inr v
  | None => inl (Exn (KeyError key))
  end.

(** One entry of [stack_infos]: the values under ["StackName"],
    ["Capabilities"] and ["Parameters"], looked up in this order. *)
Definition stack_info (stack : pydict) : exception + (value * value * value) :=
  match subscript stack "StackName" with
  | inl e => inl e
  | inr name =>
      match subscript stack "Capabilities" with
      | inl e => inl e
      | inr capabilities =>
          match subscript stack "Parameters" with
          | inl e => inl e
          | inr parameters => inr (name, capabilities, parameters)
          end
      end
  end.

(** [[{...} for stack in stacks]] *)
Fixpoint stack_infos (h : store) (stacks : list loc)
    : exception + list (value * value * value) :=
  match stacks with
  | [] => inr []
  | stack :: stacks' =>
      match stack_info (h !!! stack) with
      | inl e => inl e
      | inr info =>
          match stack_infos h stacks' with
          | inl e => inl e
          | inr infos => inr (info :: infos)
          end
      end
  end.

(** The first line of a stack: the name alone when the capabilities are
    true, the name and the capabilities otherwise. *)
Definition name_line (name capabilities : value) : list piece :=
  if truthy capabilities
  then [Code Fore_LIGHTGREEN_EX; Shown name]
  else [Code Fore_LIGHTGREEN_EX; Code Style_BRIGHT; Shown name; Text tab;
        Shown capabilities; Code Style_RESET_ALL].

(** [[f"..." for param in info["Parameters"]]]: an element of a list of
    parameters is a dictionary with both keys; an element of a string or
    of a list of strings is a string, and its subscript by a string raises
    [TypeError]. *)
Definition parameter_texts (parameters : value) : exception + list (list piece) :=
  match parameters with
  | VParameters l =>
      inr ((λ param : string * string,
              [Code Fore_LIGHTBLACK_EX; Text param.1; Text ": ";
               Code Fore_WHITE; Code Style_BRIGHT; Text param.2;
               Code Style_RESET_ALL]) <$> l)
  | VStr s => if decide (s = "") then inr [] else inl TypeError
  | VStrList l => if decide (l = []) then inr [] else inl TypeError
  end.

(** [sep.join(texts)] *)
Fixpoint join (sep : string) (texts : list (list piece)) : list piece :=
  match texts with
  | [] => []
  | [text] => text
  | text :: texts' => text ++ Text sep :: join sep texts'
  end.

(** The loop over [stack_infos]: what it prints, and how it ends. *)
Fixpoint print_infos (infos : list (value * value * value))
    : list output * (exception + unit) :=
  match infos with
  | [] => ([], inr tt)
  | (name, capabilities, parameters) :: infos' =>
      let first := Printed (name_line name capabilities) in
      match parameter_texts parameters with
      | inl e => ([first], inl e)
      | inr texts =>
          let second := Printed (Text tab :: join newline_tab texts) in
          let '(out, r) := print_infos infos' in
          (first :: second :: out, r)
      end
  end.

(** The loop over [enumerate(stack_sequences, start=num)]. *)
Fixpoint describe_from (h : store) (num : nat) (stack_sequences : list (list loc))
    : list output * (exception + unit) :=
  match stack_sequences with
  | [] => ([], inr tt)
  | stacks :: rest =>
      match stack_infos h stacks with
      | inl e => ([], inl e)
      | inr infos =>
          let header :=
            Printed [Code Fore_WHITE; Text "===== Stack sequence "; Num num;
                     Text " ====="] in
          match print_infos infos with
          | (out, inl e) => (header :: out, inl e)
          | (out, inr _) =>
              let footer := Printed [Code Fore_RESET; Code Style_RESET_ALL] in
              let '(out', r) := describe_from h (S num) rest in
              (header :: out ++ footer :: out', r)
          end
      end
  end.

Definition describe_sequence (h : store) (stack_sequences : list (list loc))
    : list output * (exception + unit) :=
  describe_from h 1 stack_sequences.

(** [str.lower] on the letters A to Z. No other character becomes [y] or
    [n], which is all the script compares the result with. *)
Definition lower_char (c : Ascii.ascii) : Ascii.ascii :=
  let n := Ascii.nat_of_ascii c in
  if (65 <=? n) && (n <=? 90) then Ascii.ascii_of_nat (n + 32) else c.

Fixpoint lower (s : string) : string :=
  match s with
  | EmptyString => EmptyString
  | String c s' => String (lower_char c) (lower s')
  end.

(** The lines the user will enter, and what has been written. *)
Record console := Console {
  stdin : list string;
  stdout : list output;
}.

Definition print (line : string) (io : console) : console :=
  Console (stdin io) (stdout io ++ [Printed [Text line]]).

(** [input(prompt)]: the prompt is written, and the next line is read;
    [None] is [EOFError], at the end of the input. *)
Definition input (prompt : string) (io : console) : console * option string :=
  let io' := Console (tail (stdin io)) (stdout io ++ [Prompted prompt]) in
  (io', head (stdin io)).

(** After the loop of [check_user_admission]. *)
Definition cancelled (io : console) : console * (exception + unit) :=
  (print "Cancelled" io, inl (SystemExit 0)).

(** [while retry < 2: ...], for at most [fuel] rounds; [None] when they do
    not suffice. *)
Fixpoint admission_loop (fuel retry : nat) (io : console)
    : option (console * (exception + unit)) :=
  if decide (retry < 2) then
    match fuel with
    | 0 => None
    | S fuel' =>
        let '(io, answer) := input "Coninue with those stacks? (y / N): " io in
        match answer with
        | None => Some (io, inl EOFError)
        | Some answer =>
            let admission := lower answer in
            if decide (admission = "n") then Some (cancelled io)
            else if decide (admission = "y") then Some (io, inr tt)
            else admission_loop fuel' (retry + 1)
                   (print "Please enter 'y' or 'n'" io)
        end
    end
  else Some (cancelled io).

Definition check_user_admission (fuel : nat) (io : console)
    : option (console * (exception + unit)) :=
  admission_loop fuel 0 io.

(** * Vocabulary of the properties *)

(** ** One iteration, step by step *)

Section Iterations.
Context {W : Type} (client : provider W).

(** [param["StackId"] = stack_id] *)
Definition store_id (param : loc) (stack_id : value) (st : state W) : state W :=
  set_heap (<[param := <["StackId" := stack_id]> (heap st !!! param)]> (heap st)) st.

(** [param.pop("StackId", None)] *)
Definition pop_id (param : loc) (st : state W) : state W :=
  set_heap (<[param := delete "StackId" (heap st !!! param)]> (heap st)) st.

(** The ways one iteration of the forward loop can go: the call raises; the
    response has no [StackId]; the dictionary has no [StackName]; the wait
    raises; everything succeeds. *)
Inductive deploy_body_run (which : script) (method : loc → prog pydict)
    (wait_operation message : string) (param : loc) (st : state W)
    : state W → exn + unit → Prop :=
  | deploy_call_raises st1 e :
      run client (method param) st = (st1, inl e) →
      deploy_body_run which method wait_operation message param st st1 (inl e)
  | deploy_no_stack_id st1 response :
      run client (method param) st = (st1, inr response) →
      response !! "StackId" = None →
      deploy_body_run which method wait_operation message param st
        st1 (inl (KeyError "StackId"))
  | deploy_no_stack_name st1 response stack_id :
      run client (method param) st = (st1, inr response) →
      response !! "StackId" = Some stack_id →
      (heap st1 !!! param) !! "StackName" = None →
      deploy_body_run which method wait_operation message param st
        (store_id param stack_id st1) (inl (KeyError "StackName"))
  | deploy_wait_raises st1 response stack_id name st2 w e :
      run client (method param) st = (st1, inr response) →
      response !! "StackId" = Some stack_id →
      (heap st1 !!! param) !! "StackName" = Some name →
      st2 = emit (INFO name (" is being " +:+ message)) (store_id param stack_id st1) →
      waiter_wait client wait_operation name 5 120 (world st2) = (w, inl e) →
      deploy_body_run which method wait_operation message param st
        (called w (EvWait wait_operation name 5 120 (inl e)) st2) (inl e)
  | deploy_completes st1 response stack_id name st2 w :
      run client (method param) st = (st1, inr response) →
      response !! "StackId" = Some stack_id →
      (heap st1 !!! param) !! "StackName" = Some name →
      st2 = emit (INFO name (" is being " +:+ message)) (store_id param stack_id st1) →
      waiter_wait client wait_operation name 5 120 (world st2) = (w, inr tt) →
      deploy_body_run which method wait_operation message param st
        (emit (INFO name (done_text which message))
           (called w (EvWait wait_operation name 5 120 (inr tt)) st2))
        (inr tt).

(** The ways one iteration of the teardown loop can go: the dictionary has
    no [StackName]; the delete call raises; the wait raises; everything
    succeeds. *)
Inductive delete_body_run (param : loc) (st : state W)
    : state W → exn + unit → Prop :=
  | delete_no_stack_name :
      (heap st !!! param) !! "StackName" = None →
      delete_body_run param st st (inl (KeyError "StackName"))
  | delete_call_raises name w e :
      (heap st !!! param) !! "StackName" = Some name →
      client_delete_stack client name (world st) = (w, inl e) →
      delete_body_run param st (called w (EvDeleteStack name (inl e)) st) (inl e)
  | delete_wait_raises name w st1 w' e :
      (heap st !!! param) !! "StackName" = Some name →
      client_delete_stack client name (world st) = (w, inr tt) →
      st1 = emit (INFO name " is being deleted")
              (called w (EvDeleteStack name (inr tt)) st) →
      waiter_wait client "stack_delete_complete" name 5 120 w = (w', inl e) →
      delete_body_run param st
        (called w' (EvWait "stack_delete_complete" name 5 120 (inl e)) st1) (inl e)
  | delete_completes name w st1 w' :
      (heap st !!! param) !! "StackName" = Some name →
      client_delete_stack client name (world st) = (w, inr tt) →
      st1 = emit (INFO name " is being deleted")
              (called w (EvDeleteStack name (inr tt)) st) →
      waiter_wait client "stack_delete_complete" name 5 120 w = (w', inr tt) →
      delete_body_run param st
        (emit (INFO name " is deleted")
           (pop_id param
              (called w' (EvWait "stack_delete_complete" name 5 120 (inr tt)) st1)))
        (inr tt).

(** The client function behind a valid [method]. *)
Definition provider_call (method : callable) : pydict → W → W * (exn + pydict) :=
  match method with
  | update_stack_fn => client_update_stack client
  | _ => client_create_stack client
  end.

(** The event a call through a valid [method] leaves in the trace. *)
Definition call_event (method : callable) (kwargs : pydict)
    (outcome : exn + pydict) : event :=
  match method with
  | update_stack_fn => EvUpdateStack kwargs outcome
  | _ => EvCreateStack kwargs outcome
  end.

(** The call, or the loop, ended without an exception. *)
Definition returned {A : Type} (outcome : exn + A) : Prop :=
  match outcome with
  | inr _ => True
  | inl _ => False
  end.

(** The [for] loop of the forward runner ends without an exception. *)
Definition deploy_runs_to_end (which : script) (stack_params : list loc)
    (method : callable) (st : state W) : Prop :=
  match dispatch method with
  | Some (f, wait_operation, message) =>
      returned (run client
                  (for_each stack_params
                     (deploy_body which f wait_operation message)) st).2
  | None => False
  end.

(** The [for] loop of the teardown runner ends without an exception. *)
Definition delete_runs_to_end (stack_params : list loc) (st : state W) : Prop :=
  returned (run client (for_each (reverse stack_params) delete_body) st).2.

End Iterations.

(** ** Calls and their order *)

(** The event is a wait. *)
Definition is_wait (ev : event) : Prop :=
  match ev with
  | EvWait _ _ _ _ _ => True
  | _ => False
  end.

#[global] Instance is_wait_dec ev : Decision (is_wait ev).
Proof. destruct ev; cbn; apply _. Defined.

(** A provider call without its outcome: which call, and for which stack
    name (for create and update, the [StackName] among the keyword
    arguments, if any). *)
Inductive call_kind :=
  | KCreate
  | KUpdate
  | KDelete
  | KWait (operation : string) (delay max_attempts : Z).

#[global] Instance call_kind_eq_dec : EqDecision call_kind.
Proof. solve_decision. Defined.

Definition event_call (ev : event) : call_kind * option value :=
  match ev with
  | EvCreateStack kwargs _ => (KCreate, kwargs !! "StackName")
  | EvUpdateStack kwargs _ => (KUpdate, kwargs !! "StackName")
  | EvDeleteStack name _ => (KDelete, Some name)
  | EvWait operation name delay max_attempts _ =>
      (KWait operation delay max_attempts, Some name)
  end.

(** The call returned. *)
Definition succeeded (ev : event) : Prop :=
  match ev with
  | EvCreateStack _ outcome | EvUpdateStack _ outcome => returned outcome
  | EvDeleteStack _ outcome | EvWait _ _ _ _ outcome => returned outcome
  end.

(** Every call but the last one made has succeeded. *)
Definition orderly (evs : list event) : Prop :=
  ∀ i ev, evs !! i = Some ev → S i < length evs → succeeded ev.

(** [evs] are the calls of a loop that was to make the calls [expected] and
    ended with [res]: a prefix of them in the same order, each made after
    the one before it had succeeded, and all of them if the loop ran to its
    end. *)
Definition follows (expected : list (call_kind * option value))
    (evs : list event) (res : exn + unit) : Prop :=
  event_call <$> evs `prefix_of` expected
  ∧ orderly evs
  ∧ (returned res → event_call <$> evs = expected ∧ Forall succeeded evs).

(** The [StackName] of a dictionary, if it has one. *)
Definition stack_name {W : Type} (st : state W) (param : loc) : option value :=
  (heap st !!! param) !! "StackName".

Definition kind_of (method : callable) : call_kind :=
  match method with
  | update_stack_fn => KUpdate
  | _ => KCreate
  end.

(** The waiter that goes with each action. *)
Definition waiter_name (method : callable) : string :=
  match method with
  | update_stack_fn => "stack_update_complete"
  | delete_stack_fn => "stack_delete_complete"
  | _ => "stack_create_complete"
  end.

(** The calls of one iteration of the forward loop: the client call,
    then the wait, both for the stack name of the dictionary. *)
Definition deploy_calls {W : Type} (method : callable) (wait_operation : string)
    (st : state W) (param : loc) : list (call_kind * option value) :=
  [(kind_of method, stack_name st param);
   (KWait wait_operation 5 120, stack_name st param)].

(** The calls of one iteration of the teardown loop. *)
Definition delete_calls {W : Type} (st : state W) (param : loc)
    : list (call_kind * option value) :=
  [(KDelete, stack_name st param);
   (KWait "stack_delete_complete" 5 120, stack_name st param)].

(** The calls of a forward run in which nothing fails: for each
    dictionary in turn, the client call and then the wait. *)
Definition forward_calls {W : Type} (method : callable) (st : state W)
    (stack_params : list loc) : list (call_kind * option value) :=
  flat_map (deploy_calls method (waiter_name method) st) stack_params.

(** The calls of a teardown in which nothing fails: the same for the
    dictionaries taken from the last to the first. *)
Definition teardown_calls {W : Type} (st : state W) (stack_params : list loc)
    : list (call_kind * option value) :=
  flat_map (delete_calls st) (reverse stack_params).

(** Stack names handed to [client.delete_stack], in call order. *)
Definition deleted_names (calls : list (call_kind * option value))
    : list (option value) :=
  (filter (λ c, c.1 = KDelete) calls).*2.

(** Every wait among [evs] is for [operation], polls every 5 and gives up
    after 120 attempts. *)
Definition waits_are (operation : string) (evs : list event) : Prop :=
  ∀ op name delay max_attempts outcome,
    EvWait op name delay max_attempts outcome ∈ evs →
    op = operation ∧ delay = 5%Z ∧ max_attempts = 120%Z.

(** ** Programs and threads *)

(** Every action a program can come to perform satisfies [Q]. *)
Fixpoint all_actions (Q : ∀ X, action X → Prop) {R : Type} (p : prog R) : Prop :=
  match p with
  | Ret _ | Raise _ => True
  | Vis a k => Q _ a ∧ ∀ x, all_actions Q (k x)
  end.

(** No path through the program ends in an uncaught exception. *)
Fixpoint never_raises {R : Type} (p : prog R) : Prop :=
  match p with
  | Ret _ => True
  | Raise _ => False
  | Vis a k => ∀ x, never_raises (k x)
  end.

(** The action writes or removes no entry other than [StackId]. *)
Definition writes_stack_id_only (X : Type) (a : action X) : Prop :=
  match a with
  | SetItem _ key _ | PopItem _ key => key = "StackId"
  | _ => True
  end.

(** The program of a thread that has ended with [outcome]. *)
Definition ended {R : Type} (outcome : exn + R) : prog R :=
  match outcome with
  | inl e => Raise e
  | inr r => Ret r
  end.

(** With the loop condition of the copy under [scripts/]: where the
    caller is, how many threads there are, and that a return means all of
    them have ended. *)
Definition join_invariant {W : Type} (stack_sequences : list (list loc))
    (c : config W) : Prop :=
  match main c with
  | Spawning todo => (length (jobs c) + length todo = length stack_sequences)%nat
  | Polling | Sleeping => length (jobs c) = length stack_sequences
  | Returned result =>
      result = stack_sequences
      ∧ length (jobs c) = length stack_sequences
      ∧ Forall (λ job, is_alive job = false) (jobs c)
  end.

(** ** Life cycle of the remote identifier *)

#[global] Instance value_eq_dec : EqDecision value.
Proof. solve_decision. Defined.

(** A value Python takes as non-empty. *)
Definition nonempty (v : value) : Prop :=
  match v with
  | VStr s => s ≠ ""
  | VStrList l => l ≠ []
  | VParameters l => l ≠ []
  end.

(** What a completed provider call means for the stack it names: a create
    or update call that returned makes the stack exist ([true]); a wait for
    [stack_delete_complete] that returned makes it gone ([false]). Calls
    that raised, and the other waits, mean nothing here. *)
Definition lifecycle (ev : event) : option (option value * bool) :=
  match ev with
  | EvCreateStack kwargs (inr _) | EvUpdateStack kwargs (inr _) =>
      Some (kwargs !! "StackName", true)
  | EvWait operation name _ _ (inr _) =>
      if decide (operation = "stack_delete_complete")
      then Some (Some name, false) else None
  | _ => None
  end.

(** What is known of the stack [name] after one more event. *)
Definition note (name : value) (acc : option bool) (ev : event) : option bool :=
  match lifecycle ev with
  | Some (Some n, b) => if decide (n = name) then Some b else acc
  | _ => acc
  end.

(** The last thing the trace says about the stack [name]: [Some true]
    when the last completed create or update has no completed delete after
    it. *)
Definition last_completed (name : value) (tr : list event) : option bool :=
  fold_left (note name) tr None.

(** The contract of the provider: a create or update call that returns
    hands back a non-empty [StackId]. *)
Definition hands_out_ids {W : Type} (client : provider W) : Prop :=
  ∀ method kwargs w w' response,
    provider_call client method kwargs w = (w', inr response) →
    ∃ stack_id, response !! "StackId" = Some stack_id ∧ nonempty stack_id.

(** No two dictionaries carry the same stack name. *)
Definition unique_names {W : Type} (st : state W) : Prop :=
  ∀ p1 p2 name,
    stack_name st p1 = Some name → stack_name st p2 = Some name → p1 = p2.

(** A named dictionary has a [StackId] exactly when the last completed
    create or update of its stack has not been followed by a completed
    delete. *)
Definition lifecycle_invariant {W : Type} (st : state W) : Prop :=
  ∀ param name,
    stack_name st param = Some name →
    is_Some ((heap st !!! param) !! "StackId")
    ↔ last_completed name (trace st) = Some true.

Definition well_tracked {W : Type} (st : state W) : Prop :=
  unique_names st ∧ lifecycle_invariant st.

(** The dictionary has a non-empty [StackId]. *)
Definition has_id {W : Type} (st : state W) (param : loc) : Prop :=
  ∃ stack_id, (heap st !!! param) !! "StackId" = Some stack_id ∧ nonempty stack_id.

(** ** Log records and call counts *)

(** The record is a progress message. *)
Definition is_info (l : log_record) : Prop :=
  match l with
  | INFO _ _ => True
  | ERROR _ => False
  end.

(** [after] is [before] followed by the progress messages of a loop over
    [k] items that ended with [res]: two messages per item when it ran to
    its end, fewer otherwise. *)
Definition logs_progress (k : nat) (before after : list log_record)
    (res : exn + unit) : Prop :=
  ∃ infos,
    after = before ++ infos ∧ Forall is_info infos
    ∧ (returned res → length infos = 2 * k)
    ∧ (¬ returned res → length infos < 2 * k).

(** The message of each action, as the forward runner words it. *)
Definition message_of (method : callable) : string :=
  match method with
  | update_stack_fn => "updated"
  | _ => "created"
  end.

(** The two progress messages of the copy under [scripts/] for one
    dictionary. *)
Definition scripts_progress {W : Type} (method : callable) (st : state W)
    (param : loc) : list log_record :=
  match stack_name st param with
  | Some name =>
      [INFO name (" is being " +:+ message_of method);
       INFO name (" is " +:+ message_of method)]
  | None => []
  end.

(** ** Threads: where they write and how long they run *)

(** The action writes to or removes from no dictionary outside [L]. *)
Definition writes_within (L : list loc) (X : Type) (a : action X) : Prop :=
  match a with
  | SetItem param _ _ | PopItem param _ => param ∈ L
  | _ => True
  end.

(** The action is a call of the provider: a client call or a wait. *)
Definition is_call {X : Type} (a : action X) : bool :=
  match a with
  | ClientCreateStack _ | ClientUpdateStack _ | ClientDeleteStack _
  | WaiterWait _ _ _ _ => true
  | _ => false
  end.

(** Whatever its actions yield, the program calls the provider at most
    [n] times. *)
Fixpoint calls_within {R : Type} (p : prog R) (n : nat) {struct p} : Prop :=
  match p with
  | Ret _ | Raise _ => True
  | Vis a k =>
      if is_call a then
        match n with
        | 0 => False
        | S n' => ∀ x, calls_within (k x) n'
        end
      else ∀ x, calls_within (k x) n
  end.

(** The sequences the caller has not started a thread for yet. *)
Definition todo_of (pc : main_pc) : list (list loc) :=
  match pc with
  | Spawning todo => todo
  | _ => []
  end.

(** The calls still possible in a configuration are within [budget]:
    each thread has a bound of its own, and the caller will start threads
    with two calls per stack of the sequences it has not come to yet. *)
Definition calls_left {W : Type} (c : config W) (budget : nat) : Prop :=
  ∃ bounds,
    Forall2 calls_within (jobs c) bounds
    ∧ sum_list bounds + 2 * length (mjoin (todo_of (main c))) ≤ budget.

(** The join of an orchestrator is exact when it returns its argument and
    only with a thread started for every sequence and all threads ended;
    when a poll that finds all threads ended can only return; and when,
    wherever the execution is, the return can still be reached. [called]
    gives the configurations of the call, [target] is what its threads
    run. *)
Definition exact_join {W : Type} (client : provider W)
    (stack_sequences : list (list loc)) (target : list loc → prog (list loc))
    (called : config W → Prop) : Prop :=
  (∀ c result,
     called c → main c = Returned result →
     result = stack_sequences
     ∧ length (jobs c) = length stack_sequences
     ∧ Forall (λ job, is_alive job = false) (jobs c))
  ∧ (∀ c c',
       called c → main c = Polling →
       Forall (λ job, is_alive job = false) (jobs c) →
       step client Scripts target stack_sequences c c' →
       c' = Config (Returned stack_sequences) (jobs c) (shared c))
  ∧ (∀ c, called c →
       ∃ c', rtc (step client Scripts target stack_sequences) c c'
             ∧ main c' = Returned stack_sequences).

(** ** Answers of the user *)

Definition is_yes (answer : string) : bool :=
  bool_decide (answer = "y" ∨ answer = "Y").

Definition is_no (answer : string) : bool :=
  bool_decide (answer = "n" ∨ answer = "N").

(** The answers with which [check_user_admission] lets the script go on:
    a yes, or something that is neither yes nor no and then a yes. *)
Definition goes_on (answers : list string) : bool :=
  match answers with
  | first :: rest =>
      is_yes first
      || (negb (is_no first)
          && match rest with
             | second :: _ => is_yes second
             | [] => false
             end)
  | [] => false
  end.

(** The answers that end before [check_user_admission] has what it waits
    for: none at all, or a single one that is neither yes nor no. *)
Definition runs_out (answers : list string) : bool :=
  match answers with
  | [] => true
  | [first] => negb (is_yes first) && negb (is_no first)
  | _ => false
  end.

(** ** Dictionaries as [describe_sequence] wants them *)

(** The dictionary has the three keys [describe_sequence] reads, with a
    list of parameters under ["Parameters"]. *)
Definition describable (stack : pydict) : Prop :=
  is_Some (stack !! "StackName")
  ∧ is_Some (stack !! "Capabilities")
  ∧ ∃ l, stack !! "Parameters" = Some (VParameters l).

(** Two dictionaries that [describe_sequence] cannot tell apart unless it
    shows capabilities that are true: the same name and parameters, and
    capabilities that are equal or both true. *)
Definition same_but_capabilities (stack1 stack2 : pydict) : Prop :=
  stack1 !! "StackName" = stack2 !! "StackName"
  ∧ stack1 !! "Parameters" = stack2 !! "Parameters"
  ∧ (stack1 !! "Capabilities" = stack2 !! "Capabilities"
     ∨ ∃ c1 c2, stack1 !! "Capabilities" = Some c1
               ∧ stack2 !! "Capabilities" = Some c2
               ∧ truthy c1 = true ∧ truthy c2 = true).

(** Two entries of [stack_infos] that differ at most in capabilities that
    are both true. *)
Definition alike (info1 info2 : value * value * value) : Prop :=
  info1.1.1 = info2.1.1 ∧ info1.2 = info2.2
  ∧ (info1.1.2 = info2.1.2
     ∨ (truthy info1.1.2 = true ∧ truthy info2.1.2 = true)).

(** The three keys [describe_sequence] reads. *)
Definition described_keys : list string :=
  ["StackName"; "Capabilities"; "Parameters"].

(** ** Data of the examples *)

(** Two stacks of one application. *)
Definition two_stacks : store :=
  {[ 1 := stack "git-A"; 2 := stack "build-A" ]}.

(** Three stacks of one application. *)
Definition three_stacks : store :=
  {[ 1 := stack "git-A"; 2 := stack "build-A"; 3 := stack "pipeline-A" ]}.

(** The provider rejects the build stack: the state after the first
    iteration, and after the second. *)
Definition after_git : state nat :=
  (run (scripted ["build-A"] [])
     (for_each [1] (deploy_body TopLevel create_stack "stack_create_complete" "created"))
     (initial three_stacks)).1.

Definition after_build : state nat :=
  (run (scripted ["build-A"] [])
     (deploy_body TopLevel create_stack "stack_create_complete" "created" 2)
     after_git).1.

(** ** More data of the examples *)

(** Every template can be read; the template ["roles"] needs a
    capability, the others need none, and the response says nothing about
    capabilities then. *)
Definition templates : environment :=
  Environment
    (λ path, inr ("template at " +:+ path))
    (λ body, inr (if decide (body = "template at roles")
                  then {[ "Capabilities" := VStrList ["CAPABILITY_IAM"] ]}
                  else ∅)).

(** No template can be read: the files are not there, or they are no
    text. *)
Definition no_templates : environment :=
  Environment
    (λ path, if decide (path = "binary")
             then inl UnicodeDecodeError else inl (OSError path))
    (λ _, inr ∅).

(** Two dictionaries as the copy under [scripts/] builds them from
    [templates], and a third one as the top-level copy does. *)
Definition built_stacks : store :=
  {[ 1 := <["Capabilities" := VStrList []]>
            {[ "StackName" := VStr "git-A";
               "TemplateBody" := VStr "template at repository";
               "Parameters" := VParameters [("RepositoryName", "A")] ]};
     2 := <["Capabilities" := VStrList ["CAPABILITY_IAM"]]>
            {[ "StackName" := VStr "build-A";
               "TemplateBody" := VStr "template at roles";
               "Parameters" := VParameters [("ProjectName", "A"); ("Branch", "main")] ]};
     3 := {[ "StackName" := VStr "pipeline-A";
             "TemplateBody" := VStr "template at pipeline";
             "Parameters" := VParameters [] ]} ]}.

(** The same with another capability for the second one. *)
Definition built_stacks' : store :=
  <[2 := <["Capabilities" := VStrList ["CAPABILITY_NAMED_IAM"]]>
           (built_stacks !!! 2)]> built_stacks.

(** A provider that accepts every call and answers every create or update
    with [response]. *)
Definition lenient (response : pydict) : provider nat :=
  Provider
    (λ _ w, (S w, inr response))
    (λ _ w, (S w, inr response))
    (λ _ w, (S w, inr tt))
    (λ _ _ _ _ w, (S w, inr tt)).

(** A dictionary without [StackName] behind a well-formed one. *)
Definition nameless_stacks : store :=
  {[ 1 := stack "git-A"; 2 := {[ "TemplateBody" := VStr "template" ]} ]}.

(** * Properties *)

(** ** The interpreter and the program combinators *)

Section RunLemmas.
Context {W : Type} (client : provider W).

Lemma run_bind {A B : Type} (p : prog A) (f : A → prog B) (st : state W) :
  run client (bind p f) st =
    match run client p st with
    | (st', inr a) => run client (f a) st'
    | (st', inl e) => (st', inl e)
    end.
Proof.
  revert st. induction p as [a | e | X a k IH]; intros st; simpl; try done.
  destruct (perform client a st) as [st' x]. apply IH.
Qed.

Lemma run_try_except {A : Type} (p : prog A) (h : exn → prog A) (st : state W) :
  run client (try_except p h) st =
    match run client p st with
    | (st', inr a) => (st', inr a)
    | (st', inl e) => run client (h e) st'
    end.
Proof.
  revert st. induction p as [a | e | X a k IH]; intros st; simpl; try done.
  destruct (perform client a st) as [st' x]. apply IH.
Qed.

Lemma run_for_each_cons {A : Type} (body : A → prog unit) x xs (st : state W) :
  run client (for_each (x :: xs) body) st =
    match run client (body x) st with
    | (st', inr _) => run client (for_each xs body) st'
    | (st', inl e) => (st', inl e)
    end.
Proof. simpl. apply run_bind. Qed.

Lemma run_for_each_app {A : Type} (body : A → prog unit) xs ys (st : state W) :
  run client (for_each (xs ++ ys) body) st =
    match run client (for_each xs body) st with
    | (st', inr _) => run client (for_each ys body) st'
    | (st', inl e) => (st', inl e)
    end.
Proof.
  revert st. induction xs as [| x xs IH]; intros st; [done |].
  rewrite <- app_comm_cons, !run_for_each_cons.
  destruct (run client (body x) st) as [st' [e | []]]; [done | apply IH].
Qed.

(** The loop with its handler: what [try: for ...: body except Exception
    as e: logger.error(e)] leaves behind. *)
Lemma run_guarded_loop {A : Type} (body : A → prog unit) xs (st : state W) :
  run client (try_except (for_each xs body) (λ e, perform_ (LoggerError e))) st =
    match run client (for_each xs body) st with
    | (st', inr _) => (st', inr tt)
    | (st', inl e) => (emit (ERROR e) st', inr tt)
    end.
Proof.
  rewrite run_try_except.
  by destruct (run client (for_each xs body) st) as [st' [e | []]].
Qed.

End RunLemmas.

(** ** The primitive programs *)

Section Primitives.
Context {W : Type} (client : provider W).

Lemma run_getitem param key (st : state W) :
  run client (getitem param key) st =
    (st, match (heap st !!! param) !! key with
         | Some v => inr v
         | None => inl (KeyError key)
         end).
Proof. simpl. by destruct ((heap st !!! param) !! key). Qed.

Lemma run_perform_ {X : Type} (a : action X) (st : state W) :
  run client (perform_ a) st = ((perform client a st).1, inr (perform client a st).2).
Proof. simpl. by destruct (perform client a st). Qed.

Lemma run_create_stack stack_param (st : state W) :
  run client (create_stack stack_param) st =
    let kwargs := heap st !!! stack_param in
    let r := client_create_stack client kwargs (world st) in
    (called r.1 (EvCreateStack kwargs r.2) st, r.2).
Proof.
  simpl. destruct (client_create_stack client _ _) as [w [e | resp]]; done.
Qed.

Lemma run_update_stack stack_param (st : state W) :
  run client (update_stack stack_param) st =
    let kwargs := heap st !!! stack_param in
    let r := client_update_stack client kwargs (world st) in
    (called r.1 (EvUpdateStack kwargs r.2) st, r.2).
Proof.
  simpl. destruct (client_update_stack client _ _) as [w [e | resp]]; done.
Qed.

Lemma run_delete_stack stack_name (st : state W) :
  run client (delete_stack stack_name) st =
    let r := client_delete_stack client stack_name (world st) in
    (called r.1 (EvDeleteStack stack_name r.2) st, r.2).
Proof.
  simpl. destruct (client_delete_stack client _ _) as [w [e | []]]; done.
Qed.

Lemma run_wait_stack operation stack_name delay max_attempts (st : state W) :
  run client (wait_stack operation stack_name delay max_attempts) st =
    let d := default default_delay delay in
    let m := default default_max_attempts max_attempts in
    let r := waiter_wait client operation stack_name d m (world st) in
    (called r.1 (EvWait operation stack_name d m r.2) st,
     match r.2 with inl e => inl e | inr _ => inr true end).
Proof.
  simpl. destruct (waiter_wait client _ _ _ _ _) as [w [e | []]]; done.
Qed.

End Primitives.

(** ** One iteration of each loop, case by case *)

Section Bodies.
Context {W : Type} (client : provider W).

Lemma store_id_name param stack_id (st : state W) :
  (heap (store_id param stack_id st) !!! param) !! "StackName"
  = (heap st !!! param) !! "StackName".
Proof.
  unfold store_id. simpl. rewrite lookup_total_insert_eq.
  by rewrite lookup_insert_ne.
Qed.

Lemma deploy_body_cases which method wait_operation message param (st : state W) :
  deploy_body_run client which method wait_operation message param st
    (run client (deploy_body which method wait_operation message param) st).1
    (run client (deploy_body which method wait_operation message param) st).2.
Proof.
  unfold deploy_body. rewrite run_bind.
  destruct (run client (method param) st) as [st1 [e | response]] eqn:Hcall;
    [by apply deploy_call_raises |].
  rewrite run_bind. unfold response_getitem.
  destruct (response !! "StackId") as [stack_id |] eqn:Hid;
    [| by eapply deploy_no_stack_id].
  cbn [run]. rewrite run_bind, run_perform_.
  change (perform client (SetItem param "StackId" stack_id) st1).1
    with (store_id param stack_id st1).
  cbv beta iota. rewrite run_bind, run_getitem, store_id_name.
  destruct ((heap st1 !!! param) !! "StackName") as [name |] eqn:Hn;
    [| by eapply deploy_no_stack_name].
  rewrite run_bind, run_perform_.
  change (perform client (LoggerInfo name (" is being " +:+ message))
            (store_id param stack_id st1)).1
    with (emit (INFO name (" is being " +:+ message)) (store_id param stack_id st1)).
  set (st2 := emit _ (store_id param stack_id st1)).
  assert ((heap st2 !!! param) !! "StackName" = Some name) as Hn2
    by (subst st2; cbn [heap emit]; by rewrite store_id_name).
  cbv beta iota. rewrite run_bind, run_getitem, Hn2.
  rewrite run_bind, run_wait_stack. cbv zeta.
  destruct (waiter_wait client wait_operation name (default default_delay None)
              (default default_max_attempts None) (world st2))
    as [w [e | []]] eqn:Hw; cbn [fst snd].
  - by eapply deploy_wait_raises.
  - rewrite run_bind, run_getitem. cbn [heap called]. rewrite Hn2.
    rewrite run_perform_. by eapply deploy_completes.
Qed.

Lemma delete_body_cases param (st : state W) :
  delete_body_run client param st
    (run client (delete_body param) st).1 (run client (delete_body param) st).2.
Proof.
  unfold delete_body. rewrite run_bind, run_getitem.
  destruct ((heap st !!! param) !! "StackName") as [name |] eqn:Hn;
    [| by apply delete_no_stack_name].
  rewrite run_bind, run_delete_stack. cbv zeta.
  destruct (client_delete_stack client name (world st)) as [w [e | []]] eqn:Hd;
    cbn [fst snd]; [by eapply delete_call_raises |].
  rewrite run_bind, run_getitem. cbn [heap called]. rewrite Hn.
  rewrite run_bind, run_perform_.
  change (perform client (LoggerInfo name " is being deleted")
            (called w (EvDeleteStack name (inr ())) st)).1
    with (emit (INFO name " is being deleted")
            (called w (EvDeleteStack name (inr tt)) st)).
  set (st1 := emit _ (called w _ st)).
  cbv beta iota. rewrite run_bind, run_getitem.
  replace ((heap st1 !!! param) !! "StackName") with (Some name) by done.
  rewrite run_bind, run_wait_stack. cbv zeta.
  destruct (waiter_wait client "stack_delete_complete" name
              (default default_delay None) (default default_max_attempts None)
              (world st1)) as [w' [e | []]] eqn:Hw; cbn [fst snd].
  - by eapply delete_wait_raises.
  - rewrite run_bind, run_perform_.
    change (perform client (PopItem param "StackId") ?s).1 with (pop_id param s).
    cbv beta iota. rewrite run_bind, run_getitem.
    set (st3 := pop_id param _).
    assert ((heap st3 !!! param) !! "StackName" = Some name) as ->.
    { subst st3. unfold pop_id. cbn [heap set_heap called].
      rewrite lookup_total_insert_eq, lookup_delete_ne by done.
      by subst st1. }
    rewrite run_perform_. by eapply delete_completes.
Qed.

End Bodies.

(** ** The runners as a whole *)

Section Runners.
Context {W : Type} (client : provider W).

Lemma dispatch_Some method f wait_operation message :
  dispatch method = Some (f, wait_operation, message) →
  (method = create_stack_fn ∧ f = create_stack
     ∧ wait_operation = "stack_create_complete" ∧ message = "created")
  ∨ (method = update_stack_fn ∧ f = update_stack
     ∧ wait_operation = "stack_update_complete" ∧ message = "updated").
Proof. destruct method; intros [= <- <- <-]; auto. Qed.

Lemma dispatch_None method :
  dispatch method = None ↔ method ≠ create_stack_fn ∧ method ≠ update_stack_fn.
Proof. destruct method; simpl; split; try done; intros []; done. Qed.

Lemma run_method method f wait_operation message param (st : state W) :
  dispatch method = Some (f, wait_operation, message) →
  let kwargs := heap st !!! param in
  let r := provider_call client method kwargs (world st) in
  run client (f param) st = (called r.1 (call_event method kwargs r.2) st, r.2).
Proof.
  intros [(-> & -> & _) | (-> & -> & _)]%dispatch_Some.
  - apply run_create_stack.
  - apply run_update_stack.
Qed.

Lemma run_deploy_in_order which stack_params method f wait_operation message
    (st : state W) :
  dispatch method = Some (f, wait_operation, message) →
  run client (deploy_in_order which stack_params method) st =
    match run client
            (for_each stack_params (deploy_body which f wait_operation message)) st
    with
    | (st', inr _) => (st', inr stack_params)
    | (st', inl e) => (emit (ERROR e) st', inr stack_params)
    end.
Proof.
  intros Hd. unfold deploy_in_order. rewrite Hd, run_bind, run_guarded_loop.
  by destruct (run client (for_each stack_params _) st) as [st' [e | []]].
Qed.

Lemma run_delete_in_reverse_order stack_params (st : state W) :
  run client (delete_in_reverse_order stack_params) st =
    match run client (for_each (reverse stack_params) delete_body) st with
    | (st', inr _) => (st', inr stack_params)
    | (st', inl e) => (emit (ERROR e) st', inr stack_params)
    end.
Proof.
  unfold delete_in_reverse_order. rewrite run_bind, run_guarded_loop.
  by destruct (run client (for_each (reverse stack_params) _) st) as [st' [e | []]].
Qed.

(** A property of the shared state that every iteration keeps is kept by
    the loop. *)
Lemma for_each_invariant {A : Type} (I : state W → Prop) (body : A → prog unit)
    (xs : list A) (st : state W) :
  (∀ x s, x ∈ xs → I s → I (run client (body x) s).1) →
  I st → I (run client (for_each xs body) st).1.
Proof.
  revert st. induction xs as [| x xs IH]; intros st Hbody Hst; [done |].
  rewrite run_for_each_cons.
  pose proof (Hbody x st ltac:(left) Hst) as H1.
  destruct (run client (body x) st) as [st1 [e | []]]; [done |].
  apply IH; [| done]. intros y s Hy. apply Hbody. by right.
Qed.

Lemma deploy_in_order_invariant (I : state W → Prop) which stack_params method
    f wait_operation message (st : state W) :
  dispatch method = Some (f, wait_operation, message) →
  (∀ param s, param ∈ stack_params → I s →
     I (run client (deploy_body which f wait_operation message param) s).1) →
  (∀ e s, I s → I (emit (ERROR e) s)) →
  I st → I (run client (deploy_in_order which stack_params method) st).1.
Proof.
  intros Hd Hbody Herr Hst. rewrite (run_deploy_in_order _ _ _ _ _ _ _ Hd).
  pose proof (for_each_invariant I _ _ st Hbody Hst) as H.
  destruct (run client (for_each stack_params _) st) as [st' [e | []]];
    simpl in *; auto.
Qed.

Lemma delete_in_reverse_order_invariant (I : state W → Prop) stack_params
    (st : state W) :
  (∀ param s, param ∈ stack_params → I s →
     I (run client (delete_body param) s).1) →
  (∀ e s, I s → I (emit (ERROR e) s)) →
  I st → I (run client (delete_in_reverse_order stack_params) st).1.
Proof.
  intros Hbody Herr Hst. rewrite run_delete_in_reverse_order.
  assert (I (run client (for_each (reverse stack_params) delete_body) st).1) as H.
  { apply for_each_invariant; [| done].
    intros x s Hx. apply Hbody. by apply elem_of_reverse. }
  destruct (run client (for_each (reverse stack_params) _) st) as [st' [e | []]];
    simpl in *; auto.
Qed.

End Runners.

(** Case analysis on the iteration the goal talks about. *)
Ltac deploy_cases Hd :=
  match goal with
  | |- context [run ?c (deploy_body ?w ?f ?op ?msg ?p) ?s] =>
      let H := fresh "Hrun" in
      pose proof (deploy_body_cases c w f op msg p s) as H;
      destruct (run c (deploy_body w f op msg p) s) as [? ?];
      cbn [fst snd] in H |- *; inversion H; clear H; subst;
      match goal with
      | Hc : run c (f p) s = _ |- _ =>
          let w := fresh "w" in
          let r := fresh "r" in
          let Hcall := fresh "Hcall" in
          rewrite (run_method c _ _ _ _ p s Hd) in Hc; cbv zeta in Hc;
          destruct (provider_call c _ (heap s !!! p) (world s))
            as [w r] eqn:Hcall;
          cbn [fst snd] in Hc; injection Hc as <- ->
      end
  end.

Ltac delete_cases :=
  match goal with
  | |- context [run ?c (delete_body ?p) ?s] =>
      let H := fresh "Hrun" in
      pose proof (delete_body_cases c p s) as H;
      destruct (run c (delete_body p) s) as [? ?];
      cbn [fst snd] in H |- *; inversion H; clear H; subst
  end.

(** ** Rejection of any other [method] *)

Section Rejection.
Context {W : Type} (client : provider W).

(** C9. For a [method] that is neither [create_stack] nor [update_stack],
    [deploy_in_order] is nothing but [raise ValueError(method)]: it performs
    no action at all, so no provider call or wait is made and no dictionary
    is touched, and the exception leaves the function (the [try] block has
    not been entered). *)
Theorem invalid_method_raises which stack_params method (st : state W) :
  method ≠ create_stack_fn → method ≠ update_stack_fn →
  deploy_in_order which stack_params method = Raise (ValueError method)
  ∧ run client (deploy_in_order which stack_params method) st
    = (st, inl (ValueError method)).
Proof.
  intros H1 H2.
  assert (dispatch method = None) as Hd by (by apply dispatch_None).
  unfold deploy_in_order. by rewrite Hd.
Qed.

End Rejection.

Lemma invalid_method_raises_witness :
  deploy_in_order TopLevel [1; 2] delete_stack_fn = Raise (ValueError delete_stack_fn)
  ∧ run (scripted [] []) (deploy_in_order TopLevel [1; 2] delete_stack_fn)
        (initial two_stacks)
    = (initial two_stacks,
       inl (ValueError delete_stack_fn)).
Proof.
  apply (invalid_method_raises (scripted [] []) TopLevel [1; 2] delete_stack_fn);
    discriminate.
Defined.

(** ** The progress messages *)

Section Messages.
Context {W : Type} (client : provider W).

(** What a completed iteration of the forward loop logs. *)
Lemma deploy_body_log which method f wait_operation message param
    (st st' : state W) :
  dispatch method = Some (f, wait_operation, message) →
  run client (deploy_body which f wait_operation message param) st = (st', inr tt) →
  ∃ name, (heap st !!! param) !! "StackName" = Some name
    ∧ log st' = log st ++ [INFO name (" is being " +:+ message);
                           INFO name (done_text which message)].
Proof.
  intros Hd Hrun. revert Hrun. deploy_cases Hd; intros [= <-].
  eexists; split; [done |]. cbn. by rewrite <- app_assoc.
Qed.

(** Under [scripts/] the second message names the action performed. *)
Lemma scripts_message_names_the_action method f wait_operation message param
    (st st' : state W) :
  dispatch method = Some (f, wait_operation, message) →
  run client (deploy_body Scripts f wait_operation message param) st = (st', inr tt) →
  ∃ name, (heap st !!! param) !! "StackName" = Some name
    ∧ last (log st') =
        Some (INFO name match method with
                        | update_stack_fn => " is updated"
                        | _ => " is created"
                        end).
Proof.
  intros Hd Hrun.
  destruct (deploy_body_log _ _ _ _ _ _ _ _ Hd Hrun) as (name & Hn & ->).
  exists name. split; [done |].
  rewrite last_app_cons. cbn.
  by destruct (dispatch_Some _ _ _ _ Hd) as [(-> & _ & _ & ->) | (-> & _ & _ & ->)].
Qed.

(** In the top-level copy the second message is [" is created"] for an
    update as well. *)
Lemma top_level_message_is_created method f wait_operation message param
    (st st' : state W) :
  dispatch method = Some (f, wait_operation, message) →
  run client (deploy_body TopLevel f wait_operation message param) st = (st', inr tt) →
  ∃ name, (heap st !!! param) !! "StackName" = Some name
    ∧ last (log st') = Some (INFO name " is created").
Proof.
  intros Hd Hrun.
  destruct (deploy_body_log _ _ _ _ _ _ _ _ Hd Hrun) as (name & Hn & ->).
  exists name. split; [done |]. by rewrite last_app_cons.
Qed.

End Messages.

(** C2. The top-level copy, updating one stack with a provider that accepts
    everything: after the wait has succeeded the log says "git-A is created",
    although the action was an update ("is being updated" one line
    earlier). *)
Theorem top_level_update_logs_created :
  log (run (scripted [] []) (deploy_in_order TopLevel [1] update_stack_fn)
         (initial {[ 1 := stack "git-A" ]})).1
  = [INFO (VStr "git-A") " is being updated"; INFO (VStr "git-A") " is created"].
Proof. vm_compute. reflexivity. Qed.

(** The same run with the copy under [scripts/]. *)
Example scripts_update_logs_updated :
  log (run (scripted [] []) (deploy_in_order Scripts [1] update_stack_fn)
         (initial {[ 1 := stack "git-A" ]})).1
  = [INFO (VStr "git-A") " is being updated"; INFO (VStr "git-A") " is updated"].
Proof. vm_compute. reflexivity. Qed.

(** ** The calls a runner makes, in order *)

Lemma orderly_app evs1 evs2 :
  Forall succeeded evs1 → orderly evs2 → orderly (evs1 ++ evs2).
Proof.
  intros H1 H2 i ev Hi Hlen. rewrite length_app in Hlen.
  destruct (decide (i < length evs1)) as [Hlt | Hge].
  - rewrite lookup_app_l in Hi by done.
    eapply Forall_lookup_1 in H1; eauto.
  - rewrite lookup_app_r in Hi by lia.
    eapply H2; [done | lia].
Qed.

Lemma follows_app expected1 expected2 evs1 evs2 res :
  follows expected1 evs1 (inr tt) → follows expected2 evs2 res →
  follows (expected1 ++ expected2) (evs1 ++ evs2) res.
Proof.
  intros (_ & _ & H1) (Hp & Ho & H2). destruct (H1 I) as [E1 F1].
  split_and!.
  - rewrite fmap_app, E1. by apply prefix_app.
  - by apply orderly_app.
  - intros Hres. destruct (H2 Hres) as [E2 F2]. split.
    + by rewrite fmap_app, E1, E2.
    + by apply Forall_app.
Qed.

Lemma follows_abort expected1 expected2 evs e :
  follows expected1 evs (inl e) → follows (expected1 ++ expected2) evs (inl e).
Proof.
  intros (Hp & Ho & _). split_and!; [| done | done].
  by apply prefix_app_r.
Qed.

Lemma follows_nil res : follows [] [] res.
Proof.
  split_and!; [done | | done]. intros i ev Hi. by rewrite lookup_nil in Hi.
Qed.

Section Calls.
Context {W : Type} (client : provider W).

(** A loop whose iterations make the calls [expected] makes them item
    after item, as long as no iteration changes what a later one is to
    call. *)
Lemma for_each_follows {A : Type} (body : A → prog unit)
    (expected : state W → A → list (call_kind * option value)) xs (st : state W) :
  (∀ x s,
     (∀ y, expected (run client (body x) s).1 y = expected s y)
     ∧ ∃ evs, trace (run client (body x) s).1 = trace s ++ evs
              ∧ follows (expected s x) evs (run client (body x) s).2) →
  (∀ y, expected (run client (for_each xs body) st).1 y = expected st y)
  ∧ ∃ evs, trace (run client (for_each xs body) st).1 = trace st ++ evs
           ∧ follows (flat_map (expected st) xs) evs
               (run client (for_each xs body) st).2.
Proof.
  intros Hbody. revert st. induction xs as [| x xs IH]; intros st.
  { split; [done |]. exists []. cbn. rewrite app_nil_r.
    split; [done | apply follows_nil]. }
  rewrite run_for_each_cons. destruct (Hbody x st) as (Hsame & evs1 & Ht1 & Hf1).
  destruct (run client (body x) st) as [st1 [e | []]]; cbn [fst snd] in *.
  - split; [done |]. exists evs1. split; [done |]. by apply follows_abort.
  - destruct (IH st1) as (Hsame2 & evs2 & Ht2 & Hf2).
    split; [intros y; by rewrite Hsame2 |].
    exists (evs1 ++ evs2). split; [by rewrite Ht2, Ht1, app_assoc |].
    cbn [flat_map]. apply follows_app; [done |].
    erewrite flat_map_ext; [done |]. intros a. by rewrite Hsame.
Qed.

End Calls.

(** ** What one iteration does to the dictionaries and to the trace *)

Section BodyEffects.
Context {W : Type} (client : provider W).

Lemma heap_store_lookup (h : store) param stack_id r key :
  (<[param := <["StackId" := stack_id]> (h !!! param)]> h !!! r) !! key
  = if decide (r = param ∧ key = "StackId") then Some stack_id
    else (h !!! r) !! key.
Proof.
  destruct (decide (r = param)) as [-> | Hr].
  - rewrite lookup_total_insert_eq.
    destruct (decide (key = "StackId")) as [-> | Hk].
    + rewrite lookup_insert_eq. by rewrite decide_True.
    + rewrite lookup_insert_ne by done. rewrite decide_False; [done | by intros []].
  - rewrite lookup_total_insert_ne by done.
    rewrite decide_False; [done | by intros []].
Qed.

Lemma heap_pop_lookup (h : store) param r key :
  (<[param := delete "StackId" (h !!! param)]> h !!! r) !! key
  = if decide (r = param ∧ key = "StackId") then None else (h !!! r) !! key.
Proof.
  destruct (decide (r = param)) as [-> | Hr].
  - rewrite lookup_total_insert_eq.
    destruct (decide (key = "StackId")) as [-> | Hk].
    + rewrite lookup_delete_eq. by rewrite decide_True.
    + rewrite lookup_delete_ne by done. rewrite decide_False; [done | by intros []].
  - rewrite lookup_total_insert_ne by done.
    rewrite decide_False; [done | by intros []].
Qed.

Lemma store_id_lookup param stack_id (st : state W) r key :
  (heap (store_id param stack_id st) !!! r) !! key
  = if decide (r = param ∧ key = "StackId") then Some stack_id
    else (heap st !!! r) !! key.
Proof. apply heap_store_lookup. Qed.

Lemma pop_id_lookup param (st : state W) r key :
  (heap (pop_id param st) !!! r) !! key
  = if decide (r = param ∧ key = "StackId") then None
    else (heap st !!! r) !! key.
Proof. apply heap_pop_lookup. Qed.

(** An iteration of the forward loop writes one entry at most: the
    [StackId] of its own dictionary. *)
Lemma deploy_body_frame which method f wait_operation message param
    (st : state W) r key :
  dispatch method = Some (f, wait_operation, message) →
  r ≠ param ∨ key ≠ "StackId" →
  (heap (run client (deploy_body which f wait_operation message param) st).1 !!! r)
    !! key = (heap st !!! r) !! key.
Proof.
  intros Hd Hne. deploy_cases Hd; cbn [heap emit called]; try done;
    rewrite store_id_lookup, decide_False; try done; intros []; by destruct Hne.
Qed.

(** An iteration of the teardown loop removes one entry at most: the
    [StackId] of its own dictionary. *)
Lemma delete_body_frame param (st : state W) r key :
  r ≠ param ∨ key ≠ "StackId" →
  (heap (run client (delete_body param) st).1 !!! r) !! key
  = (heap st !!! r) !! key.
Proof.
  intros Hne. delete_cases; cbn [heap emit called]; try done.
  rewrite pop_id_lookup, decide_False; [done |]. intros []; by destruct Hne.
Qed.

Lemma event_call_call_event method kwargs outcome :
  event_call (call_event method kwargs outcome)
  = (kind_of method, kwargs !! "StackName").
Proof. by destruct method. Qed.

Lemma succeeded_call_event method kwargs outcome :
  succeeded (call_event method kwargs outcome) ↔ returned outcome.
Proof. by destruct method. Qed.

Lemma orderly_one ev : orderly [ev].
Proof. intros i e _ Hlen. simpl in Hlen. lia. Qed.

Lemma orderly_two ev1 ev2 : succeeded ev1 → orderly [ev1; ev2].
Proof.
  intros H1 i e Hi Hlen. simpl in Hlen.
  destruct i as [| i]; [by injection Hi as <- | lia].
Qed.

Lemma deploy_body_follows which method f wait_operation message param
    (st : state W) :
  dispatch method = Some (f, wait_operation, message) →
  ∃ evs,
    trace (run client (deploy_body which f wait_operation message param) st).1
      = trace st ++ evs
    ∧ follows (deploy_calls method wait_operation st param) evs
        (run client (deploy_body which f wait_operation message param) st).2.
Proof.
  intros Hd. unfold deploy_calls, stack_name.
  deploy_cases Hd; cbn [heap trace emit called store_id set_heap] in *.
  - eexists [_]. split; [done |]. split_and!; [| apply orderly_one | done].
    cbn. rewrite event_call_call_event. by eexists [_].
  - eexists [_]. split; [done |]. split_and!; [| apply orderly_one | done].
    cbn. rewrite event_call_call_event. by eexists [_].
  - eexists [_]. split; [done |]. split_and!; [| apply orderly_one | done].
    cbn. rewrite event_call_call_event. by eexists [_].
  - eexists [_; _]. split; [by rewrite <- app_assoc |].
    split_and!; [| apply orderly_two; by apply succeeded_call_event | done].
    cbn. rewrite event_call_call_event.
    match goal with H : _ !! "StackName" = Some _ |- _ => rewrite H end.
    done.
  - eexists [_; _]. split; [by rewrite <- app_assoc |].
    assert (succeeded (call_event method (heap st !!! param) (inr response)))
      as Hs by (by apply succeeded_call_event).
    split_and!; [| by apply orderly_two |].
    + cbn. rewrite event_call_call_event.
      match goal with H : _ !! "StackName" = Some _ |- _ => rewrite H end.
      done.
    + intros _. split.
      * cbn. rewrite event_call_call_event.
        match goal with H : _ !! "StackName" = Some _ |- _ => rewrite H end.
        done.
      * repeat constructor; done.
Qed.

Lemma delete_body_follows param (st : state W) :
  ∃ evs,
    trace (run client (delete_body param) st).1 = trace st ++ evs
    ∧ follows (delete_calls st param) evs (run client (delete_body param) st).2.
Proof.
  unfold delete_calls, stack_name.
  delete_cases; cbn [heap trace emit called pop_id set_heap] in *.
  - exists []. rewrite app_nil_r. split; [done |].
    split_and!; [apply prefix_nil | | done].
    intros i ev Hi. by rewrite lookup_nil in Hi.
  - eexists [_]. split; [done |]. split_and!; [| apply orderly_one | done].
    cbn. match goal with H : _ !! "StackName" = Some _ |- _ => rewrite H end.
    by eexists [_].
  - eexists [_; _]. split; [by rewrite <- app_assoc |].
    split_and!; [| by apply orderly_two | done].
    cbn. match goal with H : _ !! "StackName" = Some _ |- _ => rewrite H end.
    done.
  - eexists [_; _]. split; [by rewrite <- app_assoc |].
    split_and!; [| by apply orderly_two |].
    + cbn. match goal with H : _ !! "StackName" = Some _ |- _ => rewrite H end.
      done.
    + intros _. split; [| by repeat constructor].
      cbn. match goal with H : _ !! "StackName" = Some _ |- _ => rewrite H end.
      done.
Qed.

End BodyEffects.

(** ** Order of the calls, wait budget *)

Section Order.
Context {W : Type} (client : provider W).

Lemma dispatch_valid method :
  method = create_stack_fn ∨ method = update_stack_fn →
  ∃ f message, dispatch method = Some (f, waiter_name method, message).
Proof. intros [-> | ->]; cbn; eauto. Qed.

Lemma deploy_calls_stable which method f wait_operation message param
    (st : state W) y :
  dispatch method = Some (f, wait_operation, message) →
  deploy_calls method wait_operation
    (run client (deploy_body which f wait_operation message param) st).1 y
  = deploy_calls method wait_operation st y.
Proof.
  intros Hd. unfold deploy_calls, stack_name.
  by rewrite (deploy_body_frame client which method f wait_operation message
                param st y "StackName" Hd) by (by right).
Qed.

Lemma delete_calls_stable param (st : state W) y :
  delete_calls (run client (delete_body param) st).1 y = delete_calls st y.
Proof.
  unfold delete_calls, stack_name.
  by rewrite (delete_body_frame client param st y "StackName") by (by right).
Qed.

Lemma deploy_loop_follows which method f wait_operation message stack_params
    (st : state W) :
  dispatch method = Some (f, wait_operation, message) →
  ∃ evs,
    trace (run client (for_each stack_params
                         (deploy_body which f wait_operation message)) st).1
      = trace st ++ evs
    ∧ follows (flat_map (deploy_calls method wait_operation st) stack_params) evs
        (run client (for_each stack_params
                       (deploy_body which f wait_operation message)) st).2.
Proof.
  intros Hd.
  apply (for_each_follows client _ (deploy_calls method wait_operation)).
  intros x s. split.
  - intros y. by eapply deploy_calls_stable.
  - by eapply deploy_body_follows.
Qed.

Lemma delete_loop_follows stack_params (st : state W) :
  ∃ evs,
    trace (run client (for_each (reverse stack_params) delete_body) st).1
      = trace st ++ evs
    ∧ follows (teardown_calls st stack_params) evs
        (run client (for_each (reverse stack_params) delete_body) st).2.
Proof.
  apply (for_each_follows client _ delete_calls).
  intros x s. split.
  - intros y. apply delete_calls_stable.
  - apply delete_body_follows.
Qed.

Lemma deploy_in_order_trace which stack_params method f wait_operation message
    (st : state W) :
  dispatch method = Some (f, wait_operation, message) →
  trace (run client (deploy_in_order which stack_params method) st).1
  = trace (run client (for_each stack_params
                         (deploy_body which f wait_operation message)) st).1.
Proof.
  intros Hd. rewrite (run_deploy_in_order _ _ _ _ _ _ _ _ Hd).
  by destruct (run client (for_each stack_params _) st) as [st' [e | []]].
Qed.

Lemma delete_in_reverse_order_trace stack_params (st : state W) :
  trace (run client (delete_in_reverse_order stack_params) st).1
  = trace (run client (for_each (reverse stack_params) delete_body) st).1.
Proof.
  rewrite run_delete_in_reverse_order.
  by destruct (run client (for_each (reverse stack_params) _) st) as [st' [e | []]].
Qed.

Lemma deploy_in_order_follows which stack_params method f wait_operation message
    (st : state W) :
  dispatch method = Some (f, wait_operation, message) →
  ∃ evs,
    trace (run client (deploy_in_order which stack_params method) st).1
      = trace st ++ evs
    ∧ follows (forward_calls method st stack_params) evs
        (run client (for_each stack_params
                       (deploy_body which f wait_operation message)) st).2.
Proof.
  intros Hd.
  destruct (deploy_loop_follows which _ _ _ _ stack_params st Hd) as (evs & Ht & Hf).
  exists evs. rewrite (deploy_in_order_trace _ _ _ _ _ _ _ Hd). split; [done |].
  unfold forward_calls.
  by destruct (dispatch_Some _ _ _ _ Hd) as [(-> & _ & -> & _) | (-> & _ & -> & _)].
Qed.

Lemma delete_in_reverse_order_follows stack_params (st : state W) :
  ∃ evs,
    trace (run client (delete_in_reverse_order stack_params) st).1
      = trace st ++ evs
    ∧ follows (teardown_calls st stack_params) evs
        (run client (for_each (reverse stack_params) delete_body) st).2.
Proof.
  destruct (delete_loop_follows stack_params st) as (evs & Ht & Hf).
  exists evs. by rewrite delete_in_reverse_order_trace.
Qed.

(** C7. The forward runner makes its provider calls in the order call(s1),
    wait(s1), call(s2), wait(s2), ...: what it has called is always a
    prefix of that list, every call but the last one made has returned
    without an exception (so the call for s(i+1) comes after the wait for
    s(i) has succeeded), and when the loop runs to its end the calls are
    exactly that list, all successful. *)
Theorem forward_calls_in_order which stack_params method (st : state W) :
  method = create_stack_fn ∨ method = update_stack_fn →
  ∃ evs,
    trace (run client (deploy_in_order which stack_params method) st).1
      = trace st ++ evs
    ∧ event_call <$> evs `prefix_of` forward_calls method st stack_params
    ∧ orderly evs
    ∧ (deploy_runs_to_end client which stack_params method st →
       event_call <$> evs = forward_calls method st stack_params
       ∧ Forall succeeded evs).
Proof.
  intros Hm. destruct (dispatch_valid _ Hm) as (f & message & Hd).
  destruct (deploy_in_order_follows which stack_params _ _ _ _ st Hd)
    as (evs & Ht & Hp & Ho & Hend).
  exists evs. split_and!; [done | done | done |].
  unfold deploy_runs_to_end. by rewrite Hd.
Qed.

Lemma deleted_names_teardown_calls (st : state W) stack_params :
  deleted_names (teardown_calls st stack_params)
  = reverse (stack_name st <$> stack_params).
Proof.
  unfold teardown_calls. rewrite <- fmap_reverse.
  induction (reverse stack_params) as [| x xs IH]; [done |].
  cbn [flat_map delete_calls app fmap list_fmap].
  unfold deleted_names in *.
  rewrite filter_cons_True by done. rewrite filter_cons_False by done.
  cbn. by rewrite IH.
Qed.

Lemma deleted_names_prefix calls1 calls2 :
  calls1 `prefix_of` calls2 → deleted_names calls1 `prefix_of` deleted_names calls2.
Proof.
  intros [k ->]. unfold deleted_names. rewrite filter_app, fmap_app.
  by apply prefix_app_r.
Qed.

(** C4. The teardown runner goes through the sequence from its last
    dictionary to its first: its provider calls are delete(sk), wait(sk),
    ..., delete(s1), wait(s1), never in another order; the names it
    deletes are a prefix of the reversed list of names, and the whole
    reversed list when the loop runs to its end. *)
Theorem teardown_in_reverse_order stack_params (st : state W) :
  ∃ evs,
    trace (run client (delete_in_reverse_order stack_params) st).1
      = trace st ++ evs
    ∧ event_call <$> evs `prefix_of` teardown_calls st stack_params
    ∧ orderly evs
    ∧ deleted_names (event_call <$> evs)
        `prefix_of` reverse (stack_name st <$> stack_params)
    ∧ (delete_runs_to_end client stack_params st →
       event_call <$> evs = teardown_calls st stack_params
       ∧ deleted_names (event_call <$> evs)
         = reverse (stack_name st <$> stack_params)
       ∧ Forall succeeded evs).
Proof.
  destruct (delete_in_reverse_order_follows stack_params st)
    as (evs & Ht & Hp & Ho & Hend).
  exists evs. split_and!; try done.
  - rewrite <- deleted_names_teardown_calls. by apply deleted_names_prefix.
  - intros Hr. destruct (Hend Hr) as [E F]. split_and!; try done.
    by rewrite E, deleted_names_teardown_calls.
Qed.

End Order.

Example forward_calls_two_stacks :
  forward_calls create_stack_fn (initial two_stacks) [1; 2]
  = [(KCreate, Some (VStr "git-A"));
     (KWait "stack_create_complete" 5 120, Some (VStr "git-A"));
     (KCreate, Some (VStr "build-A"));
     (KWait "stack_create_complete" 5 120, Some (VStr "build-A"))].
Proof. vm_compute. reflexivity. Qed.

Lemma forward_calls_in_order_witness :
  ∃ evs,
    trace (run (scripted [] []) (deploy_in_order TopLevel [1; 2] create_stack_fn)
             (initial two_stacks)).1 = trace (initial two_stacks) ++ evs
    ∧ event_call <$> evs = forward_calls create_stack_fn (initial two_stacks) [1; 2]
    ∧ Forall succeeded evs.
Proof.
  destruct (forward_calls_in_order (scripted [] []) TopLevel [1; 2]
              create_stack_fn (initial two_stacks))
    as (evs & Ht & _ & _ & Hend); [by left |].
  exists evs. split; [exact Ht |]. apply Hend. vm_compute. exact I.
Defined.

Example teardown_calls_two_stacks :
  event_call <$> trace (run (scripted [] []) (delete_in_reverse_order [1; 2])
                          (initial two_stacks)).1
  = [(KDelete, Some (VStr "build-A"));
     (KWait "stack_delete_complete" 5 120, Some (VStr "build-A"));
     (KDelete, Some (VStr "git-A"));
     (KWait "stack_delete_complete" 5 120, Some (VStr "git-A"))].
Proof. vm_compute. reflexivity. Qed.

Example teardown_names_two_stacks :
  reverse (stack_name (initial two_stacks) <$> [1; 2])
  = [Some (VStr "build-A"); Some (VStr "git-A")].
Proof. vm_compute. reflexivity. Qed.

Lemma teardown_in_reverse_order_witness :
  ∃ evs,
    trace (run (scripted [] []) (delete_in_reverse_order [1; 2])
             (initial two_stacks)).1 = trace (initial two_stacks) ++ evs
    ∧ event_call <$> evs = teardown_calls (initial two_stacks) [1; 2]
    ∧ deleted_names (event_call <$> evs)
      = reverse (stack_name (initial two_stacks) <$> [1; 2]).
Proof.
  destruct (teardown_in_reverse_order (scripted [] []) [1; 2] (initial two_stacks))
    as (evs & Ht & _ & _ & _ & Hend).
  exists evs. split; [exact Ht |].
  destruct Hend as (Hcalls & Hnames & _); [vm_compute; exact I |].
  split; [exact Hcalls | exact Hnames].
Defined.

Section Budget.
Context {W : Type} (client : provider W).

Lemma waits_of_prefix operation expected evs :
  event_call <$> evs `prefix_of` expected →
  (∀ op delay max_attempts name,
     (KWait op delay max_attempts, name) ∈ expected →
     op = operation ∧ delay = 5%Z ∧ max_attempts = 120%Z) →
  waits_are operation evs.
Proof.
  intros [k ->] Hexp op name delay max_attempts outcome Hin.
  apply (Hexp op delay max_attempts (Some name)).
  apply elem_of_app. left.
  by apply (list_elem_of_fmap_2 event_call) in Hin.
Qed.

Lemma forward_calls_waits method (st : state W) stack_params
    op delay max_attempts name :
  (KWait op delay max_attempts, name) ∈ forward_calls method st stack_params →
  op = waiter_name method ∧ delay = 5%Z ∧ max_attempts = 120%Z.
Proof.
  unfold forward_calls. rewrite list_elem_of_In, in_flat_map.
  intros (x & _ & Hx). apply list_elem_of_In in Hx. unfold deploy_calls in Hx.
  apply elem_of_cons in Hx as [Hx | Hx]; [by destruct method |].
  apply list_elem_of_singleton in Hx. by injection Hx as -> -> -> _.
Qed.

Lemma teardown_calls_waits (st : state W) stack_params op delay max_attempts name :
  (KWait op delay max_attempts, name) ∈ teardown_calls st stack_params →
  op = "stack_delete_complete" ∧ delay = 5%Z ∧ max_attempts = 120%Z.
Proof.
  unfold teardown_calls. rewrite list_elem_of_In, in_flat_map.
  intros (x & _ & Hx). apply list_elem_of_In in Hx. unfold delete_calls in Hx.
  apply elem_of_cons in Hx as [Hx | Hx]; [done |].
  apply list_elem_of_singleton in Hx. by injection Hx as -> -> -> _.
Qed.

(** C8. [wait_stack] defaults to a delay of 5 and 120 attempts, the
    runners never pass anything else, and each runner waits on its own
    condition: every wait of a create run is for [stack_create_complete],
    of an update run for [stack_update_complete], of a teardown for
    [stack_delete_complete], all with delay 5 and 120 attempts. *)
Theorem wait_budget which stack_params (st : state W) :
  default_delay = 5%Z ∧ default_max_attempts = 120%Z
  ∧ (∃ evs,
       trace (run client (deploy_in_order which stack_params create_stack_fn) st).1
         = trace st ++ evs
       ∧ waits_are "stack_create_complete" evs)
  ∧ (∃ evs,
       trace (run client (deploy_in_order which stack_params update_stack_fn) st).1
         = trace st ++ evs
       ∧ waits_are "stack_update_complete" evs)
  ∧ (∃ evs,
       trace (run client (delete_in_reverse_order stack_params) st).1
         = trace st ++ evs
       ∧ waits_are "stack_delete_complete" evs).
Proof.
  split_and!; [done | done | | |].
  - destruct (deploy_in_order_follows client which stack_params create_stack_fn
                _ _ _ st eq_refl) as (evs & Ht & Hp & _).
    exists evs. split; [done |]. eapply waits_of_prefix; [done |].
    intros op d m name. apply forward_calls_waits.
  - destruct (deploy_in_order_follows client which stack_params update_stack_fn
                _ _ _ st eq_refl) as (evs & Ht & Hp & _).
    exists evs. split; [done |]. eapply waits_of_prefix; [done |].
    intros op d m name. apply forward_calls_waits.
  - destruct (delete_in_reverse_order_follows client stack_params st)
      as (evs & Ht & Hp & _).
    exists evs. split; [done |]. eapply waits_of_prefix; [done |].
    intros op d m name. apply teardown_calls_waits.
Qed.

End Budget.

(** The waits of a create run and of a teardown of two stacks. *)
Example waits_two_stacks :
  filter is_wait
    (trace (run (scripted [] []) (deploy_in_order TopLevel [1; 2] create_stack_fn)
              (initial two_stacks)).1)
  = [EvWait "stack_create_complete" (VStr "git-A") 5 120 (inr tt);
     EvWait "stack_create_complete" (VStr "build-A") 5 120 (inr tt)]
  ∧ filter is_wait
      (trace (run (scripted [] []) (delete_in_reverse_order [1; 2])
                (initial two_stacks)).1)
    = [EvWait "stack_delete_complete" (VStr "build-A") 5 120 (inr tt);
       EvWait "stack_delete_complete" (VStr "git-A") 5 120 (inr tt)].
Proof. vm_compute. done. Qed.

(** ** What the runners leave untouched *)

Section Frame.
Context {W : Type} (client : provider W).

Lemma deploy_loop_frame which method f wait_operation message stack_params
    (st : state W) r key :
  dispatch method = Some (f, wait_operation, message) →
  r ∉ stack_params ∨ key ≠ "StackId" →
  (heap (run client (for_each stack_params
                       (deploy_body which f wait_operation message)) st).1 !!! r)
    !! key = (heap st !!! r) !! key.
Proof.
  intros Hd Hne.
  apply (for_each_invariant client
           (λ s, (heap s !!! r) !! key = (heap st !!! r) !! key)); [| done].
  intros x s Hx <-. eapply deploy_body_frame; [done |].
  destruct Hne as [Hr | Hk]; [left | by right]. by intros ->.
Qed.

Lemma deploy_in_order_frame which stack_params method (st : state W) r key :
  r ∉ stack_params ∨ key ≠ "StackId" →
  (heap (run client (deploy_in_order which stack_params method) st).1 !!! r) !! key
  = (heap st !!! r) !! key.
Proof.
  intros Hne. destruct (dispatch method) as [[[f wait_operation] message] |] eqn:Hd.
  - rewrite (run_deploy_in_order _ _ _ _ _ _ _ _ Hd).
    pose proof (deploy_loop_frame which _ _ _ _ stack_params st r key Hd Hne) as H.
    by destruct (run client (for_each stack_params _) st) as [st' [e | []]].
  - unfold deploy_in_order. by rewrite Hd.
Qed.

Lemma delete_in_reverse_order_frame stack_params (st : state W) r key :
  r ∉ stack_params ∨ key ≠ "StackId" →
  (heap (run client (delete_in_reverse_order stack_params) st).1 !!! r) !! key
  = (heap st !!! r) !! key.
Proof.
  intros Hne.
  apply (delete_in_reverse_order_invariant client
           (λ s, (heap s !!! r) !! key = (heap st !!! r) !! key)); [| done | done].
  intros x s Hx <-. apply delete_body_frame.
  destruct Hne as [Hr | Hk]; [left | by right]. by intros ->.
Qed.

(** The forward loop never removes a [StackId]. *)
Lemma deploy_body_keeps_id which method f wait_operation message param
    (st : state W) r :
  dispatch method = Some (f, wait_operation, message) →
  is_Some ((heap st !!! r) !! "StackId") →
  is_Some ((heap (run client (deploy_body which f wait_operation message param)
                    st).1 !!! r) !! "StackId").
Proof.
  intros Hd Hsome. deploy_cases Hd; cbn [heap emit called]; try done;
    rewrite store_id_lookup; by case_decide.
Qed.

(** The teardown loop never sets a [StackId]: an entry is as before or
    gone. *)
Lemma delete_body_only_removes param (st : state W) r :
  let after := (heap (run client (delete_body param) st).1 !!! r) !! "StackId" in
  after = (heap st !!! r) !! "StackId" ∨ after = None.
Proof.
  cbv zeta. delete_cases; cbn [heap emit called]; auto.
  rewrite pop_id_lookup. case_decide; auto.
Qed.

End Frame.

(** ** Abort on the first failure *)

Section Abort.
Context {W : Type} (client : provider W).


End Abort.


(** In that run the third stack is never called for and gets no
    identifier, while the first has one. *)
Example abort_leaves_pipeline_untouched :
  let final := (run (scripted ["build-A"] [])
                  (deploy_in_order TopLevel [1; 2; 3] create_stack_fn)
                  (initial three_stacks)).1 in
  event_call <$> trace final
    = [(KCreate, Some (VStr "git-A"));
       (KWait "stack_create_complete" 5 120, Some (VStr "git-A"));
       (KCreate, Some (VStr "build-A"))]
  ∧ (heap final !!! 1) !! "StackId" = Some (VStr "arn:git-A")
  ∧ (heap final !!! 2) !! "StackId" = None
  ∧ (heap final !!! 3) !! "StackId" = None
  ∧ last (log final) = Some (ERROR (ClientError "rejected")).
Proof. vm_compute. done. Qed.

(** ** Properties of programs that the threads keep *)

Lemma all_actions_bind Q {A B : Type} (p : prog A) (f : A → prog B) :
  all_actions Q p → (∀ a, all_actions Q (f a)) → all_actions Q (bind p f).
Proof.
  intros Hp Hf. induction p as [a | e | X a k IH]; cbn in *; [done | done |].
  destruct Hp as [Ha Hk]. split; [done |]. intros x. by apply IH.
Qed.

Lemma all_actions_try_except Q {A : Type} (p : prog A) (h : exn → prog A) :
  all_actions Q p → (∀ e, all_actions Q (h e)) → all_actions Q (try_except p h).
Proof.
  intros Hp Hh. induction p as [a | e | X a k IH]; cbn in *; [done | done |].
  destruct Hp as [Ha Hk]. split; [done |]. intros x. by apply IH.
Qed.

Lemma all_actions_for_each Q {A : Type} (xs : list A) (body : A → prog unit) :
  (∀ x, all_actions Q (body x)) → all_actions Q (for_each xs body).
Proof.
  intros Hbody. induction xs as [| x xs IH]; [done |].
  cbn. by apply all_actions_bind.
Qed.

Lemma never_raises_bind {A B : Type} (p : prog A) (f : A → prog B) :
  never_raises p → (∀ a, never_raises (f a)) → never_raises (bind p f).
Proof.
  intros Hp Hf. induction p as [a | e | X a k IH]; cbn in *; [done | done |].
  intros x. by apply IH.
Qed.

(** A [try] whose handler cannot raise lets nothing through. *)
Lemma never_raises_try_except {A : Type} (p : prog A) (h : exn → prog A) :
  (∀ e, never_raises (h e)) → never_raises (try_except p h).
Proof.
  intros Hh. induction p as [a | e | X a k IH]; cbn; [done | done |].
  intros x. apply IH.
Qed.

Lemma all_actions_trigger (Q : ∀ X, action X → Prop) {X : Type}
    (a : action (exn + X)) :
  Q _ a → all_actions Q (trigger a).
Proof. intros Ha. split; [done |]. by intros [e | x]. Qed.

Lemma all_actions_perform_ (Q : ∀ X, action X → Prop) {X : Type} (a : action X) :
  Q _ a → all_actions Q (perform_ a).
Proof. intros Ha. by split. Qed.

(** Goes through a program written with [bind], [trigger] and [perform_]. *)
Ltac program_actions :=
  repeat first
    [ apply all_actions_bind; [| intros ?]
    | apply all_actions_trigger
    | apply all_actions_perform_
    | case_match
    | done ].

Lemma deploy_in_order_writes which stack_params method :
  all_actions writes_stack_id_only (deploy_in_order which stack_params method).
Proof.
  unfold deploy_in_order.
  destruct (dispatch method) as [[[f wait_operation] message] |] eqn:Hd; [| done].
  apply all_actions_bind; [| done].
  apply all_actions_try_except; [| done].
  apply all_actions_for_each. intros param.
  destruct (dispatch_Some _ _ _ _ Hd) as [(_ & -> & _) | (_ & -> & _)];
    unfold deploy_body, response_getitem; program_actions; by cbn.
Qed.

Lemma delete_in_reverse_order_writes stack_params :
  all_actions writes_stack_id_only (delete_in_reverse_order stack_params).
Proof.
  unfold delete_in_reverse_order.
  apply all_actions_bind; [| done].
  apply all_actions_try_except; [| done].
  apply all_actions_for_each. intros param. unfold delete_body. program_actions; by cbn.
Qed.

Lemma deploy_in_order_never_raises which stack_params method :
  method = create_stack_fn ∨ method = update_stack_fn →
  never_raises (deploy_in_order which stack_params method).
Proof.
  intros Hm. unfold deploy_in_order.
  destruct (dispatch_valid _ Hm) as (f & message & ->).
  apply never_raises_bind; [| done]. by apply never_raises_try_except.
Qed.

Lemma delete_in_reverse_order_never_raises stack_params :
  never_raises (delete_in_reverse_order stack_params).
Proof.
  unfold delete_in_reverse_order.
  apply never_raises_bind; [| done]. by apply never_raises_try_except.
Qed.

Section ProgramProperties.
Context {W : Type} (client : provider W).

Lemma perform_frame {X : Type} (a : action X) (st : state W) r key :
  writes_stack_id_only X a → key ≠ "StackId" →
  (heap (perform client a st).1 !!! r) !! key = (heap st !!! r) !! key.
Proof.
  intros Ha Hkey. destruct a; cbn in *; subst; try done.
  - destruct (decide (r = param)) as [-> | Hr].
    + by rewrite lookup_total_insert_eq, lookup_insert_ne.
    + by rewrite lookup_total_insert_ne.
  - destruct (decide (r = param)) as [-> | Hr].
    + by rewrite lookup_total_insert_eq, lookup_delete_ne.
    + by rewrite lookup_total_insert_ne.
  - by destruct (client_create_stack client _ _).
  - by destruct (client_update_stack client _ _).
  - by destruct (client_delete_stack client _ _).
  - by destruct (waiter_wait client _ _ _ _ _).
Qed.

(** A program that never raises returns, whatever the provider does. *)
Lemma never_raises_run {R : Type} (p : prog R) (st : state W) :
  never_raises p → returned (run client p st).2.
Proof.
  revert st. induction p as [a | e | X a k IH]; intros st Hp; cbn in *;
    [done | done |].
  destruct (perform client a st) as [st' x]. by apply IH.
Qed.

End ProgramProperties.

(** ** The threads *)

Section Machine.
Context {W : Type} (client : provider W).
Context (which : script).
Context (target : list loc → prog (list loc)).
Context (stack_sequences : list (list loc)).

Abbreviation steps := (step client which target stack_sequences).
Abbreviation reaches := (reachable client which target stack_sequences).

Lemma reachable_invariant (I : config W → Prop) (st : state W) c :
  I (start stack_sequences st) →
  (∀ c1 c2, reaches st c1 → I c1 → steps c1 c2 → I c2) →
  reaches st c → I c.
Proof.
  intros Hstart Hstep Hc.
  apply (rtc_ind_r (R := steps) I (start stack_sequences st)); [done | | done].
  intros c1 c2 H1 H12 IH. by eapply Hstep.
Qed.

(** A property of programs that holds when a thread starts and that each
    of its actions keeps holds of every thread at every moment. *)
Lemma jobs_invariant (P : prog (list loc) → Prop) (st : state W) c :
  (∀ stacks, P (target stacks)) →
  (∀ X (a : action X) k x, P (Vis a k) → P (k x)) →
  reaches st c → Forall P (jobs c).
Proof.
  intros Htarget Hk Hc.
  apply (reachable_invariant (λ c, Forall P (jobs c)) st c);
    [by constructor | | done].
  intros c1 c2 _ HP Hstep. destruct Hstep; cbn in *; try done.
  - apply Forall_app. split; [done |]. by repeat constructor.
  - apply Forall_insert; [done |]. eapply Hk.
    eapply Forall_lookup_1 in HP; eauto.
Qed.

(** Threads whose programs only write [StackId] leave every other entry
    of every dictionary as it was. *)
Lemma threads_frame (st : state W) c r key :
  (∀ stacks, all_actions writes_stack_id_only (target stacks)) →
  reaches st c → key ≠ "StackId" →
  (heap (shared c) !!! r) !! key = (heap st !!! r) !! key.
Proof.
  intros Htarget Hc Hkey.
  apply (reachable_invariant
           (λ c, (heap (shared c) !!! r) !! key = (heap st !!! r) !! key) st c);
    [done | | done].
  intros c1 c2 Hc1 Hheap Hstep.
  pose proof (jobs_invariant (all_actions writes_stack_id_only) st c1 Htarget
                ltac:(by intros X a k x [_ Hk]) Hc1) as Hjobs.
  destruct Hstep as [| | | | | pc js sh i X a k sh' x Hi Hperform]; cbn in *;
    try done.
  pose proof (Forall_lookup_1 _ _ _ _ Hjobs Hi) as [Ha _].
  rewrite <- Hheap.
  replace sh' with (perform client a sh).1 by (by rewrite Hperform).
  by apply perform_frame.
Qed.

(** A thread that has ended stays as it is. *)
Lemma ended_job_stays c1 c2 i (job : prog (list loc)) :
  steps c1 c2 → jobs c1 !! i = Some job → is_alive job = false →
  jobs c2 !! i = Some job.
Proof.
  intros Hstep Hi Hdead.
  destruct Hstep as [| | | | | pc js sh j X a k sh' x Hj Hperform]; cbn in *;
    try done.
  - by apply lookup_app_l_Some.
  - destruct (decide (i = j)) as [-> | Hne].
    + rewrite Hj in Hi. injection Hi as <-. done.
    + by rewrite list_lookup_insert_ne.
Qed.

Lemma job_runs_to_end pc js (sh : state W) i (job : prog (list loc)) :
  js !! i = Some job →
  rtc steps (Config pc js sh)
    (Config pc (<[i := ended (run client job sh).2]> js) (run client job sh).1).
Proof.
  revert js sh. induction job as [r | e | X a k IH]; intros js sh Hi; cbn.
  - rewrite list_insert_id by done. apply rtc_refl.
  - rewrite list_insert_id by done. apply rtc_refl.
  - destruct (perform client a sh) as [sh' x] eqn:Hperform.
    eapply rtc_l; [by eapply step_job |].
    assert (<[i := k x]> js !! i = Some (k x)) as Hi'.
    { apply list_lookup_insert_eq. by eapply lookup_lt_Some. }
    pose proof (IH x (<[i := k x]> js) sh' Hi') as Hrest.
    by rewrite list_insert_insert_eq in Hrest.
Qed.

Lemma is_alive_ended {R : Type} (outcome : exn + R) : is_alive (ended outcome) = false.
Proof. by destruct outcome. Qed.

(** From any moment on, the threads can all be run to their ends, one
    after the other. *)
Lemma jobs_run_to_end pc js (sh : state W) n :
  ∃ js' sh',
    rtc steps (Config pc js sh) (Config pc js' sh')
    ∧ length js' = length js
    ∧ ∀ i job, i < n → js' !! i = Some job → is_alive job = false.
Proof.
  induction n as [| n (js1 & sh1 & Hrtc & Hlen & Hdead)].
  { exists js, sh. split_and!; [apply rtc_refl | done | lia]. }
  destruct (js1 !! n) as [job |] eqn:Hn.
  - exists (<[n := ended (run client job sh1).2]> js1), (run client job sh1).1.
    split_and!.
    + etrans; [done |]. by apply job_runs_to_end.
    + by rewrite length_insert.
    + intros i job' Hi Hjob'. destruct (decide (i = n)) as [-> | Hne].
      * rewrite list_lookup_insert_eq in Hjob' by (by eapply lookup_lt_Some).
        injection Hjob' as <-. apply is_alive_ended.
      * rewrite list_lookup_insert_ne in Hjob' by done.
        apply (Hdead i); [lia | done].
  - exists js1, sh1. split_and!; [done | done |].
    intros i job' Hi Hjob'. apply (Hdead i); [| done].
    apply lookup_ge_None in Hn. apply lookup_lt_Some in Hjob'. lia.
Qed.

(** Starting the threads: one per sequence, in order. *)
Lemma spawn_all todo js (sh : state W) :
  rtc steps (Config (Spawning todo) js sh)
    (Config Polling (js ++ (target <$> todo)) sh).
Proof.
  revert js. induction todo as [| stacks todo IH]; intros js; cbn.
  - rewrite app_nil_r. apply rtc_once. constructor.
  - eapply rtc_l; [constructor |].
    specialize (IH (js ++ [target stacks])). by rewrite <- app_assoc in IH.
Qed.

End Machine.

(** ** The join *)

Lemma loop_condition_scripts {R : Type} (js : list (prog R)) :
  loop_condition Scripts js = false ↔ Forall (λ job, is_alive job = false) js.
Proof.
  unfold loop_condition. rewrite bool_decide_eq_false.
  induction js as [| job js IH].
  - split; [by constructor | by intros _ []].
  - destruct (is_alive job) eqn:Halive.
    + rewrite filter_cons_True by done. split.
      * intros H. by destruct H.
      * intros H. apply Forall_cons in H as [H _]. congruence.
    + rewrite filter_cons_False by (by rewrite Halive).
      rewrite IH. split; [by constructor | by intros [_ ?]%Forall_cons].
Qed.

Section Join.
Context {W : Type} (client : provider W).
Context (target : list loc → prog (list loc)).
Context (stack_sequences : list (list loc)).

(** With the loop condition of the top-level copy, the caller never gets
    past the loop. *)
Lemma top_level_never_returns (st : state W) c result :
  reachable client TopLevel target stack_sequences st c →
  main c ≠ Returned result.
Proof.
  intros Hc.
  apply (reachable_invariant client TopLevel target stack_sequences
           (λ c, ∀ result, main c ≠ Returned result) st c); [done | | done].
  intros c1 c2 _ H1 Hstep. by destruct Hstep.
Qed.

Lemma scripts_join_invariant (st : state W) c :
  reachable client Scripts target stack_sequences st c →
  join_invariant stack_sequences c.
Proof.
  intros Hc.
  apply (reachable_invariant client Scripts target stack_sequences
           (join_invariant stack_sequences) st c); [done | | done].
  intros c1 c2 _ H1 Hstep. unfold join_invariant in *.
  destruct Hstep as [| | | js sh Hcond | | pc js sh i X a k sh' x Hi Hperform];
    cbn in *; try done.
  - rewrite length_app. cbn. lia.
  - by rewrite Nat.add_0_r in H1.
  - split_and!; [done | done |]. by apply loop_condition_scripts.
  - destruct pc; rewrite ?length_insert; try done.
    destruct H1 as (_ & _ & Hdead).
    by pose proof (Forall_lookup_1 _ _ _ _ Hdead Hi).
Qed.

(** The join is exact, first half: [deploy_parallel] returns its argument,
    and only when a thread has been started for every sequence and every
    thread has ended. *)
Lemma scripts_returns_after_all_ended (st : state W) c result :
  reachable client Scripts target stack_sequences st c →
  main c = Returned result →
  result = stack_sequences
  ∧ length (jobs c) = length stack_sequences
  ∧ Forall (λ job, is_alive job = false) (jobs c).
Proof.
  intros Hc Hmain. apply scripts_join_invariant in Hc.
  unfold join_invariant in Hc. by rewrite Hmain in Hc.
Qed.

(** Second half: once every thread has ended, the poll that follows
    returns; nothing else can happen. *)
Lemma scripts_returns_once_all_ended js (sh : state W) :
  Forall (λ job, is_alive job = false) js →
  step client Scripts target stack_sequences
    (Config Polling js sh) (Config (Returned stack_sequences) js sh)
  ∧ (∀ c, step client Scripts target stack_sequences (Config Polling js sh) c →
       c = Config (Returned stack_sequences) js sh)
  ∧ (∀ c, step client Scripts target stack_sequences (Config Sleeping js sh) c →
       c = Config Polling js sh).
Proof.
  intros Hdead. split_and!.
  - constructor. by apply loop_condition_scripts.
  - intros c Hstep. inversion Hstep as
      [| | ? ? Hcond | | | ? ? ? i X a k sh' x Hi]; subst; [| done |].
    + apply loop_condition_scripts in Hdead. congruence.
    + by pose proof (Forall_lookup_1 _ _ _ _ Hdead Hi).
  - intros c Hstep. inversion Hstep as [| | | | | ? ? ? i X a k sh' x Hi];
      subst; [done |].
    by pose proof (Forall_lookup_1 _ _ _ _ Hdead Hi).
Qed.

(** The copy under [scripts/] can always return: the threads end on
    their own, whatever the provider answers. *)
Lemma scripts_can_return (st : state W) :
  ∃ c, reachable client Scripts target stack_sequences st c
       ∧ main c = Returned stack_sequences.
Proof.
  pose proof (spawn_all client Scripts target stack_sequences
                stack_sequences [] st) as Hspawn.
  destruct (jobs_run_to_end client Scripts target stack_sequences Polling
              ([] ++ (target <$> stack_sequences)) st
              (length ([] ++ (target <$> stack_sequences))))
    as (js & sh & Hrun & Hlen & Hdead).
  exists (Config (Returned stack_sequences) js sh). split; [| done].
  unfold reachable, start. etrans; [done |]. etrans; [done |].
  apply rtc_once. constructor. apply loop_condition_scripts.
  apply Forall_lookup_2. intros i job Hi. apply (Hdead i); [| done].
  rewrite <- Hlen. by eapply lookup_lt_Some.
Qed.

(** With a single sequence there is a single thread, and the machine does
    to the shared state what [run] does: when the thread has ended, the
    state is the one [run] computes. *)
Lemma single_thread_agrees_with_run which stacks (st : state W) c :
  reachable client which target [stacks] st c →
  (main c = Spawning [stacks] ∧ jobs c = [] ∧ shared c = st)
  ∨ ((∀ s todo, main c ≠ Spawning (s :: todo))
     ∧ ∃ job, jobs c = [job]
         ∧ run client job (shared c) = run client (target stacks) st).
Proof.
  intros Hc.
  apply (reachable_invariant client which target [stacks]
           (λ c, (main c = Spawning [stacks] ∧ jobs c = [] ∧ shared c = st)
                 ∨ ((∀ s todo, main c ≠ Spawning (s :: todo))
                    ∧ ∃ job, jobs c = [job]
                        ∧ run client job (shared c) = run client (target stacks) st))
           st c); [by left | | done].
  intros c1 c2 _ H1 Hstep.
  destruct Hstep as [stacks' todo js sh | | | | | pc js sh i X a k sh' x Hi Hperform];
    cbn in *.
  - destruct H1 as [([= -> ->] & -> & ->) | (Hne & _)]; [| by destruct (Hne stacks' todo)].
    right. split; [done |]. by exists (target stacks).
  - destruct H1 as [(? & _) | (_ & H1)]; [done |]. by right.
  - destruct H1 as [(? & _) | (_ & H1)]; [done |]. by right.
  - destruct H1 as [(? & _) | (_ & H1)]; [done |]. by right.
  - destruct H1 as [(? & _) | (_ & H1)]; [done |]. by right.
  - destruct H1 as [(_ & -> & _) | (Hne & job & -> & Hrun)]; [done |].
    right. split; [done |]. destruct i as [| i]; [| done].
    injection Hi as ->. exists (k x). split; [done |].
    rewrite <- Hrun. cbn. by rewrite Hperform.
Qed.

End Join.

(** C1. The top-level copy, one sequence of two stacks, every call
    accepted: neither [deploy_parallel] nor [delete_parallel] ever returns,
    in no execution, although the only thread comes to an end. The
    condition of their [while] loop is a filter object, which is true even
    when it would yield no thread. *)
Theorem top_level_deploy_parallel_never_returns :
  (¬ ∃ c result,
       deploy_parallel (scripted [] []) TopLevel [[1; 2]] create_stack_fn
         (initial two_stacks) c
       ∧ main c = Returned result)
  ∧ (¬ ∃ c result,
         delete_parallel (scripted [] []) TopLevel [[1; 2]] (initial two_stacks) c
         ∧ main c = Returned result).
Proof.
  split; intros (c & result & Hc & Hmain); by eapply top_level_never_returns.
Qed.

(** The thread of that call does end, in the state [deploy_in_order]
    computes, and the caller is then still in its loop. *)
Example top_level_thread_ends :
  ∃ c, deploy_parallel (scripted [] []) TopLevel [[1; 2]] create_stack_fn
         (initial two_stacks) c
       ∧ main c = Polling
       ∧ jobs c = [Ret [1; 2]]
       ∧ shared c
         = (run (scripted [] []) (deploy_in_order TopLevel [1; 2] create_stack_fn)
              (initial two_stacks)).1.
Proof.
  eexists (Config Polling [_] _). split; [| done].
  unfold deploy_parallel, reachable, start.
  etrans; [apply (spawn_all _ _ _ _ [[1; 2]] []) |].
  pose proof (job_runs_to_end (scripted [] []) TopLevel
                (λ stacks, deploy_in_order TopLevel stacks create_stack_fn)
                [[1; 2]] Polling
                [deploy_in_order TopLevel [1; 2] create_stack_fn]
                (initial two_stacks) 0 _ eq_refl) as Hend.
  replace (run (scripted [] []) (deploy_in_order TopLevel [1; 2] create_stack_fn)
             (initial two_stacks)).2 with (inr [1; 2] : exn + list loc) in Hend
    by (vm_compute; reflexivity).
  exact Hend.
Qed.

(** The same call with the copy under [scripts/] can return, and does so
    only after its thread has ended. *)
Example scripts_deploy_parallel_returns :
  (∃ c, deploy_parallel (scripted [] []) Scripts [[1; 2]] create_stack_fn
          (initial two_stacks) c
        ∧ main c = Returned [[1; 2]])
  ∧ ∀ c result,
      deploy_parallel (scripted [] []) Scripts [[1; 2]] create_stack_fn
        (initial two_stacks) c →
      main c = Returned result →
      result = [[1; 2]] ∧ Forall (λ job, is_alive job = false) (jobs c).
Proof.
  split; [apply scripts_can_return |].
  intros c result Hc Hmain.
  by destruct (scripts_returns_after_all_ended _ _ _ _ _ _ Hc Hmain) as (? & _ & ?).
Qed.

(** ** Frame *)

Section FrameTheorem.
Context {W : Type} (client : provider W).

Lemma deploy_in_order_keeps_id which stack_params method (st : state W) r :
  is_Some ((heap st !!! r) !! "StackId") →
  is_Some ((heap (run client (deploy_in_order which stack_params method) st).1
              !!! r) !! "StackId").
Proof.
  intros Hsome.
  destruct (dispatch method) as [[[f wait_operation] message] |] eqn:Hd.
  - apply (deploy_in_order_invariant client
             (λ s, is_Some ((heap s !!! r) !! "StackId")) which stack_params
             method f wait_operation message st Hd); [| done | done].
    intros param s _ Hs. by eapply deploy_body_keeps_id.
  - unfold deploy_in_order. by rewrite Hd.
Qed.

Lemma delete_in_reverse_order_only_removes stack_params (st : state W) r :
  let after := (heap (run client (delete_in_reverse_order stack_params) st).1
                  !!! r) !! "StackId" in
  after = (heap st !!! r) !! "StackId" ∨ after = None.
Proof.
  apply (delete_in_reverse_order_invariant client
           (λ s, (heap s !!! r) !! "StackId" = (heap st !!! r) !! "StackId"
                 ∨ (heap s !!! r) !! "StackId" = None)); [| done | by left].
  intros param s _ Hs.
  destruct (delete_body_only_removes client param s r) as [-> | ->]; auto.
Qed.

(** C10. The runners write nothing but [StackId]: any other entry of any
    dictionary ([StackName], [TemplateBody], [Parameters], [Capabilities])
    is the same after [deploy_in_order] and after
    [delete_in_reverse_order], and at every moment of [deploy_parallel] and
    of [delete_parallel]. The forward runner never removes a [StackId]; the
    teardown runner leaves it as it was or removes it. *)
Theorem runners_write_stack_id_only which stack_params stack_sequences method
    (st : state W) r key :
  key ≠ "StackId" →
  let after_deploy := (run client (deploy_in_order which stack_params method) st).1 in
  let after_delete := (run client (delete_in_reverse_order stack_params) st).1 in
  (heap after_deploy !!! r) !! key = (heap st !!! r) !! key
  ∧ (heap after_delete !!! r) !! key = (heap st !!! r) !! key
  ∧ (is_Some ((heap st !!! r) !! "StackId") →
     is_Some ((heap after_deploy !!! r) !! "StackId"))
  ∧ ((heap after_delete !!! r) !! "StackId" = (heap st !!! r) !! "StackId"
     ∨ (heap after_delete !!! r) !! "StackId" = None)
  ∧ (∀ c, deploy_parallel client which stack_sequences method st c →
       (heap (shared c) !!! r) !! key = (heap st !!! r) !! key)
  ∧ (∀ c, delete_parallel client which stack_sequences st c →
       (heap (shared c) !!! r) !! key = (heap st !!! r) !! key).
Proof.
  intros Hkey. cbv zeta. split_and!.
  - apply deploy_in_order_frame. by right.
  - apply delete_in_reverse_order_frame. by right.
  - apply deploy_in_order_keeps_id.
  - apply delete_in_reverse_order_only_removes.
  - intros c Hc. eapply threads_frame; [| done | done].
    intros stacks. apply deploy_in_order_writes.
  - intros c Hc. eapply threads_frame; [| done | done].
    intros stacks. apply delete_in_reverse_order_writes.
Qed.

End FrameTheorem.

Lemma runners_write_stack_id_only_witness :
  let st := initial two_stacks in
  let after_deploy :=
    (run (scripted [] []) (deploy_in_order TopLevel [1; 2] create_stack_fn) st).1 in
  let after_delete := (run (scripted [] []) (delete_in_reverse_order [1; 2]) st).1 in
  (heap after_deploy !!! 1) !! "StackName" = (heap st !!! 1) !! "StackName"
  ∧ (heap after_delete !!! 1) !! "StackName" = (heap st !!! 1) !! "StackName"
  ∧ (is_Some ((heap st !!! 1) !! "StackId") →
     is_Some ((heap after_deploy !!! 1) !! "StackId"))
  ∧ ((heap after_delete !!! 1) !! "StackId" = (heap st !!! 1) !! "StackId"
     ∨ (heap after_delete !!! 1) !! "StackId" = None)
  ∧ (∀ c, deploy_parallel (scripted [] []) TopLevel [[1; 2]] create_stack_fn st c →
       (heap (shared c) !!! 1) !! "StackName" = (heap st !!! 1) !! "StackName")
  ∧ (∀ c, delete_parallel (scripted [] []) TopLevel [[1; 2]] st c →
       (heap (shared c) !!! 1) !! "StackName" = (heap st !!! 1) !! "StackName").
Proof.
  apply (runners_write_stack_id_only (scripted [] []) TopLevel [1; 2] [[1; 2]]
           create_stack_fn (initial two_stacks) 1 "StackName").
  discriminate.
Defined.

(** A teardown of dictionaries that never had a [StackId] runs to its end:
    [pop("StackId", None)] does not mind. *)
Example teardown_tolerates_absent_id :
  let final := (run (scripted [] []) (delete_in_reverse_order [1; 2])
                  (initial two_stacks)).1 in
  heap final = two_stacks
  ∧ last (log final) = Some (INFO (VStr "git-A") " is deleted").
Proof. vm_compute. done. Qed.

(** ** Failure containment *)

Section Containment.
Context {W : Type} (client : provider W).

(** Whatever the caller gets back from the orchestrator is its own
    argument. *)
Lemma returned_result which target stack_sequences (st : state W) c result :
  reachable client which target stack_sequences st c →
  main c = Returned result → result = stack_sequences.
Proof.
  intros Hc.
  apply (reachable_invariant client which target stack_sequences
           (λ c, main c = Returned result → result = stack_sequences) st c);
    [done | | done].
  intros c1 c2 _ H1 Hstep. destruct Hstep; cbn in *; try done.
  by intros [= <-].
Qed.

Lemma never_raises_step {X : Type} (a : action X) (k : X → prog (list loc)) x :
  never_raises (Vis a k) → never_raises (k x).
Proof. intros H. apply H. Qed.

(** An exception raised inside the loop (by a client call, a wait or a
    subscript) goes no further than the runner: the runner logs it and
    returns its argument, and so it returns its argument in every case.
    In the orchestrator no thread ever ends on an exception, and what the
    caller gets back, if it gets anything back, is its argument. *)
Lemma runners_contain_failures which stack_params stack_sequences method
    (st : state W) :
  method = create_stack_fn ∨ method = update_stack_fn →
  (run client (deploy_in_order which stack_params method) st).2 = inr stack_params
  ∧ (∀ f wait_operation message st' e,
       dispatch method = Some (f, wait_operation, message) →
       run client (for_each stack_params
                     (deploy_body which f wait_operation message)) st
         = (st', inl e) →
       run client (deploy_in_order which stack_params method) st
         = (emit (ERROR e) st', inr stack_params))
  ∧ (run client (delete_in_reverse_order stack_params) st).2 = inr stack_params
  ∧ (∀ st' e,
       run client (for_each (reverse stack_params) delete_body) st = (st', inl e) →
       run client (delete_in_reverse_order stack_params) st
         = (emit (ERROR e) st', inr stack_params))
  ∧ (∀ c, deploy_parallel client which stack_sequences method st c →
       Forall never_raises (jobs c)
       ∧ ∀ result, main c = Returned result → result = stack_sequences)
  ∧ (∀ c, delete_parallel client which stack_sequences st c →
       Forall never_raises (jobs c)
       ∧ ∀ result, main c = Returned result → result = stack_sequences).
Proof.
  intros Hm. destruct (dispatch_valid _ Hm) as (f & message & Hd). split_and!.
  - rewrite (run_deploy_in_order _ _ _ _ _ _ _ _ Hd).
    by destruct (run client (for_each stack_params _) st) as [st' [e | []]].
  - intros f' wait_operation message' st' e Hd' Hloop.
    by rewrite (run_deploy_in_order _ _ _ _ _ _ _ _ Hd'), Hloop.
  - rewrite run_delete_in_reverse_order.
    by destruct (run client (for_each (reverse stack_params) _) st)
      as [st' [e | []]].
  - intros st' e Hloop. by rewrite run_delete_in_reverse_order, Hloop.
  - intros c Hc. split.
    + eapply jobs_invariant; [| | done].
      * intros stacks. by apply deploy_in_order_never_raises.
      * intros X a k x. apply never_raises_step.
    + intros result. by eapply returned_result.
  - intros c Hc. split.
    + eapply jobs_invariant; [| | done].
      * intros stacks. apply delete_in_reverse_order_never_raises.
      * intros X a k x. apply never_raises_step.
    + intros result. by eapply returned_result.
Qed.

End Containment.

(** The provider rejects the second stack: the runner still returns its
    argument, with the rejection as last log record. *)
Example runner_contains_rejection :
  run (scripted ["build-A"] [])
    (deploy_in_order TopLevel [1; 2; 3] create_stack_fn) (initial three_stacks)
  = (emit (ERROR (ClientError "rejected")) after_build, inr [1; 2; 3]).
Proof.
  destruct (runners_contain_failures (scripted ["build-A"] []) TopLevel [1; 2; 3] []
              create_stack_fn (initial three_stacks)) as (_ & Hlog & _);
    [by left |].
  apply (Hlog create_stack "stack_create_complete" "created"); [reflexivity |].
  vm_compute. reflexivity.
Qed.


(** ** Life cycle of the remote identifier *)

Lemma last_completed_app name tr evs :
  last_completed name (tr ++ evs) = fold_left (note name) evs (last_completed name tr).
Proof. apply fold_left_app. Qed.

Section Lifecycle.
Context {W : Type} (client : provider W).

Lemma well_tracked_emit l (st : state W) : well_tracked st → well_tracked (emit l st).
Proof. done. Qed.

Lemma lifecycle_call_event method kwargs outcome :
  lifecycle (call_event method kwargs outcome)
  = match outcome with
    | inr _ => Some (kwargs !! "StackName", true)
    | inl _ => None
    end.
Proof. by destruct method, outcome. Qed.

Lemma deploy_body_well_tracked which method f wait_operation message param
    (st : state W) :
  hands_out_ids client →
  dispatch method = Some (f, wait_operation, message) →
  well_tracked st →
  well_tracked (run client (deploy_body which f wait_operation message param) st).1.
Proof.
  intros Hids Hd [Huniq Hinv].
  assert (wait_operation ≠ "stack_delete_complete") as Hop
    by (by destruct (dispatch_Some _ _ _ _ Hd) as [(_ & _ & -> & _) | (_ & _ & -> & _)]).
  split.
  { intros p1 p2 name. unfold stack_name.
    rewrite !(deploy_body_frame client which method f wait_operation message
                param st _ "StackName" Hd) by (by right).
    apply Huniq. }
  intros p name. unfold stack_name.
  rewrite (deploy_body_frame client which method f wait_operation message
             param st p "StackName" Hd) by (by right).
  intros Hp. specialize (Hinv p name Hp). revert Hinv.
  deploy_cases Hd; cbn [heap trace emit called store_id set_heap] in *;
    intros Hinv.
  - rewrite last_completed_app. cbn. unfold note.
    by rewrite lifecycle_call_event.
  - destruct (Hids _ _ _ _ _ Hcall) as (stack_id & Hsome & _). congruence.
  - rewrite last_completed_app. cbn. unfold note at 1.
    rewrite lifecycle_call_event.
    match goal with H : _ !! "StackName" = None |- _ => rewrite H end.
    rewrite heap_store_lookup, decide_False; [done |].
    intros [-> _]. unfold stack_name in Hp. congruence.
  - rewrite <- app_assoc, last_completed_app. cbn. unfold note.
    rewrite lifecycle_call_event. cbn.
    match goal with H : _ !! "StackName" = Some _ |- _ => rewrite H end.
    rewrite heap_store_lookup.
    destruct (decide (name0 = name)) as [-> | Hne].
    + rewrite decide_True; [done |]. split; [| done]. by eapply Huniq.
    + rewrite decide_False; [done |].
      intros [-> _]. unfold stack_name in Hp. congruence.
  - rewrite <- app_assoc, last_completed_app. cbn. unfold note.
    rewrite lifecycle_call_event. cbn. rewrite decide_False by done.
    match goal with H : _ !! "StackName" = Some _ |- _ => rewrite H end.
    rewrite heap_store_lookup.
    destruct (decide (name0 = name)) as [-> | Hne].
    + rewrite decide_True; [done |]. split; [| done]. by eapply Huniq.
    + rewrite decide_False; [done |].
      intros [-> _]. unfold stack_name in Hp. congruence.
Qed.

Lemma delete_body_well_tracked param (st : state W) :
  well_tracked st → well_tracked (run client (delete_body param) st).1.
Proof.
  intros [Huniq Hinv]. split.
  { intros p1 p2 name. unfold stack_name.
    rewrite !(delete_body_frame client param st _ "StackName") by (by right).
    apply Huniq. }
  intros p name. unfold stack_name.
  rewrite (delete_body_frame client param st p "StackName") by (by right).
  intros Hp. specialize (Hinv p name Hp). revert Hinv.
  delete_cases; cbn [heap trace emit called pop_id set_heap] in *;
    intros Hinv; try done.
  - by rewrite last_completed_app.
  - by rewrite <- app_assoc, last_completed_app.
  - rewrite <- app_assoc, last_completed_app. cbn. unfold note. cbn.
    rewrite (decide_True (P := "stack_delete_complete" = "stack_delete_complete"))
      by done.
    rewrite heap_pop_lookup.
    destruct (decide (name0 = name)) as [-> | Hne].
    + rewrite decide_True; [| split; [| done]; by eapply Huniq].
      split; [by intros [? ?] | done].
    + rewrite decide_False; [done |].
      intros [-> _]. unfold stack_name in Hp. congruence.
Qed.

End Lifecycle.

Section LifecycleTheorem.
Context {W : Type} (client : provider W).

(** A create or update call that returns leaves its identifier in the
    dictionary, whatever the wait does afterwards. *)
Lemma deploy_body_sets_id which method f wait_operation message param
    (st : state W) w response :
  hands_out_ids client →
  dispatch method = Some (f, wait_operation, message) →
  provider_call client method (heap st !!! param) (world st) = (w, inr response) →
  ∃ stack_id,
    response !! "StackId" = Some stack_id ∧ nonempty stack_id
    ∧ (heap (run client (deploy_body which f wait_operation message param) st).1
         !!! param) !! "StackId" = Some stack_id.
Proof.
  intros Hids Hd Hcall.
  destruct (Hids _ _ _ _ _ Hcall) as (stack_id & Hsome & Hne).
  exists stack_id. split_and!; [done | done |].
  deploy_cases Hd; cbn [heap emit called] in *; simplify_eq;
    rewrite store_id_lookup; by rewrite decide_True.
Qed.

Lemma deploy_body_keeps_has_id which method f wait_operation message param
    (st : state W) r :
  hands_out_ids client →
  dispatch method = Some (f, wait_operation, message) →
  has_id st r →
  has_id (run client (deploy_body which f wait_operation message param) st).1 r.
Proof.
  intros Hids Hd (old & Hold & Hne). unfold has_id.
  deploy_cases Hd; cbn [heap emit called] in *; eauto;
    rewrite store_id_lookup; case_decide; eauto;
    destruct (Hids _ _ _ _ _ Hcall) as (stack_id' & ? & ?); simplify_eq; eauto.
Qed.

Lemma deploy_body_completed_has_id which method f wait_operation message param
    (st st' : state W) :
  hands_out_ids client →
  dispatch method = Some (f, wait_operation, message) →
  run client (deploy_body which f wait_operation message param) st = (st', inr tt) →
  has_id st' param.
Proof.
  intros Hids Hd Hrun. unfold has_id. revert Hrun.
  deploy_cases Hd; intros [= <-]; cbn [heap emit called].
  destruct (Hids _ _ _ _ _ Hcall) as (stack_id' & ? & ?); simplify_eq.
  rewrite store_id_lookup, decide_True by done. eauto.
Qed.

Lemma deploy_loop_completed_has_id which method f wait_operation message
    stack_params (st st' : state W) :
  hands_out_ids client →
  dispatch method = Some (f, wait_operation, message) →
  run client (for_each stack_params
                (deploy_body which f wait_operation message)) st = (st', inr tt) →
  ∀ param, param ∈ stack_params → has_id st' param.
Proof.
  intros Hids Hd. revert st.
  induction stack_params as [| x xs IH]; intros st Hrun param Hin;
    [by apply elem_of_nil in Hin |].
  rewrite run_for_each_cons in Hrun.
  destruct (run client (deploy_body which f wait_operation message x) st)
    as [st1 [e | []]] eqn:Hbody; [done |].
  destruct (decide (param ∈ xs)) as [Hxs | Hxs]; [by eapply IH |].
  apply elem_of_cons in Hin as [-> | ?]; [| done].
  pose proof (deploy_body_completed_has_id _ _ _ _ _ _ _ _ Hids Hd Hbody) as Hx.
  pose proof (for_each_invariant client (λ s, has_id s x)
                (deploy_body which f wait_operation message) xs st1) as Hinv.
  rewrite Hrun in Hinv. apply Hinv; [| done].
  intros y s _ Hs. by eapply deploy_body_keeps_has_id.
Qed.

Lemma delete_body_completed_no_id param (st : state W) :
  returned (run client (delete_body param) st).2 →
  (heap (run client (delete_body param) st).1 !!! param) !! "StackId" = None.
Proof.
  delete_cases; try done. intros _. cbn [heap emit].
  by rewrite pop_id_lookup, decide_True.
Qed.

Lemma delete_body_keeps_no_id param (st : state W) r :
  (heap st !!! r) !! "StackId" = None →
  (heap (run client (delete_body param) st).1 !!! r) !! "StackId" = None.
Proof.
  intros Hnone.
  by destruct (delete_body_only_removes client param st r) as [-> | ->].
Qed.

Lemma delete_loop_completed_no_id xs (st st' : state W) :
  run client (for_each xs delete_body) st = (st', inr tt) →
  ∀ param, param ∈ xs → (heap st' !!! param) !! "StackId" = None.
Proof.
  revert st. induction xs as [| x xs IH]; intros st Hrun param Hin;
    [by apply elem_of_nil in Hin |].
  rewrite run_for_each_cons in Hrun.
  pose proof (delete_body_completed_no_id x st) as Hx.
  destruct (run client (delete_body x) st) as [st1 [e | []]] eqn:Hbody; [done |].
  destruct (decide (param ∈ xs)) as [Hxs | Hxs]; [by eapply IH |].
  apply elem_of_cons in Hin as [-> | ?]; [| done].
  pose proof (for_each_invariant client
                (λ s, (heap s !!! x) !! "StackId" = None)
                delete_body xs st1) as Hinv.
  rewrite Hrun in Hinv. apply Hinv; [| by apply Hx].
  intros y s _ Hs. by apply delete_body_keeps_no_id.
Qed.

(** C5, as amended. With a provider that hands out a non-empty [StackId]
    on every successful create or update, and dictionaries with distinct
    stack names:
    - a create or update call that returns leaves the identifier it
      returned in the dictionary, and it is non-empty; after a forward run
      that reached its end every dictionary of the sequence has one;
    - an iteration of the teardown that reaches its end (delete call and
      wait both successful) leaves the dictionary without [StackId]; after
      a teardown that reached its end no dictionary of the sequence has
      one;
    - between the iterations of a runner, that is before the first one,
      after each one (also the one that failed) and when the runner
      returns, a named dictionary has a [StackId] exactly when, in the
      trace, the last completed create or update of its stack is not
      followed by a completed delete. Inside an iteration, between a
      provider call and the statement that stores or removes the
      identifier, this does not hold. *)
Theorem identifier_lifecycle which stack_params method (st : state W) :
  hands_out_ids client →
  well_tracked st →
  (∀ f wait_operation message param w response,
     dispatch method = Some (f, wait_operation, message) →
     provider_call client method (heap st !!! param) (world st)
       = (w, inr response) →
     ∃ stack_id,
       response !! "StackId" = Some stack_id ∧ nonempty stack_id
       ∧ (heap (run client (deploy_body which f wait_operation message param) st).1
            !!! param) !! "StackId" = Some stack_id)
  ∧ (deploy_runs_to_end client which stack_params method st →
     ∀ param, param ∈ stack_params →
       has_id (run client (deploy_in_order which stack_params method) st).1 param)
  ∧ (∀ param,
       returned (run client (delete_body param) st).2 →
       (heap (run client (delete_body param) st).1 !!! param) !! "StackId" = None)
  ∧ (delete_runs_to_end client stack_params st →
     ∀ param, param ∈ stack_params →
       (heap (run client (delete_in_reverse_order stack_params) st).1 !!! param)
         !! "StackId" = None)
  ∧ (∀ f wait_operation message pre post,
       dispatch method = Some (f, wait_operation, message) →
       stack_params = pre ++ post →
       well_tracked
         (run client (for_each pre (deploy_body which f wait_operation message))
            st).1)
  ∧ (∀ pre post,
       reverse stack_params = pre ++ post →
       well_tracked (run client (for_each pre delete_body) st).1)
  ∧ well_tracked (run client (deploy_in_order which stack_params method) st).1
  ∧ well_tracked (run client (delete_in_reverse_order stack_params) st).1.
Proof.
  intros Hids Hst. split_and!.
  - intros f wait_operation message param w response Hd Hcall.
    by eapply deploy_body_sets_id.
  - unfold deploy_runs_to_end.
    destruct (dispatch method) as [[[f wait_operation] message] |] eqn:Hd; [| done].
    rewrite (run_deploy_in_order _ _ _ _ _ _ _ _ Hd).
    destruct (run client (for_each stack_params _) st) as [st' [e | []]] eqn:Hloop;
      [done |].
    intros _ param Hin. cbn [fst].
    by eapply deploy_loop_completed_has_id.
  - intros param. apply delete_body_completed_no_id.
  - unfold delete_runs_to_end. rewrite run_delete_in_reverse_order.
    destruct (run client (for_each (reverse stack_params) _) st)
      as [st' [e | []]] eqn:Hloop; [done |].
    intros _ param Hin. cbn [fst].
    eapply delete_loop_completed_no_id; [done |]. by apply elem_of_reverse.
  - intros f wait_operation message pre post Hd _.
    apply (for_each_invariant client (λ s, well_tracked s)); [| done].
    intros param s _ Hs. by eapply deploy_body_well_tracked.
  - intros pre post _.
    apply (for_each_invariant client (λ s, well_tracked s)); [| done].
    intros param s _ Hs. by apply delete_body_well_tracked.
  - destruct (dispatch method) as [[[f wait_operation] message] |] eqn:Hd.
    + apply (deploy_in_order_invariant client (λ s, well_tracked s) which
               stack_params method f wait_operation message st Hd); [| done | done].
      intros param s _ Hs. by eapply deploy_body_well_tracked.
    + unfold deploy_in_order. by rewrite Hd.
  - apply (delete_in_reverse_order_invariant client (λ s, well_tracked s));
      [| done | done].
    intros param s _ Hs. by apply delete_body_well_tracked.
Qed.

End LifecycleTheorem.

Lemma scripted_hands_out_ids bad_calls bad_waits :
  hands_out_ids (scripted bad_calls bad_waits).
Proof.
  intros method kwargs w w' response Hcall.
  assert (scripted_call bad_calls kwargs w = (w', inr response)) as H
    by (by destruct method).
  unfold scripted_call in H. destruct (name_in _ _); [done |].
  injection H as _ <-. exists (arn (kwargs !! "StackName")).
  split; [apply lookup_singleton_eq |].
  by destruct (kwargs !! "StackName") as [[] |].
Qed.

Lemma two_stacks_names p name :
  stack_name (initial two_stacks) p = Some name →
  (p = 1 ∧ name = VStr "git-A") ∨ (p = 2 ∧ name = VStr "build-A").
Proof.
  unfold stack_name, initial, two_stacks. cbn [heap].
  destruct (decide (p = 1)) as [-> | H1].
  { rewrite lookup_total_insert_eq. vm_compute. intros [= <-]. by left. }
  rewrite lookup_total_insert_ne by done.
  destruct (decide (p = 2)) as [-> | H2].
  { rewrite lookup_total_singleton_eq. vm_compute. intros [= <-]. by right. }
  rewrite lookup_total_singleton_ne by done. done.
Qed.

Lemma two_stacks_no_id p : (heap (initial two_stacks) !!! p) !! "StackId" = None.
Proof.
  unfold initial, two_stacks. cbn [heap].
  destruct (decide (p = 1)) as [-> | H1].
  { rewrite lookup_total_insert_eq. by vm_compute. }
  rewrite lookup_total_insert_ne by done.
  destruct (decide (p = 2)) as [-> | H2].
  { rewrite lookup_total_singleton_eq. by vm_compute. }
  rewrite lookup_total_singleton_ne by done. done.
Qed.

Lemma two_stacks_well_tracked : well_tracked (initial two_stacks).
Proof.
  split.
  - intros p1 p2 name H1 H2.
    destruct (two_stacks_names _ _ H1) as [[-> ->] | [-> ->]],
             (two_stacks_names _ _ H2) as [[-> ?] | [-> ?]]; done.
  - intros p name _. rewrite two_stacks_no_id. cbn. split; [by intros [? ?] | done].
Qed.

Lemma identifier_lifecycle_witness :
  let created :=
    (run (scripted [] []) (deploy_in_order TopLevel [1; 2] create_stack_fn)
       (initial two_stacks)).1 in
  let between :=
    (run (scripted [] [])
       (for_each [1] (deploy_body TopLevel create_stack "stack_create_complete"
                        "created"))
       (initial two_stacks)).1 in
  (∀ param, param ∈ [1; 2] → has_id created param)
  ∧ well_tracked between ∧ well_tracked created.
Proof.
  destruct (identifier_lifecycle (scripted [] []) TopLevel [1; 2] create_stack_fn
              (initial two_stacks) (scripted_hands_out_ids [] [])
              two_stacks_well_tracked)
    as (_ & Hids & _ & _ & Hbetween & _ & Htracked & _).
  split_and!; [| | exact Htracked].
  - apply Hids. vm_compute. exact I.
  - apply (Hbetween create_stack "stack_create_complete" "created" [1] [2]);
      reflexivity.
Defined.

(** C5 as first stated fails. Inside an iteration: when the
    create call for the first stack has returned and its identifier is not
    stored yet, the stack is created and the dictionary has no [StackId].
    Without the contract of the provider: a response without [StackId]
    leaves the dictionary without one after a successful create, and a
    response with an empty one leaves an empty one. *)
Lemma identifier_lifecycle_counterexample :
  (∃ c, deploy_parallel (scripted [] []) TopLevel [[1]] create_stack_fn
          (initial two_stacks) c
        ∧ last_completed (VStr "git-A") (trace (shared c)) = Some true
        ∧ (heap (shared c) !!! 1) !! "StackId" = None
        ∧ ¬ lifecycle_invariant (shared c))
  ∧ (let final :=
       (run (lenient ∅) (deploy_in_order TopLevel [1] create_stack_fn)
          (initial two_stacks)).1 in
     last_completed (VStr "git-A") (trace final) = Some true
     ∧ (heap final !!! 1) !! "StackId" = None
     ∧ ¬ lifecycle_invariant final)
  ∧ (let final :=
       (run (lenient {[ "StackId" := VStr "" ]})
          (deploy_in_order TopLevel [1] create_stack_fn) (initial two_stacks)).1 in
     (heap final !!! 1) !! "StackId" = Some (VStr "")
     ∧ ¬ nonempty (VStr "")).
Proof.
  split_and!.
  - eexists. split_and!.
    + unfold deploy_parallel, reachable, start.
      eapply rtc_l; [apply step_start |].
      eapply rtc_l; [| apply rtc_refl].
      eapply (step_job _ _ _ _ _ _ _ 0 _ (ClientCreateStack 1));
        [reflexivity | reflexivity].
    + reflexivity.
    + reflexivity.
    + intros Hinv. specialize (Hinv 1 (VStr "git-A") eq_refl).
      destruct Hinv as [_ Hinv]. by destruct (Hinv eq_refl).
  - cbv zeta. split_and!; [reflexivity | reflexivity |].
    intros Hinv. specialize (Hinv 1 (VStr "git-A") eq_refl).
    destruct Hinv as [_ Hinv]. by destruct (Hinv eq_refl).
  - cbv zeta. split; [reflexivity |]. cbn. by intros H.
Qed.

(** Creating the two stacks and tearing them down again. *)
Example create_then_delete :
  let created :=
    (run (scripted [] []) (deploy_in_order TopLevel [1; 2] create_stack_fn)
       (initial two_stacks)).1 in
  let deleted := (run (scripted [] []) (delete_in_reverse_order [1; 2]) created).1 in
  (heap created !!! 1) !! "StackId" = Some (VStr "arn:git-A")
  ∧ (heap created !!! 2) !! "StackId" = Some (VStr "arn:build-A")
  ∧ last_completed (VStr "git-A") (trace created) = Some true
  ∧ (heap deleted !!! 1) !! "StackId" = None
  ∧ (heap deleted !!! 2) !! "StackId" = None
  ∧ last_completed (VStr "git-A") (trace deleted) = Some false
  ∧ heap deleted = two_stacks.
Proof. vm_compute. done. Qed.

(** The create call is accepted but the wait fails: the identifier stays. *)
Example failed_wait_keeps_id :
  let final :=
    (run (scripted [] ["git-A"]) (deploy_in_order TopLevel [1; 2] create_stack_fn)
       (initial two_stacks)).1 in
  (heap final !!! 1) !! "StackId" = Some (VStr "arn:git-A")
  ∧ (heap final !!! 2) !! "StackId" = None
  ∧ last_completed (VStr "git-A") (trace final) = Some true.
Proof. vm_compute. done. Qed.

(** * More properties *)

(** * Further properties of the runners *)

(** ** Teardown: abort, and undoing a deployment *)

Section Teardown.
Context {W : Type} (client : provider W).

Lemma heap_eq_of_lookups (h1 h2 : store) r :
  (∀ key, (h1 !!! r) !! key = (h2 !!! r) !! key) → h1 !!! r = h2 !!! r.
Proof. intros H. by apply map_eq. Qed.

(** X1. If the iteration of the teardown for [param] raises, after the
    dictionaries behind it have been dealt with, the runner logs the
    exception and stops: the state it returns is the one the failing
    iteration left, plus the error record; it is the state reached on the
    sequence that starts at [param]; the calls made are among those for
    [param] and the dictionaries behind it; and a dictionary that only occurs
    before [param] is as it was, its [StackId] included. *)
Theorem teardown_abort_on_failure pre param post (st st1 st2 : state W) e :
  run client (for_each (reverse post) delete_body) st = (st1, inr tt) →
  run client (delete_body param) st1 = (st2, inl e) →
  let final := (run client (delete_in_reverse_order (pre ++ param :: post)) st).1 in
  final = emit (ERROR e) st2
  ∧ final = (run client (delete_in_reverse_order (param :: post)) st).1
  ∧ (∃ evs, trace final = trace st ++ evs
            ∧ event_call <$> evs `prefix_of` teardown_calls st (param :: post))
  ∧ ∀ r, r ∈ pre → r ∉ post → r ≠ param → heap final !!! r = heap st !!! r.
Proof.
  intros Hpost Hparam final.
  assert (final = emit (ERROR e) st2) as Hfinal.
  { subst final. rewrite run_delete_in_reverse_order.
    rewrite reverse_app, reverse_cons, <- app_assoc.
    rewrite run_for_each_app, Hpost. cbn [app].
    by rewrite run_for_each_cons, Hparam. }
  assert (final = (run client (delete_in_reverse_order (param :: post)) st).1)
    as Hcut.
  { rewrite Hfinal, run_delete_in_reverse_order, reverse_cons.
    rewrite run_for_each_app, Hpost. by rewrite run_for_each_cons, Hparam. }
  split_and!; [done | done | |].
  - destruct (delete_in_reverse_order_follows client (param :: post) st)
      as (evs & Ht & Hp & _).
    exists evs. by rewrite Hcut.
  - intros r Hpre Hnpost Hnparam. rewrite Hcut.
    apply heap_eq_of_lookups. intros key.
    apply delete_in_reverse_order_frame. left.
    intros [-> | ?]%elem_of_cons; done.
Qed.

(** X2. A teardown that runs to its end undoes what a forward run did to
    the dictionaries, however far that run got: if no dictionary of the
    sequence had a [StackId] before the forward run, every dictionary of the
    store is afterwards what it was before. *)
Theorem teardown_undoes_deployment which stack_params method (st : state W) :
  (∀ p, p ∈ stack_params → (heap st !!! p) !! "StackId" = None) →
  delete_runs_to_end client stack_params
    (run client (deploy_in_order which stack_params method) st).1 →
  ∀ r,
    heap (run client (delete_in_reverse_order stack_params)
            (run client (deploy_in_order which stack_params method) st).1).1 !!! r
    = heap st !!! r.
Proof.
  intros Hfresh Hend r. set (deployed := (run client (deploy_in_order _ _ _) st).1) in *.
  apply heap_eq_of_lookups. intros key.
  destruct (decide (r ∈ stack_params ∧ key = "StackId")) as [[Hin ->] | Hout].
  - rewrite (Hfresh r Hin). unfold delete_runs_to_end in Hend.
    rewrite run_delete_in_reverse_order.
    destruct (run client (for_each (reverse stack_params) delete_body) deployed)
      as [st' [e | []]] eqn:Hloop; [done |].
    cbn [fst]. eapply delete_loop_completed_no_id; [done |].
    by apply elem_of_reverse.
  - assert (r ∉ stack_params ∨ key ≠ "StackId") as Hne.
    { destruct (decide (r ∈ stack_params)); [right | by left].
      intros ->. by apply Hout. }
    rewrite delete_in_reverse_order_frame by done.
    by apply deploy_in_order_frame.
Qed.

End Teardown.

Lemma teardown_abort_on_failure_witness :
  let st := initial three_stacks in
  let final := (run (scripted ["build-A"] [])
                  (delete_in_reverse_order ([1] ++ 2 :: [3])) st).1 in
  final = emit (ERROR (ClientError "rejected"))
            (run (scripted ["build-A"] []) (delete_body 2)
               (run (scripted ["build-A"] []) (for_each (reverse [3]) delete_body)
                  st).1).1
  ∧ final = (run (scripted ["build-A"] []) (delete_in_reverse_order (2 :: [3])) st).1
  ∧ (∃ evs, trace final = trace st ++ evs
            ∧ event_call <$> evs `prefix_of` teardown_calls st (2 :: [3]))
  ∧ ∀ r, r ∈ [1] → r ∉ [3] → r ≠ 2 → heap final !!! r = heap st !!! r.
Proof.
  apply (teardown_abort_on_failure (scripted ["build-A"] []) [1] 2 [3]
           (initial three_stacks)
           (run (scripted ["build-A"] []) (for_each (reverse [3]) delete_body)
              (initial three_stacks)).1).
  - vm_compute. reflexivity.
  - vm_compute. reflexivity.
Defined.

Lemma teardown_undoes_deployment_witness :
  let deployed :=
    (run (scripted [] []) (deploy_in_order TopLevel [1; 2] create_stack_fn)
       (initial two_stacks)).1 in
  heap (run (scripted [] []) (delete_in_reverse_order [1; 2]) deployed).1 !!! 1
  = heap (initial two_stacks) !!! 1
  ∧ heap (run (scripted [] []) (delete_in_reverse_order [1; 2]) deployed).1 !!! 2
    = heap (initial two_stacks) !!! 2.
Proof.
  split;
    (apply (teardown_undoes_deployment (scripted [] []) TopLevel [1; 2]
              create_stack_fn (initial two_stacks));
     [intros p _; apply two_stacks_no_id | vm_compute; exact I]).
Defined.

(** ** The log of a run *)

Lemma logs_progress_nil (before : list log_record) : logs_progress 0 before before (inr tt).
Proof.
  exists []. rewrite app_nil_r. split_and!; [done | done | done |].
  intros Hr. by destruct Hr.
Qed.

Lemma logs_progress_abort k (before after : list log_record) e :
  logs_progress 1 before after (inl e) → logs_progress (S k) before after (inl e).
Proof.
  intros (infos & -> & Hall & _ & Hlt). exists infos.
  split_and!; [done | done | done |]. intros H. specialize (Hlt H). lia.
Qed.

Lemma logs_progress_app k (l1 l2 l3 : list log_record) res :
  logs_progress 1 l1 l2 (inr tt) → logs_progress k l2 l3 res →
  logs_progress (S k) l1 l3 res.
Proof.
  intros (i1 & -> & Hall1 & Hlen1 & _) (i2 & -> & Hall2 & Hlen2 & Hlt2).
  exists (i1 ++ i2). rewrite app_assoc, length_app, (Hlen1 I).
  split_and!; [done | by apply Forall_app | |].
  - intros H. rewrite (Hlen2 H). lia.
  - intros H. specialize (Hlt2 H). lia.
Qed.

Section Log.
Context {W : Type} (client : provider W).

Lemma for_each_logs_progress {A : Type} (body : A → prog unit) xs (st : state W) :
  (∀ x s, logs_progress 1 (log s) (log (run client (body x) s).1)
            (run client (body x) s).2) →
  logs_progress (length xs) (log st) (log (run client (for_each xs body) st).1)
    (run client (for_each xs body) st).2.
Proof.
  intros Hbody. revert st. induction xs as [| x xs IH]; intros st;
    [apply logs_progress_nil |].
  rewrite run_for_each_cons. pose proof (Hbody x st) as Hx.
  destruct (run client (body x) st) as [st1 [e | []]]; cbn [fst snd length] in *.
  - by apply logs_progress_abort.
  - eapply logs_progress_app; [done | apply IH].
Qed.

Lemma deploy_body_logs_progress which method f wait_operation message param
    (st : state W) :
  dispatch method = Some (f, wait_operation, message) →
  logs_progress 1 (log st)
    (log (run client (deploy_body which f wait_operation message param) st).1)
    (run client (deploy_body which f wait_operation message param) st).2.
Proof.
  intros Hd. deploy_cases Hd; cbn [log emit called store_id set_heap].
  - exists []. rewrite app_nil_r. split_and!; [done | done | done | cbn; lia].
  - exists []. rewrite app_nil_r. split_and!; [done | done | done | cbn; lia].
  - exists []. rewrite app_nil_r. split_and!; [done | done | done | cbn; lia].
  - eexists [_]. split_and!; [done | by repeat constructor | done | cbn; lia].
  - eexists [_; _]. rewrite <- app_assoc.
    split_and!; [done | by repeat constructor | done |]. intros Hr. by destruct Hr.
Qed.

Lemma delete_body_logs_progress param (st : state W) :
  logs_progress 1 (log st) (log (run client (delete_body param) st).1)
    (run client (delete_body param) st).2.
Proof.
  delete_cases; cbn [log emit called pop_id set_heap].
  - exists []. rewrite app_nil_r. split_and!; [done | done | done | cbn; lia].
  - exists []. rewrite app_nil_r. split_and!; [done | done | done | cbn; lia].
  - eexists [_]. split_and!; [done | by repeat constructor | done | cbn; lia].
  - eexists [_; _]. rewrite <- app_assoc.
    split_and!; [done | by repeat constructor | done |]. intros Hr. by destruct Hr.
Qed.

(** X3. Each runner reports a failure once, and last: what a call of
    [deploy_in_order] (with [create_stack] or [update_stack]) or of
    [delete_in_reverse_order] adds to the log is progress messages only,
    two per dictionary, when its loop runs to its end; otherwise it is
    fewer progress messages than that, followed by one error record. *)
Theorem error_logged_once which stack_params method (st : state W) :
  method = create_stack_fn ∨ method = update_stack_fn →
  (∃ infos,
     Forall is_info infos
     ∧ (deploy_runs_to_end client which stack_params method st →
        log (run client (deploy_in_order which stack_params method) st).1
          = log st ++ infos
        ∧ length infos = 2 * length stack_params)
     ∧ (¬ deploy_runs_to_end client which stack_params method st →
        length infos < 2 * length stack_params
        ∧ ∃ e, log (run client (deploy_in_order which stack_params method) st).1
               = log st ++ infos ++ [ERROR e]))
  ∧ (∃ infos,
       Forall is_info infos
       ∧ (delete_runs_to_end client stack_params st →
          log (run client (delete_in_reverse_order stack_params) st).1
            = log st ++ infos
          ∧ length infos = 2 * length stack_params)
       ∧ (¬ delete_runs_to_end client stack_params st →
          length infos < 2 * length stack_params
          ∧ ∃ e, log (run client (delete_in_reverse_order stack_params) st).1
                 = log st ++ infos ++ [ERROR e])).
Proof.
  intros Hm. destruct (dispatch_valid _ Hm) as (f & message & Hd). split.
  - destruct (for_each_logs_progress
                (deploy_body which f (waiter_name method) message) stack_params st)
      as (infos & Hlog & Hall & Hlen & Hlt);
      [intros x s; by eapply deploy_body_logs_progress |].
    exists infos. unfold deploy_runs_to_end.
    rewrite Hd, (run_deploy_in_order _ _ _ _ _ _ _ _ Hd).
    destruct (run client (for_each stack_params _) st) as [st' [e | []]];
      cbn [fst snd log emit returned] in *; (split_and!; [done | |]).
    + done.
    + intros _. split; [apply Hlt; by intros [] |]. exists e. by rewrite Hlog, app_assoc.
    + intros _. split; [done | by apply Hlen].
    + intros Hr. by destruct Hr.
  - destruct (for_each_logs_progress delete_body (reverse stack_params) st)
      as (infos & Hlog & Hall & Hlen & Hlt);
      [intros x s; apply delete_body_logs_progress |].
    rewrite length_reverse in Hlen, Hlt.
    exists infos. unfold delete_runs_to_end. rewrite run_delete_in_reverse_order.
    destruct (run client (for_each (reverse stack_params) _) st) as [st' [e | []]];
      cbn [fst snd log emit returned] in *; (split_and!; [done | |]).
    + done.
    + intros _. split; [apply Hlt; by intros [] |]. exists e. by rewrite Hlog, app_assoc.
    + intros _. split; [done | by apply Hlen].
    + intros Hr. by destruct Hr.
Qed.

End Log.

Lemma error_logged_once_witness :
  ∃ infos,
    Forall is_info infos
    ∧ length infos < 2 * length [1; 2; 3]
    ∧ ∃ e, log (run (scripted ["build-A"] [])
                  (deploy_in_order TopLevel [1; 2; 3] create_stack_fn)
                  (initial three_stacks)).1
           = log (initial three_stacks) ++ infos ++ [ERROR e].
Proof.
  destruct (error_logged_once (scripted ["build-A"] []) TopLevel [1; 2; 3]
              create_stack_fn (initial three_stacks))
    as [(infos & Hall & _ & Hfail) _]; [by left |].
  exists infos. split; [exact Hall |]. apply Hfail. vm_compute. intros H. exact H.
Defined.

Section ScriptsLog.
Context {W : Type} (client : provider W).

Lemma scripts_progress_stable method f wait_operation message param (st : state W) y :
  dispatch method = Some (f, wait_operation, message) →
  scripts_progress method
    (run client (deploy_body Scripts f wait_operation message param) st).1 y
  = scripts_progress method st y.
Proof.
  intros Hd. unfold scripts_progress, stack_name.
  by rewrite (deploy_body_frame client Scripts method f wait_operation message
                param st y "StackName" Hd) by (by right).
Qed.

Lemma scripts_loop_log method f wait_operation message xs (st st' : state W) :
  dispatch method = Some (f, wait_operation, message) →
  run client (for_each xs (deploy_body Scripts f wait_operation message)) st
    = (st', inr tt) →
  log st' = log st ++ flat_map (scripts_progress method st) xs.
Proof.
  intros Hd. revert st. induction xs as [| x xs IH]; intros st Hrun.
  { injection Hrun as <-. cbn. by rewrite app_nil_r. }
  rewrite run_for_each_cons in Hrun.
  pose proof (scripts_progress_stable method f wait_operation message x st) as Hst.
  destruct (run client (deploy_body Scripts f wait_operation message x) st)
    as [st1 [e | []]] eqn:Hbody; [done |].
  destruct (deploy_body_log client Scripts _ _ _ _ _ _ _ Hd Hbody)
    as (name & Hname & Hlog).
  rewrite (IH st1 Hrun), Hlog, <- app_assoc. f_equal.
  cbn [flat_map]. f_equal.
  - unfold scripts_progress, stack_name. rewrite Hname. cbn.
    by destruct (dispatch_Some _ _ _ _ Hd) as [(-> & _ & _ & ->) | (-> & _ & _ & ->)].
  - apply flat_map_ext. intros y. by apply Hst.
Qed.

(** X4. In the copy under [scripts/], a forward run whose loop runs to its
    end adds to the log, for each dictionary in the order of the sequence,
    "name is being created" and "name is created" when the method is
    [create_stack], "name is being updated" and "name is updated" when it is
    [update_stack], and nothing else. *)
Theorem scripts_log_of_completed_run stack_params method (st : state W) :
  method = create_stack_fn ∨ method = update_stack_fn →
  deploy_runs_to_end client Scripts stack_params method st →
  log (run client (deploy_in_order Scripts stack_params method) st).1
  = log st ++ flat_map (scripts_progress method st) stack_params.
Proof.
  intros Hm. destruct (dispatch_valid _ Hm) as (f & message & Hd).
  unfold deploy_runs_to_end. rewrite Hd, (run_deploy_in_order _ _ _ _ _ _ _ _ Hd).
  destruct (run client (for_each stack_params _) st) as [st' [e | []]] eqn:Hloop;
    [done |].
  intros _. by eapply scripts_loop_log.
Qed.

End ScriptsLog.

Lemma scripts_log_of_completed_run_witness :
  log (run (scripted [] []) (deploy_in_order Scripts [1; 2] update_stack_fn)
         (initial two_stacks)).1
  = log (initial two_stacks)
    ++ flat_map (scripts_progress update_stack_fn (initial two_stacks)) [1; 2].
Proof.
  apply (scripts_log_of_completed_run (scripted [] []) [1; 2] update_stack_fn
           (initial two_stacks)); [by right |].
  vm_compute. exact I.
Defined.

Example scripts_progress_two_stacks :
  flat_map (scripts_progress update_stack_fn (initial two_stacks)) [1; 2]
  = [INFO (VStr "git-A") " is being updated"; INFO (VStr "git-A") " is updated";
     INFO (VStr "build-A") " is being updated"; INFO (VStr "build-A") " is updated"].
Proof. vm_compute. reflexivity. Qed.

(** ** How many calls, and which *)

Section CallBounds.
Context {W : Type} (client : provider W).

Lemma forward_calls_length method (st : state W) stack_params :
  length (forward_calls method st stack_params) = 2 * length stack_params.
Proof.
  unfold forward_calls. induction stack_params as [| x xs IH]; [done |].
  cbn [flat_map]. rewrite length_app, IH. cbn. lia.
Qed.

Lemma teardown_calls_length (st : state W) stack_params :
  length (teardown_calls st stack_params) = 2 * length stack_params.
Proof.
  unfold teardown_calls. rewrite <- (length_reverse stack_params).
  induction (reverse stack_params) as [| x xs IH]; [done |].
  cbn [flat_map]. rewrite length_app, IH. cbn. lia.
Qed.

Lemma forward_calls_kinds method (st : state W) stack_params c :
  c ∈ forward_calls method st stack_params →
  c.1 = kind_of method ∨ c.1 = KWait (waiter_name method) 5 120.
Proof.
  unfold forward_calls. rewrite list_elem_of_In, in_flat_map.
  intros (x & _ & Hx). apply list_elem_of_In in Hx. unfold deploy_calls in Hx.
  apply elem_of_cons in Hx as [-> | Hx]; [by left |].
  apply list_elem_of_singleton in Hx as ->. by right.
Qed.

Lemma teardown_calls_kinds (st : state W) stack_params c :
  c ∈ teardown_calls st stack_params →
  c.1 = KDelete ∨ c.1 = KWait "stack_delete_complete" 5 120.
Proof.
  unfold teardown_calls. rewrite list_elem_of_In, in_flat_map.
  intros (x & _ & Hx). apply list_elem_of_In in Hx. unfold delete_calls in Hx.
  apply elem_of_cons in Hx as [-> | Hx]; [by left |].
  apply list_elem_of_singleton in Hx as ->. by right.
Qed.

Lemma prefix_bounds (expected : list (call_kind * option value)) evs
    (P : call_kind → Prop) :
  event_call <$> evs `prefix_of` expected →
  (∀ c, c ∈ expected → P c.1) →
  length evs ≤ length expected ∧ ∀ ev, ev ∈ evs → P (event_call ev).1.
Proof.
  intros Hp HP. split.
  - apply prefix_length in Hp. by rewrite length_fmap in Hp.
  - intros ev Hev. apply HP. destruct Hp as [k ->].
    apply elem_of_app. left. by apply list_elem_of_fmap_2.
Qed.

(** X5. The runners never repeat a call and never make a call of another
    kind: a call of [deploy_in_order] (with [create_stack] or [update_stack])
    makes at most two provider calls per dictionary, each either the client
    call of its method or a wait on the matching condition;
    a call of [delete_in_reverse_order] makes at most two per dictionary,
    each a delete or a wait for [stack_delete_complete]. *)
Theorem no_retry_no_other_call which stack_params method (st : state W) :
  method = create_stack_fn ∨ method = update_stack_fn →
  (∃ evs,
     trace (run client (deploy_in_order which stack_params method) st).1
       = trace st ++ evs
     ∧ length evs ≤ 2 * length stack_params
     ∧ ∀ ev, ev ∈ evs →
         (event_call ev).1 = kind_of method
         ∨ (event_call ev).1 = KWait (waiter_name method) 5 120)
  ∧ (∃ evs,
       trace (run client (delete_in_reverse_order stack_params) st).1
         = trace st ++ evs
       ∧ length evs ≤ 2 * length stack_params
       ∧ ∀ ev, ev ∈ evs →
           (event_call ev).1 = KDelete
           ∨ (event_call ev).1 = KWait "stack_delete_complete" 5 120).
Proof.
  intros Hm. destruct (dispatch_valid _ Hm) as (f & message & Hd). split.
  - destruct (deploy_in_order_follows client which stack_params _ _ _ _ st Hd)
      as (evs & Ht & Hp & _).
    exists evs. split; [done |].
    rewrite <- (forward_calls_length method st).
    apply (prefix_bounds _ _
             (λ k, k = kind_of method ∨ k = KWait (waiter_name method) 5 120) Hp).
    intros c. apply forward_calls_kinds.
  - destruct (delete_in_reverse_order_follows client stack_params st)
      as (evs & Ht & Hp & _).
    exists evs. split; [done |].
    rewrite <- (teardown_calls_length st).
    apply (prefix_bounds _ _
             (λ k, k = KDelete ∨ k = KWait "stack_delete_complete" 5 120) Hp).
    intros c. apply teardown_calls_kinds.
Qed.

End CallBounds.

Lemma no_retry_no_other_call_witness :
  ∃ evs,
    trace (run (scripted [] ["git-A"])
             (deploy_in_order TopLevel [1; 2] update_stack_fn)
             (initial two_stacks)).1 = trace (initial two_stacks) ++ evs
    ∧ length evs ≤ 2 * length [1; 2]
    ∧ ∀ ev, ev ∈ evs →
        (event_call ev).1 = kind_of update_stack_fn
        ∨ (event_call ev).1 = KWait (waiter_name update_stack_fn) 5 120.
Proof.
  destruct (no_retry_no_other_call (scripted [] ["git-A"]) TopLevel [1; 2]
              update_stack_fn (initial two_stacks)) as [H _]; [by right |].
  exact H.
Defined.

(** ** Missing keys *)

Section MissingKeys.
Context {W : Type} (client : provider W).

(** X6. The first dictionary of a forward run, when its client call
    returns [response]:
    - if the response has no [StackId], the runner logs
      [KeyError('StackId')] and returns; the call is the only one made and
      no dictionary has changed;
    - if it has one but the dictionary has no [StackName], the identifier is
      stored all the same, then the runner logs [KeyError('StackName')] and
      returns without having waited.
    In both cases the rest of the sequence is not touched. *)
Theorem forward_missing_key which method param rest (st : state W) w response :
  method = create_stack_fn ∨ method = update_stack_fn →
  provider_call client method (heap st !!! param) (world st) = (w, inr response) →
  let after_call :=
    called w (call_event method (heap st !!! param) (inr response)) st in
  (response !! "StackId" = None →
   run client (deploy_in_order which (param :: rest) method) st
   = (emit (ERROR (KeyError "StackId")) after_call, inr (param :: rest)))
  ∧ (∀ stack_id,
       response !! "StackId" = Some stack_id →
       stack_name st param = None →
       run client (deploy_in_order which (param :: rest) method) st
       = (emit (ERROR (KeyError "StackName")) (store_id param stack_id after_call),
          inr (param :: rest))).
Proof.
  intros Hm Hcall after_call. destruct (dispatch_valid _ Hm) as (f & message & Hd).
  rewrite (run_deploy_in_order _ _ _ _ _ _ _ _ Hd), run_for_each_cons.
  unfold stack_name. subst after_call.
  split; [intros Hid | intros stack_id Hid Hname];
    deploy_cases Hd; simplify_eq; cbn [heap called] in *; congruence.
Qed.

(** X7. A teardown whose last dictionary has no [StackName] does nothing
    but log [KeyError('StackName')]: no provider call is made and no
    dictionary of the sequence is deleted or changed. *)
Theorem teardown_missing_name pre param (st : state W) :
  stack_name st param = None →
  run client (delete_in_reverse_order (pre ++ [param])) st
  = (emit (ERROR (KeyError "StackName")) st, inr (pre ++ [param])).
Proof.
  intros Hname. rewrite run_delete_in_reverse_order, reverse_app.
  cbn [reverse rev_append app]. rewrite run_for_each_cons.
  unfold stack_name in Hname. delete_cases; simplify_eq; done.
Qed.

End MissingKeys.

Lemma forward_missing_key_witness :
  let st := initial nameless_stacks in
  let after_call := called 1 (call_event create_stack_fn (heap st !!! 1) (inr ∅)) st in
  ((∅ : pydict) !! "StackId" = None →
   run (lenient ∅) (deploy_in_order TopLevel (1 :: [2]) create_stack_fn) st
   = (emit (ERROR (KeyError "StackId")) after_call, inr (1 :: [2])))
  ∧ (∀ stack_id,
       (∅ : pydict) !! "StackId" = Some stack_id →
       stack_name st 1 = None →
       run (lenient ∅) (deploy_in_order TopLevel (1 :: [2]) create_stack_fn) st
       = (emit (ERROR (KeyError "StackName")) (store_id 1 stack_id after_call),
          inr (1 :: [2]))).
Proof.
  apply (forward_missing_key (lenient ∅) TopLevel create_stack_fn 1 [2]
           (initial nameless_stacks) 1 ∅); [by left | reflexivity].
Defined.

(** The dictionary without [StackName] comes first: its stack is created
    and its identifier stored, nothing is waited for, the other dictionary
    is not reached. *)
Example nameless_stack_is_created :
  let final :=
    (run (lenient {[ "StackId" := VStr "arn:1" ]})
       (deploy_in_order TopLevel [2; 1] create_stack_fn)
       (initial nameless_stacks)).1 in
  (event_call <$> trace final) = [(KCreate, None)]
  ∧ (heap final !!! 2) !! "StackId" = Some (VStr "arn:1")
  ∧ (heap final !!! 1) !! "StackId" = None
  ∧ log final = [ERROR (KeyError "StackName")].
Proof. vm_compute. done. Qed.

Lemma teardown_missing_name_witness :
  run (scripted [] []) (delete_in_reverse_order ([1] ++ [2])) (initial nameless_stacks)
  = (emit (ERROR (KeyError "StackName")) (initial nameless_stacks), inr ([1] ++ [2])).
Proof.
  apply (teardown_missing_name (scripted [] []) [1] 2 (initial nameless_stacks)).
  vm_compute. reflexivity.
Defined.

(** ** What the client call receives *)

Section Kwargs.
Context {W : Type} (client : provider W).

Lemma deploy_loop_trace_extends which method f wait_operation message xs
    (st : state W) :
  dispatch method = Some (f, wait_operation, message) →
  ∃ evs,
    trace (run client (for_each xs (deploy_body which f wait_operation message)) st).1
    = trace st ++ evs.
Proof.
  intros Hd.
  destruct (deploy_loop_follows client which _ _ _ _ xs st Hd) as (evs & Ht & _).
  by exists evs.
Qed.

(** The first provider call of a forward run is the client call of the
    method, on all the entries the first dictionary has at that moment. *)
Lemma first_call_kwargs which method param rest (st : state W) :
  method = create_stack_fn ∨ method = update_stack_fn →
  ∃ outcome evs,
    trace (run client (deploy_in_order which (param :: rest) method) st).1
    = trace st ++ call_event method (heap st !!! param) outcome :: evs.
Proof.
  intros Hm. destruct (dispatch_valid _ Hm) as (f & message & Hd).
  rewrite (deploy_in_order_trace _ _ _ _ _ _ _ _ Hd), run_for_each_cons.
  pose proof (λ s, deploy_loop_trace_extends which _ _ _ _ rest s Hd) as Hrest.
  deploy_cases Hd; cbn [fst trace called emit store_id set_heap].
  - by eexists _, [].
  - by eexists _, [].
  - by eexists _, [].
  - eexists _, [_]. by rewrite <- app_assoc.
  - match goal with
    | |- context [run client (for_each rest ?b) ?s] =>
        destruct (Hrest s) as (evs & ->)
    end.
    cbn [trace called emit store_id set_heap].
    eexists _, (_ :: evs). by rewrite <- !app_assoc.
Qed.

(** X8. The client call receives every entry of the dictionary, a
    [StackId] left by an earlier run included: after a create run that ran
    to its end, an update run over the same sequence begins with
    [client.update_stack] called with the [StackId] of the first dictionary
    among its keyword arguments. *)
Theorem update_passes_stack_id which param rest (st : state W) :
  hands_out_ids client →
  deploy_runs_to_end client which (param :: rest) create_stack_fn st →
  let created :=
    (run client (deploy_in_order which (param :: rest) create_stack_fn) st).1 in
  ∃ kwargs outcome evs,
    trace (run client (deploy_in_order which (param :: rest) update_stack_fn)
             created).1
    = trace created ++ EvUpdateStack kwargs outcome :: evs
    ∧ kwargs = heap created !!! param
    ∧ ∃ stack_id, kwargs !! "StackId" = Some stack_id ∧ nonempty stack_id.
Proof.
  intros Hids Hend created.
  destruct (first_call_kwargs which update_stack_fn param rest created)
    as (outcome & evs & Ht); [by right |].
  exists (heap created !!! param), outcome, evs. split_and!; [done | done |].
  subst created. unfold deploy_runs_to_end in Hend. cbn [dispatch] in Hend.
  rewrite (run_deploy_in_order client which (param :: rest) create_stack_fn
             create_stack "stack_create_complete" "created" st eq_refl).
  destruct (run client (for_each (param :: rest) _) st) as [st' [e | []]] eqn:Hloop;
    [done |].
  cbn [fst].
  apply (deploy_loop_completed_has_id client which create_stack_fn _ _ _
           (param :: rest) st st' Hids eq_refl Hloop).
  by left.
Qed.

End Kwargs.

Lemma update_passes_stack_id_witness :
  let created :=
    (run (scripted [] []) (deploy_in_order TopLevel (1 :: [2]) create_stack_fn)
       (initial two_stacks)).1 in
  ∃ kwargs outcome evs,
    trace (run (scripted [] []) (deploy_in_order TopLevel (1 :: [2]) update_stack_fn)
             created).1
    = trace created ++ EvUpdateStack kwargs outcome :: evs
    ∧ kwargs = heap created !!! 1
    ∧ ∃ stack_id, kwargs !! "StackId" = Some stack_id ∧ nonempty stack_id.
Proof.
  apply (update_passes_stack_id (scripted [] []) TopLevel 1 [2] (initial two_stacks)).
  - apply scripted_hands_out_ids.
  - vm_compute. exact I.
Defined.

(** * Further properties of the orchestrators *)

(** ** Dictionaries outside the sequences *)

Lemma all_actions_impl (Q Q' : ∀ X, action X → Prop) {R : Type} (p : prog R) :
  (∀ X (a : action X), Q X a → Q' X a) → all_actions Q p → all_actions Q' p.
Proof.
  intros HQ. induction p as [r | e | X a k IH]; cbn; [done | done |].
  intros [Ha Hk]. split; [by apply HQ | intros x; by apply IH].
Qed.

Lemma deploy_in_order_writes_within which stack_params method :
  all_actions (writes_within stack_params) (deploy_in_order which stack_params method).
Proof.
  unfold deploy_in_order.
  destruct (dispatch method) as [[[f wait_operation] message] |] eqn:Hd; [| done].
  apply all_actions_bind; [| done].
  apply all_actions_try_except; [| done].
  assert (∀ xs, (∀ x, x ∈ xs → x ∈ stack_params) →
            all_actions (writes_within stack_params)
              (for_each xs (deploy_body which f wait_operation message))) as H.
  { induction xs as [| x xs IH]; intros Hsub; [done |].
    cbn [for_each]. apply all_actions_bind.
    - assert (x ∈ stack_params) as Hx by (apply Hsub; by left).
      destruct (dispatch_Some _ _ _ _ Hd) as [(_ & -> & _) | (_ & -> & _)];
        unfold deploy_body, response_getitem; program_actions; by cbn.
    - intros _. apply IH. intros y Hy. apply Hsub. by right. }
  by apply H.
Qed.

Lemma delete_in_reverse_order_writes_within stack_params :
  all_actions (writes_within stack_params) (delete_in_reverse_order stack_params).
Proof.
  unfold delete_in_reverse_order.
  apply all_actions_bind; [| done].
  apply all_actions_try_except; [| done].
  assert (∀ xs, (∀ x, x ∈ xs → x ∈ stack_params) →
            all_actions (writes_within stack_params) (for_each xs delete_body)) as H.
  { induction xs as [| x xs IH]; intros Hsub; [done |].
    cbn [for_each]. apply all_actions_bind.
    - assert (x ∈ stack_params) as Hx by (apply Hsub; by left).
      unfold delete_body. program_actions; by cbn.
    - intros _. apply IH. intros y Hy. apply Hsub. by right. }
  apply H. intros x. by rewrite elem_of_reverse.
Qed.

Section Outside.
Context {W : Type} (client : provider W).

Lemma perform_frame_within L {X : Type} (a : action X) (st : state W) r :
  writes_within L X a → r ∉ L →
  heap (perform client a st).1 !!! r = heap st !!! r.
Proof.
  intros Ha Hr. destruct a; cbn in *; try done.
  - rewrite lookup_total_insert_ne; [done | by intros ->].
  - rewrite lookup_total_insert_ne; [done | by intros ->].
  - by destruct (client_create_stack client _ _).
  - by destruct (client_update_stack client _ _).
  - by destruct (client_delete_stack client _ _).
  - by destruct (waiter_wait client _ _ _ _ _).
Qed.

(** The sequences still to be started are sequences of the argument. *)
Lemma todo_in_sequences which target stack_sequences (st : state W) c :
  reachable client which target stack_sequences st c →
  ∀ stacks, stacks ∈ todo_of (main c) → stacks ∈ stack_sequences.
Proof.
  intros Hc.
  apply (reachable_invariant client which target stack_sequences
           (λ c, ∀ stacks, stacks ∈ todo_of (main c) → stacks ∈ stack_sequences)
           st c); [done | | done].
  intros c1 c2 _ H1 Hstep. destruct Hstep; cbn in *; try done;
    try (intros stacks' Hin; by apply elem_of_nil in Hin).
  intros stacks' Hin. apply H1. by right.
Qed.

(** A property of programs that holds of the program of every sequence of
    the argument, and that each action keeps, holds of every thread. *)
Lemma jobs_invariant_in (P : prog (list loc) → Prop) which target stack_sequences
    (st : state W) c :
  (∀ stacks, stacks ∈ stack_sequences → P (target stacks)) →
  (∀ X (a : action X) k x, P (Vis a k) → P (k x)) →
  reachable client which target stack_sequences st c → Forall P (jobs c).
Proof.
  intros Htarget Hk Hc.
  apply (reachable_invariant client which target stack_sequences
           (λ c, Forall P (jobs c)) st c); [by constructor | | done].
  intros c1 c2 Hc1 HP Hstep.
  pose proof (todo_in_sequences _ _ _ _ _ Hc1) as Htodo.
  destruct Hstep; cbn in *; try done.
  - apply Forall_app. split; [done |]. repeat constructor.
    apply Htarget, Htodo. by left.
  - apply Forall_insert; [done |]. eapply Hk.
    eapply Forall_lookup_1 in HP; eauto.
Qed.

Lemma threads_frame_outside which target stack_sequences (st : state W) c r :
  (∀ stacks, stacks ∈ stack_sequences →
     all_actions (writes_within stacks) (target stacks)) →
  (∀ stacks, stacks ∈ stack_sequences → r ∉ stacks) →
  reachable client which target stack_sequences st c →
  heap (shared c) !!! r = heap st !!! r.
Proof.
  intros Htarget Hr Hc.
  set (L := mjoin stack_sequences).
  assert (r ∉ L) as HrL.
  { intros (stacks & Hin & Hs)%list_elem_of_join. by apply (Hr stacks). }
  apply (reachable_invariant client which target stack_sequences
           (λ c, heap (shared c) !!! r = heap st !!! r) st c); [done | | done].
  intros c1 c2 Hc1 Hheap Hstep.
  pose proof (jobs_invariant_in (all_actions (writes_within L)) which target
                stack_sequences st c1) as Hjobs.
  destruct Hstep as [| | | | | pc js sh i X a k sh' x Hi Hperform]; cbn in *;
    try done.
  assert (Forall (all_actions (writes_within L)) js) as Hall.
  { apply Hjobs; [| by intros ? ? ? ? [_ ?] | done].
    intros stacks Hin. eapply all_actions_impl; [| by apply Htarget].
    intros Y b. destruct b; cbn; try done;
      intros Hp; apply list_elem_of_join; eauto. }
  pose proof (Forall_lookup_1 _ _ _ _ Hall Hi) as [Ha _].
  rewrite <- Hheap.
  replace sh' with (perform client a sh).1 by (by rewrite Hperform).
  by eapply perform_frame_within.
Qed.

(** X9. A dictionary that occurs in none of the sequences is never
    touched: at every moment of [deploy_parallel] and of [delete_parallel]
    it has exactly the entries it had at the call, [StackId] included. *)
Theorem orchestrators_leave_other_dictionaries which stack_sequences method
    (st : state W) r :
  (∀ stacks, stacks ∈ stack_sequences → r ∉ stacks) →
  (∀ c, deploy_parallel client which stack_sequences method st c →
     heap (shared c) !!! r = heap st !!! r)
  ∧ (∀ c, delete_parallel client which stack_sequences st c →
       heap (shared c) !!! r = heap st !!! r).
Proof.
  intros Hr. split; intros c Hc.
  - eapply threads_frame_outside; [| done | done].
    intros stacks _. apply deploy_in_order_writes_within.
  - eapply threads_frame_outside; [| done | done].
    intros stacks _. apply delete_in_reverse_order_writes_within.
Qed.

End Outside.

Lemma orchestrators_leave_other_dictionaries_witness :
  (∀ c, deploy_parallel (scripted [] []) TopLevel [[1]; [2]] create_stack_fn
          (initial three_stacks) c →
     heap (shared c) !!! 3 = heap (initial three_stacks) !!! 3)
  ∧ (∀ c, delete_parallel (scripted [] []) TopLevel [[1]; [2]]
            (initial three_stacks) c →
       heap (shared c) !!! 3 = heap (initial three_stacks) !!! 3).
Proof.
  apply (orchestrators_leave_other_dictionaries (scripted [] []) TopLevel
           [[1]; [2]] create_stack_fn (initial three_stacks) 3).
  intros stacks Hin. repeat (apply elem_of_cons in Hin as [-> | Hin]);
    [| | by apply elem_of_nil in Hin]; by intros [[=] | []%elem_of_nil]%elem_of_cons.
Defined.

(** ** One sequence, and a method that is rejected *)

Section OneSequence.
Context {W : Type} (client : provider W).

Lemma run_ended {R : Type} (job : prog R) (st : state W) :
  is_alive job = false → run client job st = (st, (run client job st).2).
Proof. by destruct job. Qed.

Lemma single_thread_ended which target stacks (st : state W) c job :
  reachable client which target [stacks] st c →
  jobs c = [job] → is_alive job = false →
  shared c = (run client (target stacks) st).1
  ∧ job = ended (run client (target stacks) st).2.
Proof.
  intros Hc Hjobs Hdead.
  destruct (single_thread_agrees_with_run client target which stacks st c Hc)
    as [(_ & Hnil & _) | (_ & job' & Hjob' & Hrun)]; [congruence |].
  assert (job' = job) as -> by congruence.
  rewrite <- Hrun. by destruct job.
Qed.

(** X10. With a single sequence the orchestrator does what the runner does:
    whenever the thread of [deploy_parallel([stacks], method)] has ended,
    the shared state is the one [deploy_in_order(stacks, method)] computes
    from the state at the call; in the copy under [scripts/] this is the
    state [deploy_parallel] returns with. The same holds of
    [delete_parallel] and [delete_in_reverse_order]. *)
Theorem one_sequence_is_the_runner which stacks method (st : state W) :
  (∀ c job,
     deploy_parallel client which [stacks] method st c →
     jobs c = [job] → is_alive job = false →
     shared c = (run client (deploy_in_order which stacks method) st).1)
  ∧ (∀ c result,
       deploy_parallel client Scripts [stacks] method st c →
       main c = Returned result →
       result = [stacks]
       ∧ shared c = (run client (deploy_in_order Scripts stacks method) st).1)
  ∧ (∀ c job,
       delete_parallel client which [stacks] st c →
       jobs c = [job] → is_alive job = false →
       shared c = (run client (delete_in_reverse_order stacks) st).1)
  ∧ (∀ c result,
       delete_parallel client Scripts [stacks] st c →
       main c = Returned result →
       result = [stacks]
       ∧ shared c = (run client (delete_in_reverse_order stacks) st).1).
Proof.
  split_and!.
  - intros c job Hc Hjobs Hdead.
    by destruct (single_thread_ended which _ stacks st c job Hc Hjobs Hdead).
  - intros c result Hc Hmain.
    destruct (scripts_returns_after_all_ended client _ _ st c result Hc Hmain)
      as (-> & Hlen & Hdead).
    split; [done |].
    destruct (jobs c) as [| job [| ? ?]] eqn:Hjobs; [done | | done].
    apply Forall_cons in Hdead as [Hdead _].
    by destruct (single_thread_ended Scripts _ stacks st c job Hc Hjobs Hdead).
  - intros c job Hc Hjobs Hdead.
    by destruct (single_thread_ended which _ stacks st c job Hc Hjobs Hdead).
  - intros c result Hc Hmain.
    destruct (scripts_returns_after_all_ended client _ _ st c result Hc Hmain)
      as (-> & Hlen & Hdead).
    split; [done |].
    destruct (jobs c) as [| job [| ? ?]] eqn:Hjobs; [done | | done].
    apply Forall_cons in Hdead as [Hdead _].
    by destruct (single_thread_ended Scripts _ stacks st c job Hc Hjobs Hdead).
Qed.

(** X11. [deploy_parallel] with a method that is neither [create_stack]
    nor [update_stack]: every thread ends at once on [ValueError(method)],
    which nobody catches or logs; no provider call is ever made and the
    shared state never changes; and the copy under [scripts/] returns its
    argument as if nothing had happened. *)
Theorem rejected_method_in_threads which stack_sequences method (st : state W) :
  method ≠ create_stack_fn → method ≠ update_stack_fn →
  (∀ c, deploy_parallel client which stack_sequences method st c →
     shared c = st
     ∧ Forall (λ job, job = Raise (ValueError method)) (jobs c))
  ∧ ∃ c, deploy_parallel client Scripts stack_sequences method st c
         ∧ main c = Returned stack_sequences
         ∧ shared c = st.
Proof.
  intros H1 H2.
  assert (∀ which' c, deploy_parallel client which' stack_sequences method st c →
            shared c = st
            ∧ Forall (λ job, job = Raise (ValueError method)) (jobs c)) as Hall.
  { intros which' c Hc.
    apply (reachable_invariant client which'
             (λ stacks, deploy_in_order which' stacks method) stack_sequences
             (λ c, shared c = st
                   ∧ Forall (λ job, job = Raise (ValueError method)) (jobs c))
             st c); [by split; [| constructor] | | done].
    intros c1 c2 _ [Hsh Hjobs] Hstep.
    destruct Hstep as [stacks todo js sh | | | | | pc js sh i X a k sh' x Hi Hp];
      cbn in *; try done.
    - split; [done |]. apply Forall_app. split; [done |]. repeat constructor.
      unfold deploy_in_order.
      by rewrite (proj2 (dispatch_None method) (conj H1 H2)).
    - by pose proof (Forall_lookup_1 _ _ _ _ Hjobs Hi). }
  split; [apply Hall |].
  destruct (scripts_can_return client
              (λ stacks, deploy_in_order Scripts stacks method) stack_sequences st)
    as (c & Hc & Hmain).
  exists c. split_and!; [done | done |]. by destruct (Hall Scripts c Hc).
Qed.

End OneSequence.

Lemma rejected_method_in_threads_witness :
  (∀ c, deploy_parallel (scripted [] []) TopLevel [[1]; [2]] delete_stack_fn
          (initial two_stacks) c →
     shared c = initial two_stacks
     ∧ Forall (λ job, job = Raise (ValueError delete_stack_fn)) (jobs c))
  ∧ ∃ c, deploy_parallel (scripted [] []) Scripts [[1]; [2]] delete_stack_fn
           (initial two_stacks) c
         ∧ main c = Returned [[1]; [2]]
         ∧ shared c = initial two_stacks.
Proof.
  apply (rejected_method_in_threads (scripted [] []) TopLevel [[1]; [2]]
           delete_stack_fn (initial two_stacks)); discriminate.
Defined.

(** ** The join of the copy under [scripts/] *)

Section ScriptsJoin.
Context {W : Type} (client : provider W).
Context (target : list loc → prog (list loc)).
Context (stack_sequences : list (list loc)).

Abbreviation scripts_steps := (step client Scripts target stack_sequences).

(** Wherever the execution is, the threads can be run to their ends and
    the caller can then return. *)
Lemma scripts_return_reachable (st : state W) c :
  reachable client Scripts target stack_sequences st c →
  ∃ c', rtc scripts_steps c c' ∧ main c' = Returned stack_sequences.
Proof.
  intros Hc.
  assert (∀ js sh, ∃ c', rtc scripts_steps (Config Polling js sh) c'
                         ∧ main c' = Returned stack_sequences) as Hpoll.
  { intros js sh.
    destruct (jobs_run_to_end client Scripts target stack_sequences Polling
                js sh (length js)) as (js' & sh' & Hrun & Hlen & Hdead).
    exists (Config (Returned stack_sequences) js' sh'). split; [| done].
    etrans; [done |]. apply rtc_once. constructor.
    apply loop_condition_scripts. apply Forall_lookup_2. intros i job Hi.
    apply (Hdead i); [| done]. rewrite <- Hlen. by eapply lookup_lt_Some. }
  destruct c as [[todo | | | result] js sh].
  - destruct (Hpoll (js ++ (target <$> todo)) sh) as (c' & Hrun & Hmain).
    exists c'. split; [| done]. etrans; [apply spawn_all | done].
  - apply Hpoll.
  - destruct (Hpoll js sh) as (c' & Hrun & Hmain).
    exists c'. split; [| done]. eapply rtc_l; [constructor | done].
  - destruct (scripts_returns_after_all_ended client target stack_sequences
                st _ result Hc eq_refl) as (-> & _).
    eexists. split; [apply rtc_refl | done].
Qed.

End ScriptsJoin.

(** X12. The join of the copy under [scripts/] is exact, for
    [deploy_parallel] and [delete_parallel] alike. The orchestrator returns
    its argument, and only when a thread has been started for every
    sequence and every thread has ended; at a poll with every thread ended
    nothing can happen but the return; and wherever the execution is, the
    return can still be reached, whatever the provider answers. *)
Theorem scripts_join_is_exact {W : Type} (client : provider W) stack_sequences
    method (st : state W) :
  exact_join client stack_sequences
    (λ stacks, deploy_in_order Scripts stacks method)
    (deploy_parallel client Scripts stack_sequences method st)
  ∧ exact_join client stack_sequences delete_in_reverse_order
      (delete_parallel client Scripts stack_sequences st).
Proof.
  split; (split_and!;
    [ intros c result Hc Hmain; by eapply scripts_returns_after_all_ended
    | intros [pc js sh] c' _ Hmain Hdead Hstep; cbn in *; subst pc;
      by eapply (proj1 (proj2 (scripts_returns_once_all_ended client _
                                 stack_sequences js sh Hdead)))
    | intros c Hc; by eapply scripts_return_reachable ]).
Qed.

(** ** The calls of all threads together *)

Lemma calls_within_mono {R : Type} (p : prog R) n m :
  n ≤ m → calls_within p n → calls_within p m.
Proof.
  revert n m. induction p as [r | e | X a k IH]; intros n m Hle; cbn; [done | done |].
  destruct (is_call a).
  - destruct n as [| n]; [done |]. destruct m as [| m]; [lia |].
    intros Hk x. apply (IH x n m); [lia | done].
  - intros Hk x. by apply (IH x n m).
Qed.

Lemma calls_within_bind {A B : Type} (p : prog A) (f : A → prog B) n m :
  calls_within p n → (∀ a, calls_within (f a) m) → calls_within (bind p f) (n + m).
Proof.
  intros Hp Hf. revert n Hp.
  induction p as [r | e | X a k IH]; intros n Hp; cbn in *.
  - apply (calls_within_mono _ m); [lia | done].
  - done.
  - destruct (is_call a).
    + destruct n as [| n]; [done |]. cbn. intros x. by apply IH.
    + intros x. by apply IH.
Qed.

Lemma calls_within_try_except {A : Type} (p : prog A) (h : exn → prog A) n m :
  calls_within p n → (∀ e, calls_within (h e) m) →
  calls_within (try_except p h) (n + m).
Proof.
  intros Hp Hh. revert n Hp.
  induction p as [r | e | X a k IH]; intros n Hp; cbn in *.
  - done.
  - apply (calls_within_mono _ m); [lia | done].
  - destruct (is_call a).
    + destruct n as [| n]; [done |]. cbn. intros x. by apply IH.
    + intros x. by apply IH.
Qed.

Lemma calls_within_for_each {A : Type} (xs : list A) (body : A → prog unit) b :
  (∀ x, calls_within (body x) b) →
  calls_within (for_each xs body) (b * length xs).
Proof.
  intros Hbody. induction xs as [| x xs IH]; cbn; [done |].
  replace (b * S (length xs)) with (b + b * length xs) by lia.
  apply calls_within_bind; [done | by intros _].
Qed.

Lemma calls_within_trigger {X : Type} (a : action (exn + X)) :
  calls_within (trigger a) 1.
Proof. unfold trigger. cbn. destruct (is_call a); by intros []. Qed.

Lemma calls_within_perform_ {X : Type} (a : action X) :
  is_call a = false → calls_within (perform_ a) 0.
Proof. intros Ha. unfold perform_. cbn. by rewrite Ha. Qed.

Lemma calls_within_getitem param key : calls_within (getitem param key) 0.
Proof. unfold getitem, trigger. cbn. by intros []. Qed.

Lemma calls_within_response_getitem response key :
  calls_within (response_getitem response key) 0.
Proof. unfold response_getitem. by destruct (response !! key). Qed.

Lemma calls_within_wait_stack operation name delay max_attempts :
  calls_within (wait_stack operation name delay max_attempts) 1.
Proof.
  unfold wait_stack.
  apply (calls_within_bind _ _ 1 0); [apply calls_within_trigger | done].
Qed.

Lemma calls_within_deploy_body which method f wait_operation message param :
  dispatch method = Some (f, wait_operation, message) →
  calls_within (deploy_body which f wait_operation message param) 2.
Proof.
  intros Hd. unfold deploy_body.
  apply (calls_within_bind _ _ 1 1).
  { destruct method; cbn in Hd; try done; injection Hd as <- _ _;
      apply (calls_within_bind _ _ 1 0); try apply calls_within_trigger; done. }
  intros response.
  apply (calls_within_bind _ _ 0 1); [apply calls_within_response_getitem |].
  intros stack_id.
  apply (calls_within_bind _ _ 0 1); [by apply calls_within_perform_ |].
  intros _.
  apply (calls_within_bind _ _ 0 1); [apply calls_within_getitem |].
  intros name.
  apply (calls_within_bind _ _ 0 1); [by apply calls_within_perform_ |].
  intros _.
  apply (calls_within_bind _ _ 0 1); [apply calls_within_getitem |].
  intros name'.
  apply (calls_within_bind _ _ 1 0); [apply calls_within_wait_stack |].
  intros _.
  apply (calls_within_bind _ _ 0 0); [apply calls_within_getitem |].
  intros name''. by apply calls_within_perform_.
Qed.

Lemma calls_within_delete_body param : calls_within (delete_body param) 2.
Proof.
  unfold delete_body.
  apply (calls_within_bind _ _ 0 2); [apply calls_within_getitem |].
  intros name.
  apply (calls_within_bind _ _ 1 1).
  { unfold delete_stack.
    apply (calls_within_bind _ _ 1 0); [apply calls_within_trigger | done]. }
  intros _.
  apply (calls_within_bind _ _ 0 1); [apply calls_within_getitem |].
  intros name'.
  apply (calls_within_bind _ _ 0 1); [by apply calls_within_perform_ |].
  intros _.
  apply (calls_within_bind _ _ 0 1); [apply calls_within_getitem |].
  intros name''.
  apply (calls_within_bind _ _ 1 0); [apply calls_within_wait_stack |].
  intros _.
  apply (calls_within_bind _ _ 0 0); [by apply calls_within_perform_ |].
  intros _.
  apply (calls_within_bind _ _ 0 0); [apply calls_within_getitem |].
  intros name'''. by apply calls_within_perform_.
Qed.

Lemma calls_within_deploy_in_order which stacks method :
  calls_within (deploy_in_order which stacks method) (2 * length stacks).
Proof.
  unfold deploy_in_order.
  destruct (dispatch method) as [[[f wait_operation] message] |] eqn:Hd; [| done].
  apply (calls_within_mono _ (2 * length stacks + 0 + 0)); [lia |].
  apply calls_within_bind; [| done].
  apply calls_within_try_except; [| by intros e; apply calls_within_perform_].
  apply calls_within_for_each. intros param.
  by eapply calls_within_deploy_body.
Qed.

Lemma calls_within_delete_in_reverse_order stacks :
  calls_within (delete_in_reverse_order stacks) (2 * length stacks).
Proof.
  unfold delete_in_reverse_order.
  apply (calls_within_mono _ (2 * length (reverse stacks) + 0 + 0));
    [rewrite length_reverse; lia |].
  apply calls_within_bind; [| done].
  apply calls_within_try_except; [| by intros e; apply calls_within_perform_].
  apply calls_within_for_each. apply calls_within_delete_body.
Qed.

Section CallBudget.
Context {W : Type} (client : provider W).

Lemma perform_call {X : Type} (a : action X) (st : state W) :
  is_call a = true →
  ∃ ev, trace (perform client a st).1 = trace st ++ [ev].
Proof.
  intros Ha. destruct a; try done; cbn.
  - destruct (client_create_stack _ _ _). by eexists.
  - destruct (client_update_stack _ _ _). by eexists.
  - destruct (client_delete_stack _ _ _). by eexists.
  - destruct (waiter_wait _ _ _ _ _ _). by eexists.
Qed.

Lemma perform_no_call {X : Type} (a : action X) (st : state W) :
  is_call a = false → trace (perform client a st).1 = trace st.
Proof. intros Ha. by destruct a. Qed.

Lemma sum_list_insert (bounds : list nat) i b b' :
  bounds !! i = Some b →
  sum_list (<[i := b']> bounds) + b = sum_list bounds + b'.
Proof.
  revert i. induction bounds as [| b0 bounds IH]; intros [| i] Hi;
    simplify_eq/=; [lia |].
  specialize (IH i Hi). lia.
Qed.

Lemma sum_list_snoc (bounds : list nat) b :
  sum_list (bounds ++ [b]) = sum_list bounds + b.
Proof. induction bounds as [| b0 bounds IH]; cbn; lia. Qed.

Context (which : script).
Context (target : list loc → prog (list loc)).
Context (stack_sequences : list (list loc)).
Context (Htarget : ∀ stacks, calls_within (target stacks) (2 * length stacks)).

(** The calls made so far and the calls still possible never exceed two
    per stack. *)
Lemma calls_budget (st : state W) c :
  reachable client which target stack_sequences st c →
  ∃ calls budget,
    trace (shared c) = trace st ++ calls
    ∧ calls_left c budget
    ∧ length calls + budget ≤ 2 * length (mjoin stack_sequences).
Proof.
  intros Hc.
  apply (reachable_invariant client which target stack_sequences
           (λ c, ∃ calls budget,
              trace (shared c) = trace st ++ calls
              ∧ calls_left c budget
              ∧ length calls + budget ≤ 2 * length (mjoin stack_sequences))
           st c); [| | done].
  { exists [], (2 * length (mjoin stack_sequences)). split_and!.
    - by rewrite app_nil_r.
    - exists []. split; [constructor | cbn; lia].
    - cbn. lia. }
  clear c Hc. intros c1 c2 _ (calls & budget & Htrace & (bounds & Hjobs & Hsum) & Hle) Hstep.
  destruct Hstep as [stacks todo js sh | js sh | js sh ? | js sh ? | js sh
                    | pc js sh i X a k sh' x Hi Hperform];
    cbn [main jobs shared todo_of] in *.
  - exists calls, budget. split_and!; [done | | done].
    exists (bounds ++ [2 * length stacks]). split.
    + apply Forall2_app; [done |]. by repeat constructor.
    + change (mjoin (stacks :: todo)) with (stacks ++ mjoin todo) in Hsum.
      rewrite sum_list_snoc. rewrite length_app in Hsum.
      cbn [main todo_of]. lia.
  - exists calls, budget. split_and!; [done | | done]. by exists bounds.
  - exists calls, budget. split_and!; [done | | done]. by exists bounds.
  - exists calls, budget. split_and!; [done | | done]. by exists bounds.
  - exists calls, budget. split_and!; [done | | done]. by exists bounds.
  - destruct (Forall2_lookup_l _ _ _ _ _ Hjobs Hi) as (b & Hb & Hwithin).
    cbn in Hwithin. destruct (is_call a) eqn:Ha.
    + destruct b as [| b]; [done |].
      destruct (perform_call a sh Ha) as (ev & Hev).
      rewrite Hperform in Hev. cbn in Hev.
      pose proof (sum_list_insert bounds i (S b) b Hb) as Hins.
      exists (calls ++ [ev]), (budget - 1). split_and!.
      * by rewrite Hev, Htrace, app_assoc.
      * exists (<[i := b]> bounds). split; [| cbn [main] in *; lia].
        apply Forall2_insert; [done | apply Hwithin].
      * rewrite length_app. cbn. lia.
    + pose proof (perform_no_call a sh Ha) as Hev.
      rewrite Hperform in Hev. cbn in Hev.
      exists calls, budget. split_and!; [congruence | | done].
      exists bounds. split; [| done].
      rewrite <- (list_insert_id bounds i b Hb).
      apply Forall2_insert; [done | apply Hwithin].
Qed.

End CallBudget.

(** X13. All threads together call the provider at most twice per stack,
    however they interleave and whatever the provider answers: at every
    moment of [deploy_parallel] or [delete_parallel], in either copy, the
    calls recorded are those made before, followed by at most
    [2 * (number of stacks in all sequences)] more. No call is repeated
    after a failure, and a record is never taken back. *)
Theorem threads_call_at_most_twice_per_stack {W : Type} (client : provider W)
    which stack_sequences method (st : state W) :
  (∀ c, deploy_parallel client which stack_sequences method st c →
     ∃ calls, trace (shared c) = trace st ++ calls
              ∧ length calls ≤ 2 * length (mjoin stack_sequences))
  ∧ (∀ c, delete_parallel client which stack_sequences st c →
       ∃ calls, trace (shared c) = trace st ++ calls
                ∧ length calls ≤ 2 * length (mjoin stack_sequences)).
Proof.
  split; intros c Hc.
  - destruct (calls_budget client which _ stack_sequences
                (λ stacks, calls_within_deploy_in_order which stacks method) st c Hc)
      as (calls & budget & Htrace & _ & Hle).
    exists calls. split; [done | lia].
  - destruct (calls_budget client which _ stack_sequences
                calls_within_delete_in_reverse_order st c Hc)
      as (calls & budget & Htrace & _ & Hle).
    exists calls. split; [done | lia].
Qed.

(** ** Asking the user *)

Lemma lower_is_y s : lower s = "y" ↔ s = "y" ∨ s = "Y".
Proof.
  split.
  - destruct s as [| c [| c' s']]; [discriminate | | cbn; discriminate].
    destruct c as [[] [] [] [] [] [] [] []]; vm_compute; intros H;
      try discriminate H; auto.
  - by intros [-> | ->].
Qed.

Lemma lower_is_n s : lower s = "n" ↔ s = "n" ∨ s = "N".
Proof.
  split.
  - destruct s as [| c [| c' s']]; [discriminate | | cbn; discriminate].
    destruct c as [[] [] [] [] [] [] [] []]; vm_compute; intros H;
      try discriminate H; auto.
  - by intros [-> | ->].
Qed.

Lemma is_yes_lower answer : is_yes answer = bool_decide (lower answer = "y").
Proof. unfold is_yes. apply bool_decide_ext. symmetry. apply lower_is_y. Qed.

Lemma is_no_lower answer : is_no answer = bool_decide (lower answer = "n").
Proof. unfold is_no. apply bool_decide_ext. symmetry. apply lower_is_n. Qed.

Lemma yes_is_not_no answer : is_yes answer = true → is_no answer = false.
Proof.
  rewrite is_yes_lower, is_no_lower. intros Hy%bool_decide_eq_true.
  apply bool_decide_eq_false. congruence.
Qed.

(** One round of the loop, by the answer. *)
Lemma admission_loop_round fuel retry io :
  retry < 2 →
  admission_loop (S fuel) retry io =
    let io1 := Console (tail (stdin io))
                 (stdout io ++ [Prompted "Coninue with those stacks? (y / N): "]) in
    match head (stdin io) with
    | None => Some (io1, inl EOFError)
    | Some answer =>
        if is_no answer then Some (cancelled io1)
        else if is_yes answer then Some (io1, inr tt)
        else admission_loop fuel (retry + 1) (print "Please enter 'y' or 'n'" io1)
    end.
Proof.
  intros Hlt. cbn [admission_loop]. rewrite decide_True by done.
  unfold input. cbv zeta. destruct (head (stdin io)) as [answer |]; [| done].
  rewrite is_no_lower, is_yes_lower.
  destruct (decide (lower answer = "n")) as [Hn | Hn].
  { by rewrite bool_decide_eq_true_2. }
  rewrite (bool_decide_eq_false_2 _ Hn).
  destruct (decide (lower answer = "y")) as [Hy | Hy].
  { by rewrite bool_decide_eq_true_2. }
  by rewrite (bool_decide_eq_false_2 _ Hy).
Qed.

Lemma admission_loop_end fuel retry io :
  ¬ retry < 2 → admission_loop fuel retry io = Some (cancelled io).
Proof. intros Hge. destruct fuel; cbn; by rewrite decide_False. Qed.

Local Ltac admission_goal :=
  first
    [ done
    | lia
    | by (split; [intros [=] | intros [=]])
    | by (intros _; cbn; rewrite ?last_snoc; split_and!; [done | lia | done])
    | by (intros _ _; cbn; rewrite ?last_snoc) ].

Local Ltac admission_round read :=
  eexists _, _, read; unfold cancelled, print;
  split_and!; [> admission_goal ..].

(** X14. [check_user_admission] asks at most twice and always comes to an
    end, in one of three ways.
    - It returns, so that the script goes on, exactly when the first
      answer is [y] or [Y], or the first answer is neither that nor [n] or
      [N] and the second one is [y] or [Y]; an empty answer is such a
      neither, whatever the prompt says about a default.
    - It raises [EOFError] exactly when the input ends before an answer it
      waits for: there is no answer at all, or a single one that is
      neither yes nor no. The prompt is then the last thing written, and
      nothing is cancelled.
    - In every other case it prints ["Cancelled"] last and ends the script
      with [exit(0)]. *)
Theorem admission_needs_a_yes fuel io :
  2 ≤ fuel →
  ∃ io' r read,
    check_user_admission fuel io = Some (io', r)
    ∧ read ≤ 2 ∧ stdin io' = drop read (stdin io)
    ∧ (r = inr tt ↔ goes_on (stdin io) = true)
    ∧ (r = inl EOFError ↔ runs_out (stdin io) = true)
    ∧ (r = inl EOFError →
       stdin io' = [] ∧ length (stdin io) < 2
       ∧ last (stdout io') = Some (Prompted "Coninue with those stacks? (y / N): "))
    ∧ (r ≠ inr tt → r ≠ inl EOFError →
       r = inl (SystemExit 0)
       ∧ last (stdout io') = Some (Printed [Text "Cancelled"])).
Proof.
  intros Hfuel. destruct fuel as [| [| fuel]]; [lia | lia |].
  unfold check_user_admission. rewrite admission_loop_round by lia. cbv zeta.
  destruct io as [[| first rest] out];
    cbn [stdin stdout head tail goes_on runs_out].
  { admission_round 0. }
  destruct (is_no first) eqn:Hno.
  { assert (is_yes first = false) as Hyes.
    { destruct (is_yes first) eqn:Hyes; [| done].
      apply yes_is_not_no in Hyes. congruence. }
    rewrite Hyes. destruct rest; admission_round 1. }
  destruct (is_yes first) eqn:Hyes.
  { destruct rest; admission_round 1. }
  rewrite admission_loop_round by lia. cbv zeta. cbn [negb orb andb].
  destruct rest as [| second rest]; cbn [print stdin stdout head tail].
  { admission_round 1. }
  destruct (is_no second) eqn:Hno2.
  { assert (is_yes second = false) as Hyes2.
    { destruct (is_yes second) eqn:Hyes2; [| done].
      apply yes_is_not_no in Hyes2. congruence. }
    rewrite Hyes2. admission_round 2. }
  destruct (is_yes second) eqn:Hyes2.
  { admission_round 2. }
  rewrite admission_loop_end by lia. admission_round 2.
Qed.

Lemma admission_needs_a_yes_witness :
  ∃ io' r read,
    check_user_admission 2 (Console [""; "Y"; "n"] []) = Some (io', r)
    ∧ read ≤ 2 ∧ stdin io' = drop read [""; "Y"; "n"]
    ∧ (r = inr tt ↔ goes_on [""; "Y"; "n"] = true)
    ∧ (r = inl EOFError ↔ runs_out [""; "Y"; "n"] = true)
    ∧ (r = inl EOFError →
       stdin io' = [] ∧ length [""; "Y"; "n"] < 2
       ∧ last (stdout io') = Some (Prompted "Coninue with those stacks? (y / N): "))
    ∧ (r ≠ inr tt → r ≠ inl EOFError →
       r = inl (SystemExit 0)
       ∧ last (stdout io') = Some (Printed [Text "Cancelled"])).
Proof.
  apply (admission_needs_a_yes 2 (Console [""; "Y"; "n"] [])). lia.
Defined.

(** The input ends after an answer that is neither yes nor no: asked
    twice, and [EOFError] at the second prompt. *)
Example input_ends_early :
  check_user_admission 2 (Console ["maybe"] [])
  = Some (Console []
            [Prompted "Coninue with those stacks? (y / N): ";
             Printed [Text "Please enter 'y' or 'n'"];
             Prompted "Coninue with those stacks? (y / N): "],
          inl EOFError).
Proof. reflexivity. Qed.

(** Two empty answers: asked twice, told twice, cancelled. *)
Example empty_answers_cancel :
  check_user_admission 2 (Console [""; ""; "y"] [])
  = Some (Console ["y"]
            [Prompted "Coninue with those stacks? (y / N): ";
             Printed [Text "Please enter 'y' or 'n'"];
             Prompted "Coninue with those stacks? (y / N): ";
             Printed [Text "Please enter 'y' or 'n'"];
             Printed [Text "Cancelled"]],
          inl (SystemExit 0)).
Proof. reflexivity. Qed.

(** ** Building the dictionaries *)

(** X15. The dictionary [build_template_params] returns, when it returns
    one: the template was read and validated, and the dictionary holds the
    name, the text read and one entry per parameter, in the order given;
    it has no ["StackId"] and no key but these and ["Capabilities"]. The
    top-level copy stores capabilities only when they are true, so that
    the key is missing for a template that needs none; the copy under
    [scripts/] always stores them, an empty list when the response has
    none. *)
Theorem built_dictionary which env stack_name template_path parameters param :
  build_template_params which env stack_name template_path parameters = inr param →
  ∃ body response,
    read_text env template_path = inr body
    ∧ client_validate_template env body = inr response
    ∧ param !! "StackName" = Some (VStr stack_name)
    ∧ param !! "TemplateBody" = Some (VStr body)
    ∧ param !! "Parameters" = Some (VParameters parameters)
    ∧ param !! "StackId" = None
    ∧ (∀ key, is_Some (param !! key) →
         key ∈ ["StackName"; "TemplateBody"; "Parameters"; "Capabilities"])
    ∧ match which with
      | TopLevel =>
          ∀ v, param !! "Capabilities" = Some v
               ↔ response !! "Capabilities" = Some v ∧ truthy v = true
      | Scripts =>
          param !! "Capabilities"
          = Some (default (VStrList []) (response !! "Capabilities"))
      end.
Proof.
  unfold build_template_params, get_template_body, get_capabilities.
  destruct (read_text env template_path) as [e | body] eqn:Hread; [done |].
  destruct (client_validate_template env body) as [e' | response] eqn:Hvalid;
    [done |].
  intros [= <-].
  assert (∀ (param : pydict) key,
            (∀ key, is_Some (param !! key) →
               key ∈ ["StackName"; "TemplateBody"; "Parameters"]) →
            is_Some (param !! key) →
            key ∈ ["StackName"; "TemplateBody"; "Parameters"; "Capabilities"])
    as Hweaken.
  { intros param key Hkeys Hkey. specialize (Hkeys key Hkey).
    rewrite !elem_of_cons in Hkeys. rewrite !elem_of_cons. tauto. }
  assert (∀ key, is_Some (({[ "StackName" := VStr stack_name;
                              "TemplateBody" := VStr body;
                              "Parameters" := VParameters parameters ]} : pydict)
                            !! key) →
                 key ∈ ["StackName"; "TemplateBody"; "Parameters"]) as Hkeys.
  { intros key [v Hv]. rewrite !elem_of_cons.
    destruct (decide (key = "StackName")) as [-> | H1]; [tauto |].
    destruct (decide (key = "TemplateBody")) as [-> | H2]; [tauto |].
    destruct (decide (key = "Parameters")) as [-> | H3]; [tauto |].
    rewrite !lookup_insert_ne in Hv by done.
    by rewrite lookup_singleton_ne in Hv. }
  assert (∀ (param : pydict) v key,
            (∀ key, is_Some (param !! key) →
               key ∈ ["StackName"; "TemplateBody"; "Parameters"]) →
            is_Some (<["Capabilities" := v]> param !! key) →
            key ∈ ["StackName"; "TemplateBody"; "Parameters"; "Capabilities"])
    as Hinsert.
  { intros param v key Hparam Hkey.
    destruct (decide (key = "Capabilities")) as [-> | Hne].
    { rewrite !elem_of_cons. tauto. }
    rewrite lookup_insert_ne in Hkey by done.
    exact (Hweaken param key Hparam Hkey). }
  exists body, response. destruct which.
  - destruct (response !! "Capabilities") as [capabilities |] eqn:Hcaps.
    + destruct (truthy capabilities) eqn:Htruthy.
      * split_and!; try done.
        { intros key Hkey. exact (Hinsert _ _ key Hkeys Hkey). }
        intros v. rewrite lookup_insert_eq. split.
        -- by intros [= <-].
        -- by intros [[= <-] _].
      * split_and!; try done.
        { intros key Hkey. exact (Hweaken _ key Hkeys Hkey). }
        intros v. split; [done |]. intros [[= <-] ?]. congruence.
    + split_and!; try done.
      { intros key Hkey. exact (Hweaken _ key Hkeys Hkey). }
      intros v. split; [done | by intros [? _]].
  - split_and!; try done.
    intros key Hkey. exact (Hinsert _ _ key Hkeys Hkey).
Qed.

Lemma built_dictionary_witness :
  ∃ body response,
    read_text templates "roles" = inr body
    ∧ client_validate_template templates body = inr response
    ∧ (built_stacks !!! 2) !! "StackName" = Some (VStr "build-A")
    ∧ (built_stacks !!! 2) !! "TemplateBody" = Some (VStr body)
    ∧ (built_stacks !!! 2) !! "Parameters"
      = Some (VParameters [("ProjectName", "A"); ("Branch", "main")])
    ∧ (built_stacks !!! 2) !! "StackId" = None
    ∧ (∀ key, is_Some ((built_stacks !!! 2) !! key) →
         key ∈ ["StackName"; "TemplateBody"; "Parameters"; "Capabilities"])
    ∧ (built_stacks !!! 2) !! "Capabilities"
      = Some (default (VStrList []) (response !! "Capabilities")).
Proof.
  apply (built_dictionary Scripts templates "build-A" "roles"
           [("ProjectName", "A"); ("Branch", "main")] (built_stacks !!! 2)).
  reflexivity.
Defined.

(** For a template that needs no capabilities the two copies differ. *)
Example built_without_capabilities :
  build_template_params TopLevel templates "git-A" "repository" [("RepositoryName", "A")]
  = inr {[ "StackName" := VStr "git-A";
           "TemplateBody" := VStr "template at repository";
           "Parameters" := VParameters [("RepositoryName", "A")] ]}
  ∧ build_template_params Scripts templates "git-A" "repository" [("RepositoryName", "A")]
    = inr (<["Capabilities" := VStrList []]>
             {[ "StackName" := VStr "git-A";
                "TemplateBody" := VStr "template at repository";
                "Parameters" := VParameters [("RepositoryName", "A")] ]}).
Proof. split; reflexivity. Qed.

(** ** Describing the sequences *)

Lemma stack_info_cases (stack : pydict) :
  match stack_info stack with
  | inl e => ∃ key, key ∈ described_keys ∧ stack !! key = None
                    ∧ e = Exn (KeyError key)
  | inr (name, capabilities, parameters) =>
      stack !! "StackName" = Some name
      ∧ stack !! "Capabilities" = Some capabilities
      ∧ stack !! "Parameters" = Some parameters
  end.
Proof.
  unfold stack_info, subscript, described_keys.
  destruct (stack !! "StackName") as [name |] eqn:H1.
  2: { exists "StackName". rewrite !elem_of_cons. tauto. }
  destruct (stack !! "Capabilities") as [capabilities |] eqn:H2.
  2: { exists "Capabilities". rewrite !elem_of_cons. tauto. }
  destruct (stack !! "Parameters") as [parameters |] eqn:H3.
  2: { exists "Parameters". rewrite !elem_of_cons. tauto. }
  done.
Qed.

Lemma stack_infos_describable h stacks :
  Forall (λ param, describable (h !!! param)) stacks →
  ∃ infos, stack_infos h stacks = inr infos
           ∧ length infos = length stacks
           ∧ Forall (λ info, ∃ l, info.2 = VParameters l) infos.
Proof.
  induction 1 as [| param stacks Hparam _ (infos & Heq & Hlen & Hinfos)]; cbn.
  { by exists []. }
  rewrite Heq.
  destruct Hparam as ([name Hname] & [capabilities Hcaps] & l & Hl).
  pose proof (stack_info_cases (h !!! param)) as Hinfo.
  destruct (stack_info (h !!! param)) as [e | [[name' capabilities'] parameters]].
  - destruct Hinfo as (key & Hkey & Hnone & _). unfold described_keys in Hkey.
    rewrite !elem_of_cons, elem_of_nil in Hkey.
    destruct Hkey as [-> | [-> | [-> | []]]]; congruence.
  - destruct Hinfo as (_ & _ & Hp). eexists. split_and!; [done | cbn; lia |].
    constructor; [| done]. exists l. cbn. congruence.
Qed.

Lemma print_infos_parameters infos :
  Forall (λ info : value * value * value, ∃ l, info.2 = VParameters l) infos →
  ∃ out, print_infos infos = (out, inr tt) ∧ length out = 2 * length infos.
Proof.
  induction 1 as [| [[name capabilities] parameters] infos [l Hl] _ (out & Hout & Hlen)];
    cbn.
  { by exists []. }
  cbn in Hl. subst parameters. cbn. rewrite Hout.
  eexists. split; [done |]. cbn. lia.
Qed.

Lemma describe_from_describable h num stack_sequences :
  Forall (Forall (λ param, describable (h !!! param))) stack_sequences →
  ∃ out, describe_from h num stack_sequences = (out, inr tt)
         ∧ length out = 2 * length stack_sequences
                        + 2 * length (mjoin stack_sequences).
Proof.
  intros Hall. revert num.
  induction Hall as [| stacks rest Hstacks _ IH]; intros num; cbn [describe_from].
  { by exists []. }
  destruct (stack_infos_describable h stacks Hstacks) as (infos & -> & Hlen & Hinfos).
  destruct (print_infos_parameters infos Hinfos) as (out & -> & Hout).
  destruct (IH (S num)) as (out' & -> & Hout').
  eexists. split; [done |].
  change (mjoin (stacks :: rest)) with (stacks ++ mjoin rest).
  cbn [length]. rewrite !length_app. cbn [length]. lia.
Qed.

Lemma built_describable env stack_name template_path parameters param :
  build_template_params Scripts env stack_name template_path parameters = inr param →
  describable param.
Proof.
  unfold build_template_params, get_template_body, get_capabilities.
  destruct (read_text env template_path) as [e | body]; [done |].
  destruct (client_validate_template env body) as [e | response]; [done |].
  intros [= <-]. split_and!; [done | done | by exists parameters].
Qed.

(** X16. What the copy under [scripts/] builds, it can describe: on
    sequences of dictionaries that its [build_template_params] returned,
    [describe_sequence] raises nothing, and it calls [print] twice for
    each sequence (the header and the closing reset) and twice for each
    stack (the name, then all its parameters in one call, however many
    lines of text that makes). *)
Theorem describe_sequence_of_built env h stack_sequences :
  (∀ param, param ∈ mjoin stack_sequences →
     ∃ stack_name template_path parameters,
       build_template_params Scripts env stack_name template_path parameters
       = inr (h !!! param)) →
  ∃ out, describe_sequence h stack_sequences = (out, inr tt)
         ∧ length out = 2 * length stack_sequences
                        + 2 * length (mjoin stack_sequences).
Proof.
  intros Hbuilt. apply describe_from_describable.
  apply Forall_forall. intros stacks Hstacks.
  apply Forall_forall. intros param Hparam.
  destruct (Hbuilt param) as (stack_name & template_path & parameters & Hb).
  { apply list_elem_of_join. by exists stacks. }
  by eapply built_describable.
Qed.

Lemma describe_from_app h num pre rest out :
  describe_from h num pre = (out, inr tt) →
  describe_from h num (pre ++ rest)
  = let '(out', r) := describe_from h (num + length pre) rest in (out ++ out', r).
Proof.
  revert num out. induction pre as [| stacks pre IH]; intros num out; cbn [describe_from app length].
  { intros [= <-]. rewrite Nat.add_0_r. by destruct (describe_from h num rest). }
  destruct (stack_infos h stacks) as [e | infos]; [done |].
  destruct (print_infos infos) as [out1 [e | []]]; [done |].
  destruct (describe_from h (S num) pre) as [out2 r] eqn:Hpre.
  intros [= <- ->]. rewrite (IH (S num) out2 Hpre).
  replace (num + S (length pre)) with (S num + length pre) by lia.
  destruct (describe_from h (S num + length pre) rest) as [out3 r3].
  cbn [app]. by rewrite <- app_assoc.
Qed.

Lemma stack_infos_missing_key h stacks param key :
  param ∈ stacks → key ∈ described_keys → (h !!! param) !! key = None →
  ∃ key', key' ∈ described_keys ∧ stack_infos h stacks = inl (Exn (KeyError key')).
Proof.
  intros Hparam Hkey Hnone.
  induction stacks as [| param' stacks IH]; [by apply elem_of_nil in Hparam |].
  cbn. pose proof (stack_info_cases (h !!! param')) as Hinfo.
  destruct (stack_info (h !!! param')) as [e | [[name capabilities] parameters]].
  { destruct Hinfo as (key' & Hkey' & _ & ->). by exists key'. }
  apply elem_of_cons in Hparam as [<- | Hparam].
  - destruct Hinfo as (H1 & H2 & H3). unfold described_keys in Hkey.
    rewrite !elem_of_cons, elem_of_nil in Hkey.
    destruct Hkey as [-> | [-> | [-> | []]]]; congruence.
  - destruct (IH Hparam) as (key' & Hkey' & ->). by exists key'.
Qed.

(** X17. [describe_sequence] looks up the three keys of every stack of a
    sequence before it prints anything of that sequence. With a stack that
    lacks ["StackName"], ["Capabilities"] or ["Parameters"] it raises
    [KeyError] for one of these keys, having printed the sequences before
    in full and nothing of this one, neither its header nor its complete
    stacks; the sequences after it are not looked at. *)
Theorem describe_sequence_missing_key h pre stacks post out param key :
  describe_sequence h pre = (out, inr tt) →
  param ∈ stacks → key ∈ described_keys → (h !!! param) !! key = None →
  ∃ key', key' ∈ described_keys
          ∧ describe_sequence h (pre ++ stacks :: post)
            = (out, inl (Exn (KeyError key'))).
Proof.
  intros Hpre Hparam Hkey Hnone. unfold describe_sequence in *.
  destruct (stack_infos_missing_key h stacks param key Hparam Hkey Hnone)
    as (key' & Hkey' & Hinfos).
  exists key'. split; [done |].
  rewrite (describe_from_app h 1 pre (stacks :: post) out Hpre).
  cbn [describe_from]. rewrite Hinfos. by rewrite app_nil_r.
Qed.

Lemma stack_info_alike (stack1 stack2 : pydict) :
  same_but_capabilities stack1 stack2 →
  match stack_info stack1, stack_info stack2 with
  | inl e1, inl e2 => e1 = e2
  | inr info1, inr info2 => alike info1 info2
  | _, _ => False
  end.
Proof.
  intros (Hname & Hparams & Hcaps). unfold stack_info, subscript.
  rewrite <- Hname, <- Hparams.
  destruct (stack1 !! "StackName") as [name |]; [| done].
  destruct Hcaps as [<- | (c1 & c2 & -> & -> & Ht1 & Ht2)].
  - destruct (stack1 !! "Capabilities") as [capabilities |]; [| done].
    destruct (stack1 !! "Parameters") as [parameters |]; [| done].
    split_and!; [done | done | by left].
  - destruct (stack1 !! "Parameters") as [parameters |]; [| done].
    split_and!; [done | done | by right].
Qed.

Lemma stack_infos_alike h1 h2 stacks :
  Forall (λ param, same_but_capabilities (h1 !!! param) (h2 !!! param)) stacks →
  match stack_infos h1 stacks, stack_infos h2 stacks with
  | inl e1, inl e2 => e1 = e2
  | inr infos1, inr infos2 => Forall2 alike infos1 infos2
  | _, _ => False
  end.
Proof.
  induction 1 as [| param stacks Hparam _ IH]; cbn; [constructor |].
  pose proof (stack_info_alike _ _ Hparam) as Hinfo.
  destruct (stack_info (h1 !!! param)) as [e1 | info1],
           (stack_info (h2 !!! param)) as [e2 | info2]; try done.
  destruct (stack_infos h1 stacks) as [e1 | infos1],
           (stack_infos h2 stacks) as [e2 | infos2]; try done.
  by constructor.
Qed.

Lemma print_infos_alike infos1 infos2 :
  Forall2 alike infos1 infos2 → print_infos infos1 = print_infos infos2.
Proof.
  induction 1 as [| [[name1 c1] p1] [[name2 c2] p2] infos1 infos2 Halike _ IH];
    [done |].
  destruct Halike as (Hname & Hp & Hc). cbn in Hname, Hp, Hc. subst name2 p2.
  cbn [print_infos]. rewrite IH.
  assert (name_line name1 c1 = name_line name1 c2) as ->; [| done].
  destruct Hc as [-> | [Ht1 Ht2]]; [done |].
  unfold name_line. by rewrite Ht1, Ht2.
Qed.

(** X18. Capabilities that are true are never shown. [describe_sequence]
    prints the same, and ends the same way, on two stores whose
    dictionaries have the same name and parameters and capabilities that
    are equal or both true: which capabilities a stack asks for cannot be
    read off the output, only whether it asks for none. *)
Theorem true_capabilities_are_not_shown h1 h2 stack_sequences :
  (∀ param, param ∈ mjoin stack_sequences →
     same_but_capabilities (h1 !!! param) (h2 !!! param)) →
  describe_sequence h1 stack_sequences = describe_sequence h2 stack_sequences.
Proof.
  unfold describe_sequence. generalize 1 as num.
  induction stack_sequences as [| stacks rest IH]; intros num Hsame; [done |].
  cbn [describe_from].
  assert (Forall (λ param, same_but_capabilities (h1 !!! param) (h2 !!! param))
            stacks) as Hstacks.
  { apply Forall_forall. intros param Hparam. apply Hsame.
    apply list_elem_of_join. exists stacks. split; [done | apply list_elem_of_here]. }
  pose proof (stack_infos_alike h1 h2 stacks Hstacks) as Hinfos.
  destruct (stack_infos h1 stacks) as [e1 | infos1],
           (stack_infos h2 stacks) as [e2 | infos2]; try done.
  { by subst e2. }
  rewrite (print_infos_alike infos1 infos2 Hinfos).
  rewrite (IH (S num)); [done |].
  intros param Hparam. apply Hsame.
  apply list_elem_of_join in Hparam as (l & Hl & Hrest).
  apply list_elem_of_join. exists l. split; [done | by apply list_elem_of_further].
Qed.

Lemma describe_sequence_of_built_witness :
  ∃ out, describe_sequence built_stacks [[1]; [2]] = (out, inr tt)
         ∧ length out = 2 * length [[1]; [2]] + 2 * length (mjoin [[1]; [2]]).
Proof.
  apply (describe_sequence_of_built templates built_stacks [[1]; [2]]).
  intros param Hparam. cbn in Hparam.
  apply elem_of_cons in Hparam as [-> | Hparam].
  { by exists "git-A", "repository", [("RepositoryName", "A")]. }
  apply list_elem_of_singleton in Hparam as ->.
  by exists "build-A", "roles", [("ProjectName", "A"); ("Branch", "main")].
Defined.

Lemma describe_sequence_missing_key_witness :
  ∃ key', key' ∈ described_keys
          ∧ describe_sequence built_stacks ([[1]] ++ [2; 3] :: [[1]])
            = ((describe_sequence built_stacks [[1]]).1,
               inl (Exn (KeyError key'))).
Proof.
  apply (describe_sequence_missing_key built_stacks [[1]] [2; 3] [[1]]
           (describe_sequence built_stacks [[1]]).1 3 "Capabilities").
  - reflexivity.
  - apply list_elem_of_further, list_elem_of_here.
  - apply list_elem_of_further, list_elem_of_here.
  - reflexivity.
Defined.

Lemma true_capabilities_are_not_shown_witness :
  describe_sequence built_stacks [[1; 2]] = describe_sequence built_stacks' [[1; 2]].
Proof.
  apply (true_capabilities_are_not_shown built_stacks built_stacks' [[1; 2]]).
  intros param Hparam. cbn in Hparam.
  apply elem_of_cons in Hparam as [-> | Hparam].
  { split_and!; [reflexivity | reflexivity | by left]. }
  apply list_elem_of_singleton in Hparam as ->.
  split_and!; [reflexivity | reflexivity |].
  right. by exists (VStrList ["CAPABILITY_IAM"]), (VStrList ["CAPABILITY_NAMED_IAM"]).
Defined.

(** The first stack asks for no capabilities and is shown with its empty
    list; the second one asks for one and is shown without. *)
Example empty_capabilities_are_shown :
  describe_sequence built_stacks [[1; 2]]
  = ([Printed [Code Fore_WHITE; Text "===== Stack sequence "; Num 1; Text " ====="];
      Printed [Code Fore_LIGHTGREEN_EX; Code Style_BRIGHT; Shown (VStr "git-A");
               Text tab; Shown (VStrList []); Code Style_RESET_ALL];
      Printed [Text tab; Code Fore_LIGHTBLACK_EX; Text "RepositoryName"; Text ": ";
               Code Fore_WHITE; Code Style_BRIGHT; Text "A"; Code Style_RESET_ALL];
      Printed [Code Fore_LIGHTGREEN_EX; Shown (VStr "build-A")];
      Printed [Text tab; Code Fore_LIGHTBLACK_EX; Text "ProjectName"; Text ": ";
               Code Fore_WHITE; Code Style_BRIGHT; Text "A"; Code Style_RESET_ALL;
               Text newline_tab; Code Fore_LIGHTBLACK_EX; Text "Branch"; Text ": ";
               Code Fore_WHITE; Code Style_BRIGHT; Text "main"; Code Style_RESET_ALL];
      Printed [Code Fore_RESET; Code Style_RESET_ALL]],
     inr tt).
Proof. reflexivity. Qed.

(** A template that cannot be read: the builder raises what reading
    raised. *)
Example unreadable_template :
  build_template_params Scripts no_templates "git-A" "repository" []
  = inl (OSError "repository")
  ∧ build_template_params Scripts no_templates "git-A" "binary" []
    = inl UnicodeDecodeError.
Proof. split; reflexivity. Qed.
